(** * photoshare: the data-access and query layer of the photo-sharing service

    A shallow embedding of the Go package [api] (models: photos, tags, users,
    votes, search, pagination, recovery codes, passwords) and of the handlers
    of the routes layer that vote on, change and delete a photo, followed by
    the properties of that code.

    Conventions of the embedding.
    - Go's [int64] (and [int], taken as 64 bits wide) is a [Z]; arithmetic that
      can leave the range goes through [Int64.wrap].
    - A Go [string] is a sequence of bytes: [gostring := list ascii].
      [strings.TrimSpace] and [strings.ToLower] read it as UTF-8, as Go
      does: runes are decoded and encoded as [unicode/utf8] does, white
      space is [unicode.IsSpace] and lower case is [unicode.ToLower].  The
      other functions of [strings] and [strconv] that the code calls work on
      bytes.
    - A store access that can fail is given, per request, the flag that
      says whether it fails ([Faults]); the handlers answer a failure with
      the server error, as the code does.
    - The relational store is a record of tables, each a list of rows; every
      SQL statement the code sends is written out as the list operation it
      denotes.
    - A Go result pair [(value, error)] is an inductive result type. *)

From Stdlib Require Import ZArith List Ascii String Bool Lia Arith.
From Stdlib Require Import DecimalPos DecimalN.
From Stdlib Require Import Floats.SpecFloat.
From Stdlib Require Import Sorting.Sorted.
Import ListNotations.

Local Open Scope Z_scope.

(** ** Go strings as byte sequences *)

Definition gostring := list ascii.

Definition str (s : string) : gostring := list_ascii_of_string s.

Fixpoint gostring_eqb (a b : gostring) : bool :=
  match a, b with
  | [], [] => true
  | x :: a', y :: b' => Ascii.eqb x y && gostring_eqb a' b'
  | _, _ => false
  end.

(** ** 64-bit integers *)

Module Int64.

Definition min_int : Z := - 2 ^ 63.
Definition max_int : Z := 2 ^ 63 - 1.

Definition in_range (z : Z) : Prop := min_int <= z <= max_int.

Definition in_rangeb (z : Z) : bool := (min_int <=? z) && (z <=? max_int).

(** Two's complement wrap-around of an arithmetic result. *)
Definition wrap (z : Z) : Z := (z + 2 ^ 63) mod 2 ^ 64 - 2 ^ 63.

Definition add (a b : Z) : Z := wrap (a + b).
Definition sub (a b : Z) : Z := wrap (a - b).
Definition mul (a b : Z) : Z := wrap (a * b).

End Int64.

(** ** UTF-8 and Unicode, as Go's [unicode/utf8] and [unicode] have them *)

Module Utf8.

(** The value of a byte, and the byte of a value below 256. *)
Definition byte (c : ascii) : Z := Z.of_N (N_of_ascii c).
Definition char (z : Z) : ascii := ascii_of_N (Z.to_N z).

(** [utf8.RuneError], U+FFFD, and [utf8.MaxRune], U+10FFFF. *)
Definition RuneError : Z := 65533.
Definition MaxRune : Z := 1114111.

(** [utf8.ValidRune(r)]: in range and not a surrogate half. *)
Definition ValidRune (r : Z) : bool :=
  ((0 <=? r) && (r <? 55296)) || ((57343 <? r) && (r <=? MaxRune)).

Definition between (lo hi : Z) (c : ascii) : bool :=
  (lo <=? byte c) && (byte c <=? hi).

(** A continuation byte, [10xxxxxx]; [utf8.RuneStart] is its negation. *)
Definition continues (c : ascii) : bool := between 128 191 c.

(** [utf8.DecodeRuneInString(s)]: the first rune of [s] and its width in
    bytes.  The shortest encoding only is accepted, and neither a
    surrogate half nor a value beyond [MaxRune]; a byte that starts no
    such encoding is [(RuneError, 1)], the empty string [(RuneError, 0)].
    The value is made of the payload bits of the bytes, the most
    significant first. *)
Definition DecodeRuneInString (s : gostring) : Z * nat :=
  match s with
  | [] => (RuneError, 0%nat)
  | c0 :: rest =>
      let b0 := byte c0 in
      if b0 <? 128 then (b0, 1%nat)
      else if between 194 223 c0 then
        match rest with
        | c1 :: _ =>
            if continues c1
            then ((b0 - 192) * 64 + (byte c1 - 128), 2%nat)
            else (RuneError, 1%nat)
        | _ => (RuneError, 1%nat)
        end
      else if between 224 239 c0 then
        match rest with
        | c1 :: c2 :: _ =>
            if between (if b0 =? 224 then 160 else 128)
                 (if b0 =? 237 then 159 else 191) c1
               && continues c2
            then (((b0 - 224) * 64 + (byte c1 - 128)) * 64
                  + (byte c2 - 128), 3%nat)
            else (RuneError, 1%nat)
        | _ => (RuneError, 1%nat)
        end
      else if between 240 244 c0 then
        match rest with
        | c1 :: c2 :: c3 :: _ =>
            if between (if b0 =? 240 then 144 else 128)
                 (if b0 =? 244 then 143 else 191) c1
               && continues c2 && continues c3
            then ((((b0 - 240) * 64 + (byte c1 - 128)) * 64
                   + (byte c2 - 128)) * 64 + (byte c3 - 128), 4%nat)
            else (RuneError, 1%nat)
        | _ => (RuneError, 1%nat)
        end
      else (RuneError, 1%nat)
  end.

(** [utf8.EncodeRune(p, r)], the bytes written: one to four bytes for a
    valid rune, the three bytes of [RuneError] for any other value. *)
Definition EncodeRune (r : Z) : gostring :=
  if (0 <=? r) && (r <=? 127) then [char r]
  else if (128 <=? r) && (r <=? 2047) then
    [char (192 + r / 64); char (128 + r mod 64)]
  else if negb (ValidRune r) then [char 239; char 191; char 189]
  else if r <=? 65535 then
    [char (224 + r / 4096); char (128 + (r / 64) mod 64);
     char (128 + r mod 64)]
  else
    [char (240 + r / 262144); char (128 + (r / 4096) mod 64);
     char (128 + (r / 64) mod 64); char (128 + r mod 64)].

(** The bytes from the nearest rune start, at most [n] bytes back, to the
    end of the string; [before] holds the bytes before [tail], the nearest
    first. *)
Fixpoint lastStart (n : nat) (before tail : gostring) : option gostring :=
  match n, before with
  | S n', c :: before' =>
      if continues c then lastStart n' before' (c :: tail)
      else Some (c :: tail)
  | _, _ => None
  end.

(** [utf8.DecodeLastRuneInString(s)]: the last rune of [s] and its width.
    It backs up over at most three bytes to a rune start and decodes from
    there; when that does not end at the end of [s] the last byte is
    [(RuneError, 1)]. *)
Definition DecodeLastRuneInString (s : gostring) : Z * nat :=
  match rev s with
  | [] => (RuneError, 0%nat)
  | c :: before =>
      if byte c <? 128 then (byte c, 1%nat)
      else
        match lastStart 3 before [c] with
        | Some tail =>
            let (r, size) := DecodeRuneInString tail in
            if (size =? List.length tail)%nat then (r, size)
            else (RuneError, 1%nat)
        | None => (RuneError, 1%nat)
        end
  end.

End Utf8.

Module Unicode.

(** [unicode.IsSpace(r)]: in Latin-1 the tab, line feed, vertical tab, form
    feed, carriage return, space, U+0085 and U+00A0; beyond it the
    characters with the property [White_Space] (of Unicode 6.3 and later):
    U+1680, U+2000 to U+200A, U+2028, U+2029, U+202F, U+205F, U+3000. *)
Definition IsSpace (r : Z) : bool :=
  ((9 <=? r) && (r <=? 13)) || (r =? 32) || (r =? 133) || (r =? 160)
  || (r =? 5760) || ((8192 <=? r) && (r <=? 8202))
  || (r =? 8232) || (r =? 8233) || (r =? 8239) || (r =? 8287)
  || (r =? 12288).

(** The upper-case and title-case characters beyond ASCII and the distance
    to their lower case, as the ranges of [unicode.CaseRanges]: every
    [stride]-th code point from [lo] to [hi] has its lower case [delta]
    further.  The mappings are the simple lower-case mappings of the
    Unicode Character Database, version 14.0.0; the table of a Go release
    is generated from the version that release ships and differs only on
    code points that the other version does not assign. *)
Definition lowerRanges : list (Z * Z * Z * Z) :=
  [(192, 214, 1, 32); (216, 222, 1, 32); (256, 302, 2, 1);
   (304, 304, 1, -199); (306, 310, 2, 1); (313, 327, 2, 1);
   (330, 374, 2, 1); (376, 376, 1, -121); (377, 381, 2, 1);
   (385, 385, 1, 210); (386, 388, 2, 1); (390, 390, 1, 206);
   (391, 391, 1, 1); (393, 394, 1, 205); (395, 395, 1, 1);
   (398, 398, 1, 79); (399, 399, 1, 202); (400, 400, 1, 203);
   (401, 401, 1, 1); (403, 403, 1, 205); (404, 404, 1, 207);
   (406, 406, 1, 211); (407, 407, 1, 209); (408, 408, 1, 1);
   (412, 412, 1, 211); (413, 413, 1, 213); (415, 415, 1, 214);
   (416, 420, 2, 1); (422, 422, 1, 218); (423, 423, 1, 1);
   (425, 425, 1, 218); (428, 428, 1, 1); (430, 430, 1, 218);
   (431, 431, 1, 1); (433, 434, 1, 217); (435, 437, 2, 1);
   (439, 439, 1, 219); (440, 440, 1, 1); (444, 444, 1, 1);
   (452, 452, 1, 2); (453, 453, 1, 1); (455, 455, 1, 2); (456, 456, 1, 1);
   (458, 458, 1, 2); (459, 475, 2, 1); (478, 494, 2, 1); (497, 497, 1, 2);
   (498, 500, 2, 1); (502, 502, 1, -97); (503, 503, 1, -56);
   (504, 542, 2, 1); (544, 544, 1, -130); (546, 562, 2, 1);
   (570, 570, 1, 10795); (571, 571, 1, 1); (573, 573, 1, -163);
   (574, 574, 1, 10792); (577, 577, 1, 1); (579, 579, 1, -195);
   (580, 580, 1, 69); (581, 581, 1, 71); (582, 590, 2, 1);
   (880, 882, 2, 1); (886, 886, 1, 1); (895, 895, 1, 116);
   (902, 902, 1, 38); (904, 906, 1, 37); (908, 908, 1, 64);
   (910, 911, 1, 63); (913, 929, 1, 32); (931, 939, 1, 32);
   (975, 975, 1, 8); (984, 1006, 2, 1); (1012, 1012, 1, -60);
   (1015, 1015, 1, 1); (1017, 1017, 1, -7); (1018, 1018, 1, 1);
   (1021, 1023, 1, -130); (1024, 1039, 1, 80); (1040, 1071, 1, 32);
   (1120, 1152, 2, 1); (1162, 1214, 2, 1); (1216, 1216, 1, 15);
   (1217, 1229, 2, 1); (1232, 1326, 2, 1); (1329, 1366, 1, 48);
   (4256, 4293, 1, 7264); (4295, 4295, 1, 7264); (4301, 4301, 1, 7264);
   (5024, 5103, 1, 38864); (5104, 5109, 1, 8); (7312, 7354, 1, -3008);
   (7357, 7359, 1, -3008); (7680, 7828, 2, 1); (7838, 7838, 1, -7615);
   (7840, 7934, 2, 1); (7944, 7951, 1, -8); (7960, 7965, 1, -8);
   (7976, 7983, 1, -8); (7992, 7999, 1, -8); (8008, 8013, 1, -8);
   (8025, 8031, 2, -8); (8040, 8047, 1, -8); (8072, 8079, 1, -8);
   (8088, 8095, 1, -8); (8104, 8111, 1, -8); (8120, 8121, 1, -8);
   (8122, 8123, 1, -74); (8124, 8124, 1, -9); (8136, 8139, 1, -86);
   (8140, 8140, 1, -9); (8152, 8153, 1, -8); (8154, 8155, 1, -100);
   (8168, 8169, 1, -8); (8170, 8171, 1, -112); (8172, 8172, 1, -7);
   (8184, 8185, 1, -128); (8186, 8187, 1, -126); (8188, 8188, 1, -9);
   (8486, 8486, 1, -7517); (8490, 8490, 1, -8383); (8491, 8491, 1, -8262);
   (8498, 8498, 1, 28); (8544, 8559, 1, 16); (8579, 8579, 1, 1);
   (9398, 9423, 1, 26); (11264, 11311, 1, 48); (11360, 11360, 1, 1);
   (11362, 11362, 1, -10743); (11363, 11363, 1, -3814);
   (11364, 11364, 1, -10727); (11367, 11371, 2, 1);
   (11373, 11373, 1, -10780); (11374, 11374, 1, -10749);
   (11375, 11375, 1, -10783); (11376, 11376, 1, -10782);
   (11378, 11378, 1, 1); (11381, 11381, 1, 1); (11390, 11391, 1, -10815);
   (11392, 11490, 2, 1); (11499, 11501, 2, 1); (11506, 11506, 1, 1);
   (42560, 42604, 2, 1); (42624, 42650, 2, 1); (42786, 42798, 2, 1);
   (42802, 42862, 2, 1); (42873, 42875, 2, 1); (42877, 42877, 1, -35332);
   (42878, 42886, 2, 1); (42891, 42891, 1, 1); (42893, 42893, 1, -42280);
   (42896, 42898, 2, 1); (42902, 42920, 2, 1); (42922, 42922, 1, -42308);
   (42923, 42923, 1, -42319); (42924, 42924, 1, -42315);
   (42925, 42925, 1, -42305); (42926, 42926, 1, -42308);
   (42928, 42928, 1, -42258); (42929, 42929, 1, -42282);
   (42930, 42930, 1, -42261); (42931, 42931, 1, 928); (42932, 42946, 2, 1);
   (42948, 42948, 1, -48); (42949, 42949, 1, -42307);
   (42950, 42950, 1, -35384); (42951, 42953, 2, 1); (42960, 42960, 1, 1);
   (42966, 42968, 2, 1); (42997, 42997, 1, 1); (65313, 65338, 1, 32);
   (66560, 66599, 1, 40); (66736, 66771, 1, 40); (66928, 66938, 1, 39);
   (66940, 66954, 1, 39); (66956, 66962, 1, 39); (66964, 66965, 1, 39);
   (68736, 68786, 1, 64); (71840, 71871, 1, 32); (93760, 93791, 1, 32);
   (125184, 125217, 1, 34)].

Definition inRange (r : Z) (range : Z * Z * Z * Z) : bool :=
  let '(lo, hi, stride, _) := range in
  (lo <=? r) && (r <=? hi) && ((r - lo) mod stride =? 0).

(** [unicode.ToLower(r)]. *)
Definition ToLower (r : Z) : Z :=
  if r <=? 127 then
    if (65 <=? r) && (r <=? 90) then r + 32 else r
  else
    match find (inRange r) lowerRanges with
    | Some (_, _, _, delta) => r + delta
    | None => r
    end.

(** The code points of a range of the table. *)
Definition rangeKeys (range : Z * Z * Z * Z) : list Z :=
  let '(lo, hi, stride, _) := range in
  map (fun i => lo + stride * Z.of_nat i)
    (seq 0 (Z.to_nat ((hi - lo) / stride + 1))).

End Unicode.

(** ** The functions of Go's [strings] package used by the code *)

Module Strings.

(** The store's [UPPER], on the ASCII letters. *)
Definition toUpperByte (c : ascii) : ascii :=
  let n := N_of_ascii c in
  if ((97 <=? n) && (n <=? 122))%N then ascii_of_N (n - 32) else c.

Definition ToUpper (s : gostring) : gostring := map toUpperByte s.

Fixpoint inCutset (c : ascii) (cutset : gostring) : bool :=
  match cutset with
  | [] => false
  | d :: rest => Ascii.eqb c d || inCutset c rest
  end.

(** [strings.TrimLeft(s, cutset)]: drop the leading bytes that are in
    [cutset]. *)
Fixpoint TrimLeft (s : gostring) (cutset : gostring) : gostring :=
  match s with
  | [] => []
  | c :: rest => if inCutset c cutset then TrimLeft rest cutset else s
  end.

(** [strings.TrimRight(s, cutset)]: drop the trailing bytes that are in
    [cutset]. *)
Definition TrimRight (s : gostring) (cutset : gostring) : gostring :=
  rev (TrimLeft (rev s) cutset).

(** The loop [for _, c := range s] of [strings.Map], as the Go releases
    of today have it: the runes of [s] in turn, a byte that starts no valid
    encoding read as [RuneError]; each is mapped, and the encodings of the
    results that are not negative are appended.  [skip] counts the bytes
    left of the rune last read. *)
Fixpoint mapRunes (mapping : Z -> Z) (skip : nat) (s : gostring)
  : gostring :=
  match s with
  | [] => []
  | _ :: rest =>
      match skip with
      | S k => mapRunes mapping k rest
      | O =>
          let (c, width) := Utf8.DecodeRuneInString s in
          let r := mapping c in
          (if 0 <=? r then Utf8.EncodeRune r else [])
          ++ mapRunes mapping (width - 1) rest
      end
  end.

(** [strings.Map(mapping, s)]. *)
Definition Map (mapping : Z -> Z) (s : gostring) : gostring :=
  mapRunes mapping 0 s.

(** [strings.ToLower(s)]: [Map(unicode.ToLower, s)]. *)
Definition ToLower (s : gostring) : gostring := Map Unicode.ToLower s.

(** The string from its first rune that is not white space. *)
Fixpoint trimLeftSpace (skip : nat) (s : gostring) : gostring :=
  match s with
  | [] => []
  | _ :: rest =>
      match skip with
      | S k => trimLeftSpace k rest
      | O =>
          let (r, width) := Utf8.DecodeRuneInString s in
          if Unicode.IsSpace r then trimLeftSpace (width - 1) rest else s
      end
  end.

(** The string up to its last rune that is not white space, the runes
    read from the end; [reversed] is the string read backwards, and what
    is returned is so too. *)
Fixpoint trimRightSpace (skip : nat) (reversed : gostring) : gostring :=
  match reversed with
  | [] => []
  | _ :: rest =>
      match skip with
      | S k => trimRightSpace k rest
      | O =>
          let (r, size) := Utf8.DecodeLastRuneInString (rev reversed) in
          if Unicode.IsSpace r then trimRightSpace (size - 1) rest
          else reversed
      end
  end.

(** [strings.TrimSpace(s)]: [s] without its leading and trailing white
    space, as [unicode.IsSpace] defines it. *)
Definition TrimSpace (s : gostring) : gostring :=
  rev (trimRightSpace 0 (rev (trimLeftSpace 0 s))).

(** [strings.Split(s, sep)] for a one-byte separator: the pieces of [s]
    between the occurrences of [sep]; one piece more than there are
    occurrences, so [Split "" sep] is the one-element list holding the
    empty string. *)
Fixpoint Split (s : gostring) (sep : ascii) : list gostring :=
  match s with
  | [] => [[]]
  | c :: rest =>
      if Ascii.eqb c sep then [] :: Split rest sep
      else match Split rest sep with
           | [] => [[c]]
           | w :: ws => (c :: w) :: ws
           end
  end.

(** [strings.Join(a, sep)]. *)
Fixpoint Join (a : list gostring) (sep : gostring) : gostring :=
  match a with
  | [] => []
  | [w] => w
  | w :: ws => w ++ sep ++ Join ws sep
  end.

(** [strings.HasPrefix(s, prefix)] for a one-byte prefix. *)
Definition HasPrefix (s : gostring) (prefix : ascii) : bool :=
  match s with
  | c :: _ => Ascii.eqb c prefix
  | [] => false
  end.

End Strings.

(** ** The functions of Go's [strconv] package used by the code *)

Module Strconv.

Fixpoint uint_digits (d : Decimal.uint) : gostring :=
  match d with
  | Decimal.Nil => []
  | Decimal.D0 d => "0"%char :: uint_digits d
  | Decimal.D1 d => "1"%char :: uint_digits d
  | Decimal.D2 d => "2"%char :: uint_digits d
  | Decimal.D3 d => "3"%char :: uint_digits d
  | Decimal.D4 d => "4"%char :: uint_digits d
  | Decimal.D5 d => "5"%char :: uint_digits d
  | Decimal.D6 d => "6"%char :: uint_digits d
  | Decimal.D7 d => "7"%char :: uint_digits d
  | Decimal.D8 d => "8"%char :: uint_digits d
  | Decimal.D9 d => "9"%char :: uint_digits d
  end.

(** [strconv.FormatInt(v, 10)]: the decimal digits of [v], most significant
    first, with a leading minus sign for a negative value. *)
Definition FormatInt (v : Z) : gostring :=
  match v with
  | Z0 => ["0"%char]
  | Zpos p => uint_digits (Pos.to_uint p)
  | Zneg p => "-"%char :: uint_digits (Pos.to_uint p)
  end.

Definition digit_val (c : ascii) : option Z :=
  let n := Z.of_N (N_of_ascii c) in
  if (48 <=? n) && (n <=? 57) then Some (n - 48) else None.

(** The digit loop of the parser: [n = n*10 + digit], a syntax error on any
    other byte. *)
Fixpoint parse_digits (s : gostring) (acc : Z) : option Z :=
  match s with
  | [] => Some acc
  | c :: rest =>
      match digit_val c with
      | Some d => parse_digits rest (acc * 10 + d)
      | None => None
      end
  end.

(** [strconv.Atoi(s)]: an optional sign, then one or more decimal digits;
    [None] stands for a non-nil error (syntax, or a value outside the
    64-bit range). *)
Definition Atoi (s : gostring) : option Z :=
  let '(neg, ds) :=
    match s with
    | c :: rest =>
        if Ascii.eqb c "-"%char then (true, rest)
        else if Ascii.eqb c "+"%char then (false, rest)
        else (false, s)
    | [] => (false, s)
    end in
  match ds with
  | [] => None
  | _ =>
      match parse_digits ds 0 with
      | Some n =>
          let v := if neg then - n else n in
          if Int64.in_rangeb v then Some v else None
      | None => None
      end
  end.

End Strconv.

(** ** Models: the rows of the store *)

(** [type User struct]; [CreatedAt] is a time stamp, [RecoveryCode] a
    nullable string, [Votes] the text of a PostgreSQL integer array. *)
Record User := mkUser {
  User_ID : Z;
  User_CreatedAt : Z;
  User_Name : gostring;
  User_Password : gostring;
  User_Email : gostring;
  User_Votes : gostring;
  User_IsAdmin : bool;
  User_IsActive : bool;
  User_RecoveryCode : option gostring;
  User_IsAuthenticated : bool
}.

(** [type Photo struct]. *)
Record Photo := mkPhoto {
  Photo_ID : Z;
  Photo_OwnerID : Z;
  Photo_CreatedAt : Z;
  Photo_Title : gostring;
  Photo_Filename : gostring;
  Photo_Tags : list gostring;
  Photo_UpVotes : Z;
  Photo_DownVotes : Z
}.

(** [type Tag struct]. *)
Record Tag := mkTag {
  Tag_ID : Z;
  Tag_Name : gostring
}.

(** ** The vote set of a user: a PostgreSQL array kept as text *)

(** The body of the loop of [pgArrToIntSlice]: an item that parses is
    appended, one that does not is skipped. *)
Definition appendParsed (items : list Z) (value : gostring) : list Z :=
  match Strconv.Atoi value with
  | Some item => items ++ [item]
  | None => items
  end.

(** [func pgArrToIntSlice(pgArr string) []int64]. *)
Definition pgArrToIntSlice (pgArr : gostring) : list Z :=
  let s := Strings.TrimRight (Strings.TrimLeft pgArr (str "{")) (str "}") in
  fold_left appendParsed (Strings.Split s ","%char) [].

(** [func intSliceToPgArr(items []int64) string]. *)
Definition intSliceToPgArr (items : list Z) : gostring :=
  str "{" ++ Strings.Join (map Strconv.FormatInt items) (str ",") ++ str "}".

(** [func (user *User) GetVotes() []int64]. *)
Definition GetVotes (user : User) : list Z :=
  pgArrToIntSlice (User_Votes user).

(** [func (user *User) SetVotes(votes []int64)]. *)
Definition SetVotes (user : User) (votes : list Z) : User :=
  mkUser (User_ID user) (User_CreatedAt user) (User_Name user)
    (User_Password user) (User_Email user) (intSliceToPgArr votes)
    (User_IsAdmin user) (User_IsActive user) (User_RecoveryCode user)
    (User_IsAuthenticated user).

(** [func (user *User) RegisterVote(photoID int64)]. *)
Definition RegisterVote (user : User) (photoID : Z) : User :=
  SetVotes user (GetVotes user ++ [photoID]).

(** [func (user *User) HasVoted(photoID int64) bool]: the loop returns at
    the first entry equal to [photoID]. *)
Fixpoint hasVotedLoop (votes : list Z) (photoID : Z) : bool :=
  match votes with
  | [] => false
  | value :: rest => if value =? photoID then true else hasVotedLoop rest photoID
  end.

Definition HasVoted (user : User) (photoID : Z) : bool :=
  hasVotedLoop (GetVotes user) photoID.

(** ** Permissions of a viewer on a photo *)

(** A viewer is a [*User]; [None] is the nil pointer. *)

(** [func (photo *Photo) CanEdit(user *User) bool]. *)
Definition CanEdit (photo : Photo) (user : option User) : bool :=
  match user with
  | None => false
  | Some u =>
      if negb (User_IsAuthenticated u) then false
      else User_IsAdmin u || (Photo_OwnerID photo =? User_ID u)
  end.

(** [func (photo *Photo) CanDelete(user *User) bool]. *)
Definition CanDelete (photo : Photo) (user : option User) : bool :=
  CanEdit photo user.

(** [func (photo *Photo) CanVote(user *User) bool]. *)
Definition CanVote (photo : Photo) (user : option User) : bool :=
  match user with
  | None => false
  | Some u =>
      if negb (User_IsAuthenticated u) then false
      else if Photo_OwnerID photo =? User_ID u then false
      else negb (HasVoted u (Photo_ID photo))
  end.

(** [type Permissions struct]. *)
Record Permissions := mkPermissions {
  Perm_Edit : bool;
  Perm_Delete : bool;
  Perm_Vote : bool
}.

(** [type PhotoDetail struct]: the photo, its owner's name, the viewer's
    permissions. *)
Record PhotoDetail := mkPhotoDetail {
  Detail_Photo : Photo;
  Detail_OwnerName : gostring;
  Detail_Permissions : Permissions
}.

(** The struct literal [&Permissions{photo.CanEdit(user),
    photo.CanDelete(user), photo.CanVote(user)}] of [GetDetail]. *)
Definition permissionsFor (photo : Photo) (user : option User) : Permissions :=
  mkPermissions (CanEdit photo user) (CanDelete photo user) (CanVote photo user).

(** ** The store *)

(** The tables the code reads and writes: [users], [photos], [tags] and the
    association [photo_tags (photo_id, tag_id)]. *)
Record Store := mkStore {
  users : list User;
  photos : list Photo;
  tags : list Tag;
  photo_tags : list (Z * Z)
}.

(** What the store keeps of a struct: the fields tagged [db:"-"] are not
    columns, a row read back has their zero value. *)
Definition userRow (u : User) : User :=
  mkUser (User_ID u) (User_CreatedAt u) (User_Name u) (User_Password u)
    (User_Email u) (User_Votes u) (User_IsAdmin u) (User_IsActive u)
    (User_RecoveryCode u) false.

Definition photoRow (p : Photo) : Photo :=
  mkPhoto (Photo_ID p) (Photo_OwnerID p) (Photo_CreatedAt p) (Photo_Title p)
    (Photo_Filename p) [] (Photo_UpVotes p) (Photo_DownVotes p).

Definition setUsers (st : Store) (us : list User) : Store :=
  mkStore us (photos st) (tags st) (photo_tags st).

Definition setPhotos (st : Store) (ps : list Photo) : Store :=
  mkStore (users st) ps (tags st) (photo_tags st).

Definition setPhotoTags (st : Store) (pts : list (Z * Z)) : Store :=
  mkStore (users st) (photos st) (tags st) pts.

(** [func (mgr *defaultPhotoManager) Get(photoID int64) ( *Photo, error)]:
    the row with that primary key, [None] for the nil photo. *)
Definition PhotoManager_Get (st : Store) (photoID : Z) : option Photo :=
  if photoID =? 0 then None
  else option_map photoRow (find (fun p => Photo_ID p =? photoID) (photos st)).

(** [func (mgr *defaultPhotoManager) Update(photo *Photo) error]:
    [UPDATE photos SET ... WHERE id = photo.ID], every column written. *)
Definition PhotoManager_Update (st : Store) (photo : Photo) : Store :=
  setPhotos st
    (map (fun row => if Photo_ID row =? Photo_ID photo then photoRow photo else row)
       (photos st)).

(** [func (mgr *defaultUserManager) Update(user *User) error]. *)
Definition UserManager_Update (st : Store) (user : User) : Store :=
  setUsers st
    (map (fun row => if User_ID row =? User_ID user then userRow user else row)
       (users st)).

(** [func (mgr *defaultUserManager) GetActive(userID int64) ( *User, error)]:
    [SELECT * FROM users WHERE active=true AND id=userID]. *)
Definition UserManager_GetActive (st : Store) (userID : Z) : option User :=
  option_map userRow
    (find (fun u => User_IsActive u && (User_ID u =? userID)) (users st)).

(** ** Results of store statements *)

(** A Go pair [(value, error)] with a non-nil error collapsed to [Failed]. *)
Inductive Result (A : Type) :=
  | Ok (a : A)
  | Failed.

Arguments Ok {A} a.
Arguments Failed {A}.

(** What gorp's [SelectOne] makes of the rows a query returns: the row,
    [sql.ErrNoRows], or the error for more than one row. *)
Inductive Selected (A : Type) :=
  | OneRow (a : A)
  | ErrNoRows
  | ErrMultipleRows.

Arguments OneRow {A} a.
Arguments ErrNoRows {A}.
Arguments ErrMultipleRows {A}.

Definition SelectOne {A : Type} (rows : list A) : Selected A :=
  match rows with
  | [] => ErrNoRows
  | [row] => OneRow row
  | _ => ErrMultipleRows
  end.

(** [a INNER JOIN b ON on a b]. *)
Definition innerJoin {A B : Type} (on : A -> B -> bool)
  (l : list A) (r : list B) : list (A * B) :=
  flat_map (fun a => map (pair a) (filter (on a) r)) l.

(** [a LEFT JOIN b ON on a b]: a row of [a] without a partner is kept, with
    NULL for the columns of [b]. *)
Definition leftJoin {A B : Type} (on : A -> B -> bool)
  (l : list A) (r : list B) : list (A * option B) :=
  flat_map
    (fun a =>
       match filter (on a) r with
       | [] => [(a, None)]
       | matches => map (fun b => (a, Some b)) matches
       end) l.

(** ** The vote handler *)

(** The zero value [User{}]. *)
Definition anonymousUser : User :=
  mkUser 0 0 [] [] [] [] false false None false.

Definition authenticated (u : User) : User :=
  mkUser (User_ID u) (User_CreatedAt u) (User_Name u) (User_Password u)
    (User_Email u) (User_Votes u) (User_IsAdmin u) (User_IsActive u)
    (User_RecoveryCode u) true.

(** A request as the vote handler reads it: the user the session names, if
    any, and the [id] parameter of the URL. *)
Record Request := mkRequest {
  req_session : option Z;
  req_id : gostring
}.

(** Modelled from the spec: [getCurrentUser], the session collaborator that
    resolves the current user of a request ("resolve current user from a
    request", [currentUser(request) -> (User | absent, error)]).  The user the
    session names is read from the store when the request arrives and marked
    authenticated; without one the handler gets the zero user, which is not
    authenticated. *)
Definition getCurrentUser (st : Store) (r : Request) : User :=
  match req_session r with
  | None => anonymousUser
  | Some uid =>
      match UserManager_GetActive st uid with
      | Some u => authenticated u
      | None => anonymousUser
      end
  end.

(** [func getPhoto(c web.C) ( *Photo, error)]: parse the [id] parameter, a
    parse error gives the nil photo. *)
Definition getPhoto (st : Store) (r : Request) : option Photo :=
  match Strconv.Atoi (req_id r) with
  | None => None
  | Some photoID => PhotoManager_Get st photoID
  end.

Inductive Response :=
  | StatusOK
  | StatusUnauthorized
  | StatusForbidden
  | StatusNotFound.

(** What a handler answers: a status of [Response],
    [http.StatusBadRequest], or the server error of [writeServerError]. *)
Inductive Reply :=
  | Status (resp : Response)
  | StatusBadRequest
  | StatusInternalServerError.

(** The store accesses of one request that return a non-nil error, as the
    store and the connection to it decide: the call of [getCurrentUser], of
    [photoMgr.Get], of [photoMgr.Update], of [userMgr.Update] and of
    [photoMgr.Delete].  A statement that fails changes nothing. *)
Record Faults := mkFaults {
  fault_getCurrentUser : bool;
  fault_Get : bool;
  fault_UpdatePhoto : bool;
  fault_UpdateUser : bool;
  fault_Delete : bool
}.

Definition noFaults : Faults := mkFaults false false false false false.

(** [getPhoto] with the error of [photoMgr.Get], which asks the store only
    for an identifier that parses and is not 0. *)
Definition getPhotoOrError (faults : Faults) (st : Store) (r : Request)
  : Result (option Photo) :=
  match Strconv.Atoi (req_id r) with
  | None => Ok None
  | Some photoID =>
      if photoID =? 0 then Ok None
      else if fault_Get faults then Failed
      else Ok (PhotoManager_Get st photoID)
  end.

Definition setUpVotes (p : Photo) (n : Z) : Photo :=
  mkPhoto (Photo_ID p) (Photo_OwnerID p) (Photo_CreatedAt p) (Photo_Title p)
    (Photo_Filename p) (Photo_Tags p) n (Photo_DownVotes p).

Definition setDownVotes (p : Photo) (n : Z) : Photo :=
  mkPhoto (Photo_ID p) (Photo_OwnerID p) (Photo_CreatedAt p) (Photo_Title p)
    (Photo_Filename p) (Photo_Tags p) (Photo_UpVotes p) n.

(** The closures of [voteUp] and [voteDown]:
    [photo.UpVotes += 1] and [photo.DownVotes += 1]. *)
Definition incUpVotes (p : Photo) : Photo :=
  setUpVotes p (Int64.add (Photo_UpVotes p) 1).

Definition incDownVotes (p : Photo) : Photo :=
  setDownVotes p (Int64.add (Photo_DownVotes p) 1).

(** [func vote(c, w, r, fn func(photo *Photo))], run on its own from the
    first read to the response; every [if err != nil] of the source answers
    with the server error and returns. *)
Definition vote (fn : Photo -> Photo) (faults : Faults) (st : Store)
  (r : Request) : Store * Reply :=
  if fault_getCurrentUser faults then (st, StatusInternalServerError)
  else
    let user := getCurrentUser st r in
    if negb (User_IsAuthenticated user) then (st, Status StatusUnauthorized)
    else
      match getPhotoOrError faults st r with
      | Failed => (st, StatusInternalServerError)
      | Ok None => (st, Status StatusNotFound)
      | Ok (Some photo) =>
          if negb (CanVote photo (Some user)) then (st, Status StatusForbidden)
          else
            let photo := fn photo in
            if fault_UpdatePhoto faults then (st, StatusInternalServerError)
            else
              let st := PhotoManager_Update st photo in
              let user := RegisterVote user (Photo_ID photo) in
              if fault_UpdateUser faults then (st, StatusInternalServerError)
              else
                let st := UserManager_Update st user in
                (st, Status StatusOK)
      end.

(** [func voteUp] and [func voteDown]. *)
Definition voteUp : Faults -> Store -> Request -> Store * Reply :=
  vote incUpVotes.
Definition voteDown : Faults -> Store -> Request -> Store * Reply :=
  vote incDownVotes.

(** *** The handler as a sequence of store accesses

    Between two accesses of the store a handler only computes on its own
    copies of the rows, so a handler is a machine whose every step performs
    one access: read the user, read the photo, write the photo, write the
    user. *)
Inductive Handler :=
  | AtStart
  | HaveUser (user : User)
  | HavePhoto (user : User) (photo : Photo)
  | PhotoSaved (user : User) (photo : Photo)
  | Finished (resp : Reply).

Definition vote_step (fn : Photo -> Photo) (faults : Faults) (r : Request)
  (st : Store) (h : Handler) : Store * Handler :=
  match h with
  | AtStart =>
      if fault_getCurrentUser faults then
        (st, Finished StatusInternalServerError)
      else
        let user := getCurrentUser st r in
        if negb (User_IsAuthenticated user) then
          (st, Finished (Status StatusUnauthorized))
        else (st, HaveUser user)
  | HaveUser user =>
      match getPhotoOrError faults st r with
      | Failed => (st, Finished StatusInternalServerError)
      | Ok None => (st, Finished (Status StatusNotFound))
      | Ok (Some photo) => (st, HavePhoto user photo)
      end
  | HavePhoto user photo =>
      if negb (CanVote photo (Some user)) then
        (st, Finished (Status StatusForbidden))
      else
        let photo := fn photo in
        if fault_UpdatePhoto faults then
          (st, Finished StatusInternalServerError)
        else (PhotoManager_Update st photo, PhotoSaved user photo)
  | PhotoSaved user photo =>
      let user := RegisterVote user (Photo_ID photo) in
      if fault_UpdateUser faults then (st, Finished StatusInternalServerError)
      else (UserManager_Update st user, Finished (Status StatusOK))
  | Finished resp => (st, Finished resp)
  end.

(** Two handlers on one store; the schedule says whose turn each store
    access is ([true]: the first handler). *)
Fixpoint interleave (fnA fnB : Photo -> Photo) (faultsA faultsB : Faults)
  (rA rB : Request) (schedule : list bool) (st : Store) (hA hB : Handler)
  : Store * Handler * Handler :=
  match schedule with
  | [] => (st, hA, hB)
  | true :: rest =>
      let '(st', hA') := vote_step fnA faultsA rA st hA in
      interleave fnA fnB faultsA faultsB rA rB rest st' hA' hB
  | false :: rest =>
      let '(st', hB') := vote_step fnB faultsB rB st hB in
      interleave fnA fnB faultsA faultsB rA rB rest st' hA hB'
  end.

(** The two routes to the handler. *)
Inductive Direction :=
  | Up
  | Down.

Definition closure (d : Direction) : Photo -> Photo :=
  match d with
  | Up => incUpVotes
  | Down => incDownVotes
  end.

Definition handle (d : Direction)
  : Faults -> Store -> Request -> Store * Reply :=
  match d with
  | Up => voteUp
  | Down => voteDown
  end.

(** The counter a route increments, and the other one. *)
Definition counter (d : Direction) (p : Photo) : Z :=
  match d with
  | Up => Photo_UpVotes p
  | Down => Photo_DownVotes p
  end.

Definition otherCounter (d : Direction) (p : Photo) : Z :=
  match d with
  | Up => Photo_DownVotes p
  | Down => Photo_UpVotes p
  end.


(** Requests served one after the other, each to its response before the
    next starts; each comes with the store accesses that fail while it is
    served. *)
Fixpoint serve (reqs : list (Direction * Faults * Request)) (st : Store)
  : Store * list Reply :=
  match reqs with
  | [] => (st, [])
  | (d, faults, r) :: rest =>
      let '(st1, resp) := handle d faults st r in
      let '(st2, resps) := serve rest st1 in
      (st2, resp :: resps)
  end.




(** ** Tags *)

(** The state of the loop of [UpdateTags]: the placeholders [$n] of the
    statement ([args], each by its number), the tag names bound after the
    photo identifier ([params]), and [isEmpty]. *)
Record TagLoop := mkTagLoop {
  tl_args : list Z;
  tl_params : list gostring;
  tl_isEmpty : bool
}.

Definition isEmptyString (s : gostring) : bool :=
  match s with [] => true | _ => false end.

(** [for i, name := range photo.Tags { ... }]. *)
Fixpoint tagLoop (i : Z) (names : list gostring) (acc : TagLoop) : TagLoop :=
  match names with
  | [] => acc
  | name :: rest =>
      let name := Strings.TrimSpace name in
      if negb (isEmptyString name) then
        tagLoop (i + 1) rest
          (mkTagLoop (tl_args acc ++ [i + 2])
             (tl_params acc ++ [Strings.ToLower name]) false)
      else tagLoop (i + 1) rest acc
  end.

Definition tagLoopStart : TagLoop := mkTagLoop [1] [] true.

(** The tag normalizer: the tag names [UpdateTags] binds to its statement,
    in the order it binds them. *)
Definition normalizeTags (names : list gostring) : list gostring :=
  tl_params (tagLoop 0 names tagLoopStart).

Section PhotoManager.

(** The stored function [add_tags] of the schema, called as
    [SELECT add_tags($1, ...)] with the placeholders, the photo identifier
    and the tag names; it is not part of the Go sources. *)
Variable add_tags : Store -> list Z -> Z -> list gostring -> Result Store.

(** [func (mgr *defaultPhotoManager) UpdateTags(photo *Photo) error]. *)
Definition UpdateTags (st : Store) (photo : Photo) : Result Store :=
  let loop := tagLoop 0 (Photo_Tags photo) tagLoopStart in
  if tl_isEmpty loop && negb (Photo_ID photo =? 0) then
    Ok (setPhotoTags st
          (filter (fun pt => negb (fst pt =? Photo_ID photo)) (photo_tags st)))
  else add_tags st (tl_args loop) (Photo_ID photo) (tl_params loop).

End PhotoManager.

(** The tag set of a photo as [GetDetail] reads it:
    [SELECT t.* FROM tags t JOIN photo_tags pt ON pt.tag_id=t.id
     WHERE pt.photo_id=photoID], projected on the name. *)
Definition photoTagNames (st : Store) (photoID : Z) : list gostring :=
  map (fun row => Tag_Name (fst row))
    (filter (fun row : Tag * (Z * Z) => fst (snd row) =? photoID)
       (innerJoin (fun t pt => snd pt =? Tag_ID t) (tags st) (photo_tags st))).

Definition setTags (p : Photo) (names : list gostring) : Photo :=
  mkPhoto (Photo_ID p) (Photo_OwnerID p) (Photo_CreatedAt p) (Photo_Title p)
    (Photo_Filename p) names (Photo_UpVotes p) (Photo_DownVotes p).

(** [func (mgr *defaultPhotoManager) GetDetail(photoID int64, user *User)
    ( *PhotoDetail, error)]; [Ok None] is the nil detail. *)
Definition GetDetail (st : Store) (photoID : Z) (user : option User)
  : Result (option PhotoDetail) :=
  if photoID =? 0 then Ok None
  else
    match SelectOne
            (filter (fun row : Photo * User => Photo_ID (fst row) =? photoID)
               (innerJoin (fun p u => User_ID u =? Photo_OwnerID p)
                  (photos st) (users st)))
    with
    | ErrNoRows => Ok None
    | ErrMultipleRows => Failed
    | OneRow (p, owner) =>
        let p := photoRow p in
        let photo := setTags p (Photo_Tags p ++ photoTagNames st (Photo_ID p)) in
        Ok (Some (mkPhotoDetail photo (User_Name owner)
                    (permissionsFor photo user)))
    end.

(** ** Pagination *)

Definition pageSize : Z := 12.

(** [func getOffset(pageNum int64) int64]. *)
Definition getOffset (pageNum : Z) : Z :=
  let offset := Int64.mul (Int64.sub pageNum 1) pageSize in
  if offset <? 0 then 0 else offset.

(** IEEE 754 binary64, on the specification of floating-point arithmetic of
    the standard library. *)
Module Float64.

Definition prec : Z := 53.
Definition emax : Z := 1024.

(** The conversion [float64(n)] of an integer: the nearest double. *)
Definition of_int (n : Z) : spec_float := binary_normalize prec emax n 0 false.

Definition div (x y : spec_float) : spec_float := SFdiv prec emax x y.

(** The least integer not below a finite double. *)
Definition ceilZ (s : bool) (m : positive) (e : Z) : Z :=
  let n := if s then Zneg m else Zpos m in
  match e with
  | Z0 => n
  | Zpos k => n * 2 ^ e
  | Zneg k => - ((- n) / 2 ^ (- e))
  end.

(** [math.Ceil]: zeros, infinities and NaN are returned as they are. *)
Definition Ceil (x : spec_float) : spec_float :=
  match x with
  | S754_finite s m e => binary_normalize prec emax (ceilZ s m e) 0 s
  | _ => x
  end.

(** The conversion [int64(x)]: the fraction is dropped; a value that does
    not fit (or infinity, or NaN) gives the least 64-bit integer, as the
    conversion instruction of amd64 does. *)
Definition to_int64 (x : spec_float) : Z :=
  match x with
  | S754_zero _ => 0
  | S754_finite s m e =>
      let magnitude :=
        match e with
        | Z0 => Zpos m
        | Zpos _ => Zpos m * 2 ^ e
        | Zneg _ => Zpos m / 2 ^ (- e)
        end in
      let n := if s then - magnitude else magnitude in
      if Int64.in_rangeb n then n else Int64.min_int
  | _ => Int64.min_int
  end.

End Float64.

(** The double 12.0 ([float64(pageSize)]) and the rounding position of a
    quotient by it, from the remainder of [4 * m] by 3. *)
Definition twelve : positive := 6755399441055744%positive.

Definition divLocation (rho : Z) : location :=
  if rho =? 0 then loc_Exact
  else if rho =? 1 then loc_Inexact Lt else loc_Inexact Gt.

(** [type PhotoList struct]. *)
Record PhotoList := mkPhotoList {
  List_Items : list Photo;
  List_Total : Z;
  List_CurrentPage : Z;
  List_NumPages : Z
}.

(** [func NewPhotoList(photos []Photo, total int64, page int64) *PhotoList]:
    [numPages := int64(math.Ceil(float64(total) / float64(pageSize)))]. *)
Definition NewPhotoList (items : list Photo) (total : Z) (page : Z) : PhotoList :=
  let numPages :=
    Float64.to_int64
      (Float64.Ceil
         (Float64.div (Float64.of_int total) (Float64.of_int pageSize))) in
  mkPhotoList items total page numPages.

(** ** Search *)

(** The store's [UPPER]. *)
Definition sqlUpper (s : gostring) : gostring := Strings.ToUpper s.

(** The store's [LIKE]: in the pattern [%] stands for any run of bytes, [_]
    for any one byte, and a backslash makes the byte after it literal. *)
Fixpoint sqlLike (pattern : gostring) : gostring -> bool :=
  match pattern with
  | [] => fun text => isEmptyString text
  | c :: pattern' =>
      if Ascii.eqb c "%"%char then
        fix anyRun (text : gostring) : bool :=
          sqlLike pattern' text ||
          match text with
          | [] => false
          | _ :: text' => anyRun text'
          end
      else if Ascii.eqb c "_"%char then
        fun text =>
          match text with
          | [] => false
          | _ :: text' => sqlLike pattern' text'
          end
      else if Ascii.eqb c "\"%char then
        match pattern' with
        | [] => fun _ => false
        | d :: pattern'' =>
            fun text =>
              match text with
              | [] => false
              | x :: text' => Ascii.eqb x d && sqlLike pattern'' text'
              end
        end
      else
        fun text =>
          match text with
          | [] => false
          | x :: text' => Ascii.eqb x c && sqlLike pattern' text'
          end
  end.

Fixpoint gostrings_eqb (a b : list gostring) : bool :=
  match a, b with
  | [], [] => true
  | x :: a', y :: b' => gostring_eqb x y && gostrings_eqb a' b'
  | _, _ => false
  end.

(** Equality of two rows of [photos]. *)
Definition Photo_eqb (a b : Photo) : bool :=
  (Photo_ID a =? Photo_ID b) && (Photo_OwnerID a =? Photo_OwnerID b) &&
  (Photo_CreatedAt a =? Photo_CreatedAt b) &&
  gostring_eqb (Photo_Title a) (Photo_Title b) &&
  gostring_eqb (Photo_Filename a) (Photo_Filename b) &&
  gostrings_eqb (Photo_Tags a) (Photo_Tags b) &&
  (Photo_UpVotes a =? Photo_UpVotes b) &&
  (Photo_DownVotes a =? Photo_DownVotes b).

Definition memPhoto (p : Photo) (rows : list Photo) : bool :=
  existsb (Photo_eqb p) rows.

(** [SELECT DISTINCT]. *)
Fixpoint distinct (rows : list Photo) : list Photo :=
  match rows with
  | [] => []
  | p :: rest => if memPhoto p rest then distinct rest else p :: distinct rest
  end.

(** [a INTERSECT b]: the distinct rows that are in both. *)
Definition intersect (a b : list Photo) : list Photo :=
  distinct (filter (fun p => memPhoto p b) a).

(** The three statements a word of the query compiles to. *)
Inductive ClauseKind :=
  | OwnerClause
  | TagClause
  | TextClause.

(** A compiled clause: its statement and the number [n] of the placeholder
    [$n] the statement names. *)
Record Clause := mkClause {
  cl_kind : ClauseKind;
  cl_num : Z
}.

(** [for num, word := range strings.Split(q, " ") { ... }]: [num] is the
    index of the word; the loop ends at [break]. *)
Fixpoint searchLoop (num : Z) (words : list gostring)
  (clauses : list Clause) (params : list gostring)
  : list Clause * list gostring :=
  match words with
  | [] => (clauses, params)
  | word :: rest =>
      let word := Strings.TrimSpace word in
      if isEmptyString word || (6 <? num) then (clauses, params)
      else
        let n := num + 1 in
        if Strings.HasPrefix word "@"%char then
          searchLoop (num + 1) rest
            (clauses ++ [mkClause OwnerClause n]) (params ++ [tl word])
        else if Strings.HasPrefix word "#"%char then
          searchLoop (num + 1) rest
            (clauses ++ [mkClause TagClause n]) (params ++ [tl word])
        else
          searchLoop (num + 1) rest
            (clauses ++ [mkClause TextClause n])
            (params ++ [str "%" ++ word ++ str "%"])
  end.

(** What [Search] compiles a query to. *)
Definition compileQuery (q : gostring) : list Clause * list gostring :=
  searchLoop 0 (Strings.Split q " "%char) [] [].

(** [SELECT p.* FROM photos p INNER JOIN users u ON u.id = p.owner_id
     WHERE UPPER(u.name::text) = UPPER($n)]. *)
Definition ownerRows (st : Store) (w : gostring) : list Photo :=
  map (fun row => photoRow (fst row))
    (filter
       (fun row : Photo * User =>
          gostring_eqb (sqlUpper (User_Name (snd row))) (sqlUpper w))
       (innerJoin (fun p u => User_ID u =? Photo_OwnerID p)
          (photos st) (users st))).

(** [SELECT p.* FROM photos p
     INNER JOIN photo_tags pt ON pt.photo_id = p.id
     INNER JOIN tags t ON pt.tag_id=t.id
     WHERE UPPER(t.name::text) = UPPER($n)]. *)
Definition tagRows (st : Store) (w : gostring) : list Photo :=
  map (fun row => photoRow (fst (fst row)))
    (filter
       (fun row : Photo * (Z * Z) * Tag =>
          gostring_eqb (sqlUpper (Tag_Name (snd row))) (sqlUpper w))
       (innerJoin (fun ppt t => snd (snd ppt) =? Tag_ID t)
          (innerJoin (fun p pt => fst pt =? Photo_ID p)
             (photos st) (photo_tags st))
          (tags st))).

(** [SELECT DISTINCT p.* FROM photos p
     INNER JOIN users u ON u.id = p.owner_id
     LEFT JOIN photo_tags pt ON pt.photo_id = p.id
     LEFT JOIN tags t ON pt.tag_id=t.id
     WHERE UPPER(p.title::text) LIKE UPPER($n) OR
           UPPER(u.name::text) LIKE UPPER($n) OR t.name LIKE $n];
    a NULL tag name makes the last disjunct unknown, which selects nothing. *)
Definition textRows (st : Store) (w : gostring) : list Photo :=
  distinct
    (map (fun row => photoRow (fst (fst (fst row))))
       (filter
          (fun row : Photo * User * option (Z * Z) * option Tag =>
             let '(p, u, _, t) := row in
             sqlLike (sqlUpper w) (sqlUpper (Photo_Title p)) ||
             sqlLike (sqlUpper w) (sqlUpper (User_Name u)) ||
             match t with
             | Some t => sqlLike w (Tag_Name t)
             | None => false
             end)
          (leftJoin
             (fun (row : Photo * User * option (Z * Z)) t =>
                match snd row with
                | Some pt => snd pt =? Tag_ID t
                | None => false
                end)
             (leftJoin (fun (pu : Photo * User) pt => fst pt =? Photo_ID (fst pu))
                (innerJoin (fun p u => User_ID u =? Photo_OwnerID p)
                   (photos st) (users st))
                (photo_tags st))
             (tags st)))).

(** The rows of a statement with its parameter. *)
Definition kindRows (st : Store) (k : ClauseKind) (w : gostring) : list Photo :=
  match k with
  | OwnerClause => ownerRows st w
  | TagClause => tagRows st w
  | TextClause => textRows st w
  end.

(** The rows of one clause, its placeholder bound in [params]; a placeholder
    without a parameter is an error of the statement. *)
Definition clauseRows (st : Store) (params : list gostring) (c : Clause)
  : Result (list Photo) :=
  match nth_error params (Z.to_nat (cl_num c - 1)) with
  | None => Failed
  | Some w =>
      Ok (kindRows st (cl_kind c) w)
  end.

Fixpoint allClauseRows (st : Store) (params : list gostring)
  (clauses : list Clause) : Result (list (list Photo)) :=
  match clauses with
  | [] => Ok []
  | c :: rest =>
      match clauseRows st params c, allClauseRows st params rest with
      | Ok rows, Ok others => Ok (rows :: others)
      | _, _ => Failed
      end
  end.

(** [strings.Join(clauses, " INTERSECT ")] as the sub-query of
    [SELECT ... FROM (...) q]: the rows of a single clause as they are, the
    intersection from left to right of several; without any clause the
    statement is [FROM () q], which the store rejects. *)
Definition intersectAll (rows : list (list Photo)) : Result (list Photo) :=
  match rows with
  | [] => Failed
  | first :: rest => Ok (fold_left intersect rest first)
  end.

(** The candidate rows of a compiled query. *)
Definition candidates (st : Store) (clauses : list Clause)
  (params : list gostring) : Result (list Photo) :=
  match allClauseRows st params clauses with
  | Failed => Failed
  | Ok rows => intersectAll rows
  end.

(** *** The words a query compiles, named for the statements below *)

(** The pieces the loop of [Search] reaches: each piece trimmed, up to the
    first one that is empty ([break]). *)
Fixpoint leadingRun (pieces : list gostring) : list gostring :=
  match pieces with
  | [] => []
  | piece :: rest =>
      let word := Strings.TrimSpace piece in
      if isEmptyString word then [] else word :: leadingRun rest
  end.

Definition queryWords (q : gostring) : list gostring :=
  leadingRun (Strings.Split q " "%char).

(** The statement a word compiles to, and the parameter it binds. *)
Definition wordKind (word : gostring) : ClauseKind :=
  if Strings.HasPrefix word "@"%char then OwnerClause
  else if Strings.HasPrefix word "#"%char then TagClause
  else TextClause.

Definition wordParam (word : gostring) : gostring :=
  if Strings.HasPrefix word "@"%char then tl word
  else if Strings.HasPrefix word "#"%char then tl word
  else str "%" ++ word ++ str "%".

(** The clauses of a run of words, the first of them at index [num]. *)
Fixpoint clausesFrom (num : Z) (words : list gostring) : list Clause :=
  match words with
  | [] => []
  | word :: rest =>
      mkClause (wordKind word) (num + 1) :: clausesFrom (num + 1) rest
  end.

(** The words of the query that [Search] compiled into clauses, and the
    candidate rows of one word. *)
Definition survivingWords (q : gostring) : list gostring :=
  firstn (List.length (fst (compileQuery q))) (queryWords q).

Definition wordRows (st : Store) (word : gostring) : list Photo :=
  kindRows st (wordKind word) (wordParam word).

(** [ORDER BY (up_votes - down_votes) DESC, created_at DESC]. *)
Definition ranksBefore (a b : Photo) : bool :=
  let sa := Photo_UpVotes a - Photo_DownVotes a in
  let sb := Photo_UpVotes b - Photo_DownVotes b in
  (sb <? sa) || ((sa =? sb) && (Photo_CreatedAt b <=? Photo_CreatedAt a)).

Fixpoint insertRanked (p : Photo) (rows : list Photo) : list Photo :=
  match rows with
  | [] => [p]
  | q :: rest =>
      if ranksBefore p q then p :: rows else q :: insertRanked p rest
  end.

Definition orderByScore (rows : list Photo) : list Photo :=
  fold_right insertRanked [] rows.

(** [LIMIT limit OFFSET offset]. *)
Definition limitOffset (limit offset : Z) (rows : list Photo) : list Photo :=
  firstn (Z.to_nat limit) (skipn (Z.to_nat offset) rows).

(** [func (mgr *defaultPhotoManager) Search(pageNum int64, q string)
    ( *PhotoList, error)]; [Ok None] is the nil list of the empty query. *)
Definition Search (st : Store) (pageNum : Z) (q : gostring)
  : Result (option PhotoList) :=
  if isEmptyString q then Ok None
  else
    let '(clauses, params) := compileQuery q in
    match candidates st clauses params with
    | Failed => Failed
    | Ok rows =>
        let total := Z.of_nat (List.length rows) in
        let items :=
          limitOffset pageSize (getOffset pageNum) (orderByScore rows) in
        Ok (Some (NewPhotoList items total pageNum))
    end.

(** ** Authentication *)

(** [SELECT * FROM users WHERE active=true AND (email=$2 OR name=$2)]. *)
Definition authRows (st : Store) (identifier : gostring) : list User :=
  filter
    (fun u =>
       User_IsActive u &&
       (gostring_eqb (User_Email u) identifier ||
        gostring_eqb (User_Name u) identifier))
    (users st).

Section UserManager.

(** [bcrypt.CompareHashAndPassword(hash, password) == nil], the password
    collaborator. *)
Variable verifyPassword : gostring -> gostring -> bool.

(** [func (user *User) CheckPassword(password string) bool]. *)
Definition CheckPassword (user : User) (password : gostring) : bool :=
  if isEmptyString (User_Password user) then false
  else verifyPassword (User_Password user) password.

(** [func (mgr *defaultUserManager) Authenticate(identifier, password string)
    ( *User, error)]: the pair returned, [None] for nil. *)
Definition Authenticate (st : Store) (identifier password : gostring)
  : option User * option unit :=
  match SelectOne (authRows st identifier) with
  | ErrNoRows => (None, None)
  | ErrMultipleRows => (None, Some tt)
  | OneRow row =>
      let user := userRow row in
      if negb (CheckPassword user password) then (None, None)
      else (Some user, None)
  end.

End UserManager.

(** ** The specification's formulas, written as the specification words
    them, to be compared with the code above *)

Module Spec.

(** "canEdit = viewer.isAdmin OR viewer.id == photo.ownerId". *)
Definition canEdit (photo : Photo) (viewer : User) : bool :=
  User_IsAdmin viewer || (User_ID viewer =? Photo_OwnerID photo).

(** "canVote = viewer.isAuthenticated AND viewer.id != photo.ownerId AND
    photo.id NOT IN viewer.voteSet". *)
Definition canVote (photo : Photo) (viewer : User) : Prop :=
  User_IsAuthenticated viewer = true /\
  User_ID viewer <> Photo_OwnerID photo /\
  ~ In (Photo_ID photo) (GetVotes viewer).

(** "numPages = ceil(total / pageSize)". *)
Definition numPages (total : Z) : Z := (total + (pageSize - 1)) / pageSize.

(** "offset (pageNumber - 1) * 12 ... clamped to a minimum of 0". *)
Definition offset (pageNumber : Z) : Z := Z.max 0 ((pageNumber - 1) * 12).

(** "whitespace", here the tab, line feed, vertical tab, form feed,
    carriage return and space. *)
Definition isWhitespace (c : ascii) : bool :=
  let n := N_of_ascii c in
  ((9 <=? n) && (n <=? 13))%N || (n =? 32)%N.

(** "Split the query on whitespace; discard empty tokens; cap the number of
    tokens at 6". *)
Fixpoint splitWhitespace (s : gostring) : list gostring :=
  match s with
  | [] => [[]]
  | c :: rest =>
      if isWhitespace c then [] :: splitWhitespace rest
      else match splitWhitespace rest with
           | [] => [[c]]
           | w :: ws => (c :: w) :: ws
           end
  end.

Definition tokens (q : gostring) : list gostring :=
  firstn 6 (filter (fun w => negb (isEmptyString w)) (splitWhitespace q)).

(** "trim whitespace, lowercase, drop empty strings, deduplicate": what the
    last step asks of the result. *)
Definition deduplicated (names : list gostring) : Prop := NoDup names.

(** "case-insensitive substring match". *)
Definition containsFold (text word : gostring) : Prop :=
  exists before after, sqlUpper text = before ++ sqlUpper word ++ after.

(** "exact, case-insensitive match". *)
Definition equalFold (text word : gostring) : Prop :=
  sqlUpper text = sqlUpper word.

End Spec.

(** The owner rows and the tags of a photo row in the store. *)
Definition ownerOf (st : Store) (p : Photo) (u : User) : Prop :=
  In u (users st) /\ User_ID u = Photo_OwnerID p.

Definition tagOf (st : Store) (p : Photo) (t : Tag) : Prop :=
  In t (tags st) /\ In (Photo_ID p, Tag_ID t) (photo_tags st).

(** A word without the bytes [LIKE] reads as operators. *)
Definition plainWord (w : gostring) : Prop :=
  Forall (fun c => c <> "%"%char /\ c <> "_"%char /\ c <> "\"%char) w.

(** ** More of the user manager: lookups and availability *)

(** [SELECT * FROM users WHERE active=true AND recovery_code=$2]; a NULL
    recovery code equals nothing. *)
Definition recoveryRows (st : Store) (code : gostring) : list User :=
  filter
    (fun u =>
       User_IsActive u &&
       match User_RecoveryCode u with
       | Some c => gostring_eqb c code
       | None => false
       end)
    (users st).

(** [func (mgr *defaultUserManager) GetByRecoveryCode(code string)
    ( *User, error)]; [Ok None] is (nil, nil), [Failed] a non-nil error. *)
Definition GetByRecoveryCode (st : Store) (code : gostring)
  : Result (option User) :=
  if isEmptyString code then Ok None
  else
    match SelectOne (recoveryRows st code) with
    | ErrNoRows => Ok None
    | ErrMultipleRows => Failed
    | OneRow row => Ok (Some (userRow row))
    end.

(** [SELECT * FROM users WHERE active=true AND email=$2]. *)
Definition emailRows (st : Store) (email : gostring) : list User :=
  filter (fun u => User_IsActive u && gostring_eqb (User_Email u) email)
    (users st).

(** [func (mgr *defaultUserManager) GetByEmail(email string) ( *User, error)]. *)
Definition GetByEmail (st : Store) (email : gostring) : Result (option User) :=
  match SelectOne (emailRows st email) with
  | ErrNoRows => Ok None
  | ErrMultipleRows => Failed
  | OneRow row => Ok (Some (userRow row))
  end.

(** [SELECT COUNT(id) FROM users WHERE ...]. *)
Definition countUsers (st : Store) (cond : User -> bool) : Z :=
  Z.of_nat (List.length (filter cond (users st))).

(** [func (mgr *defaultUserManager) IsNameAvailable(user *User) (bool, error)]. *)
Definition IsNameAvailable (st : Store) (user : User) : bool :=
  let num :=
    if User_ID user =? 0 then
      countUsers st (fun row => gostring_eqb (User_Name row) (User_Name user))
    else
      countUsers st
        (fun row =>
           gostring_eqb (User_Name row) (User_Name user) &&
           negb (User_ID row =? User_ID user)) in
  num =? 0.

(** [func (mgr *defaultUserManager) IsEmailAvailable(user *User) (bool, error)]. *)
Definition IsEmailAvailable (st : Store) (user : User) : bool :=
  let num :=
    if User_ID user =? 0 then
      countUsers st (fun row => gostring_eqb (User_Email row) (User_Email user))
    else
      countUsers st
        (fun row =>
           gostring_eqb (User_Email row) (User_Email user) &&
           negb (User_ID row =? User_ID user)) in
  num =? 0.

(** ** Recovery codes *)

Definition recoveryCodeLength : nat := 30.

Definition recoveryCodeCharacters : gostring :=
  str "abcdefghijklmnopqrstuvwxyz0123456789".

Definition setRecoveryCode (u : User) (code : option gostring) : User :=
  mkUser (User_ID u) (User_CreatedAt u) (User_Name u) (User_Password u)
    (User_Email u) (User_Votes u) (User_IsAdmin u) (User_IsActive u)
    code (User_IsAuthenticated u).

(** The loop of [GenerateRecoveryCode]: for [i] from 0 to
    [recoveryCodeLength - 1], the character at index
    [int(randbytes[i]) % numChars] of the alphabet. *)
Definition recoveryCodeOf (randbytes : list ascii) : gostring :=
  map
    (fun i =>
       let index :=
         (nat_of_ascii (nth i randbytes zero)
          mod List.length recoveryCodeCharacters)%nat in
       nth index recoveryCodeCharacters zero)
    (seq 0 recoveryCodeLength).

(** [func (user *User) GenerateRecoveryCode() (string, error)]; [read] is
    what [rand.Read] did: the [recoveryCodeLength] bytes it wrote, or
    [None] for its error.  The user after the call, and the code. *)
Definition GenerateRecoveryCode (user : User) (read : option (list ascii))
  : User * Result gostring :=
  match read with
  | None => (user, Failed)
  | Some randbytes =>
      let code := recoveryCodeOf randbytes in
      (setRecoveryCode user (Some code), Ok code)
  end.

(** [func (user *User) ResetRecoveryCode()]. *)
Definition ResetRecoveryCode (user : User) : User :=
  setRecoveryCode user None.

(** ** Passwords *)

Definition setPassword (u : User) (password : gostring) : User :=
  mkUser (User_ID u) (User_CreatedAt u) (User_Name u) password
    (User_Email u) (User_Votes u) (User_IsAdmin u) (User_IsActive u)
    (User_RecoveryCode u) (User_IsAuthenticated u).

Section Passwords.

(** [bcrypt.GenerateFromPassword(password, bcrypt.DefaultCost)]; [None] is
    a non-nil error. *)
Variable hashPassword : gostring -> option gostring.

(** [func (user *User) EncryptPassword() error]: the user, and whether an
    error is returned. *)
Definition EncryptPassword (user : User) : User * bool :=
  match hashPassword (User_Password user) with
  | None => (user, true)
  | Some hashed => (setPassword user hashed, false)
  end.

(** [func (user *User) ChangePassword(password string) error]. *)
Definition ChangePassword (user : User) (password : gostring) : User * bool :=
  EncryptPassword (setPassword user password).

(** [func (user *User) PreInsert(s gorp.SqlExecutor) error], at time [now]:
    the result of [EncryptPassword] is dropped and nil is returned. *)
Definition User_PreInsert (user : User) (now : Z) : User :=
  let user :=
    mkUser (User_ID user) now (User_Name user) (User_Password user)
      (User_Email user) (User_Votes user) (User_IsAdmin user) true
      (User_RecoveryCode user) (User_IsAuthenticated user) in
  let user := fst (EncryptPassword user) in
  mkUser (User_ID user) (User_CreatedAt user) (User_Name user)
    (User_Password user) (User_Email user) (str "{}") (User_IsAdmin user)
    (User_IsActive user) (User_RecoveryCode user) (User_IsAuthenticated user).

End Passwords.

(** ** Paging of requests and listings *)

(** [func getPage(r *http.Request) int64], on the value of the form field
    [page] (the empty string when the field is missing). *)
Definition getPage (page : gostring) : Z :=
  match Strconv.Atoi page with
  | Some p => p
  | None => 1
  end.

(** Insertion into a list that is in the order [before], after the rows
    that may stand before the new one. *)
Fixpoint insertBy (before : Photo -> Photo -> bool) (p : Photo)
  (rows : list Photo) : list Photo :=
  match rows with
  | [] => [p]
  | q :: rest =>
      if before p q then p :: rows else q :: insertBy before p rest
  end.

Definition sortBy (before : Photo -> Photo -> bool) (rows : list Photo)
  : list Photo :=
  fold_right (insertBy before) [] rows.

(** [ORDER BY (up_votes - down_votes) DESC] and [ORDER BY created_at DESC]. *)
Definition votesBefore (a b : Photo) : bool :=
  Photo_UpVotes b - Photo_DownVotes b <=? Photo_UpVotes a - Photo_DownVotes a.

Definition createdBefore (a b : Photo) : bool :=
  Photo_CreatedAt b <=? Photo_CreatedAt a.

(** [func (mgr *defaultPhotoManager) All(pageNum int64, orderBy string)
    ( *PhotoList, error)]. *)
Definition All (st : Store) (pageNum : Z) (orderBy : gostring) : PhotoList :=
  let before :=
    if gostring_eqb orderBy (str "votes") then votesBefore
    else createdBefore in
  let total := Z.of_nat (List.length (photos st)) in
  let rows := sortBy before (map photoRow (photos st)) in
  NewPhotoList (limitOffset pageSize (getOffset pageNum) rows) total pageNum.

(** ** The handlers that delete or change a photo *)

(** The struct literal [&Message{user.Name, "", photo.ID, kind}] handed to
    [sendMessage]: its four fields in order. *)
Definition Message : Type := gostring * gostring * Z * gostring.

(** What a handler leaves behind: the store, the status written, the
    messages sent and the files handed to the photo cleaner. *)
Record Outcome := mkOutcome {
  out_store : Store;
  out_status : Reply;
  out_messages : list Message;
  out_cleaned : list gostring
}.

Section Delete.

(** What the schema leaves of [photo_tags] when the row of a photo is
    deleted (a cascade, or nothing); the schema is not part of the Go
    sources. *)
Variable photoTagsAfterDelete : list (Z * Z) -> Z -> list (Z * Z).



End Delete.

(** [func getPhotoToEdit(c, w, r) ( *Photo, bool)]: the photo, the flag,
    and the status written when the flag is false. *)
Definition getPhotoToEdit (st : Store) (r : Request)
  : option Photo * bool * option Response :=
  let user := getCurrentUser st r in
  if negb (User_IsAuthenticated user) then
    (None, false, Some StatusUnauthorized)
  else
    match getPhoto st r with
    | None => (None, false, Some StatusNotFound)
    | Some photo =>
        if negb (CanEdit photo (Some user)) then
          (Some photo, false, Some StatusForbidden)
        else (Some photo, true, None)
    end.

Definition setTitle (p : Photo) (title : gostring) : Photo :=
  mkPhoto (Photo_ID p) (Photo_OwnerID p) (Photo_CreatedAt p) title
    (Photo_Filename p) (Photo_Tags p) (Photo_UpVotes p) (Photo_DownVotes p).

(** The status a handler answers when [getPhotoToEdit] says no. *)
Definition refused (st : Store) (status : option Response) : Outcome :=
  match status with
  | Some resp => mkOutcome st (Status resp) [] []
  | None => mkOutcome st (Status StatusOK) [] []
  end.

Section Edit.

Variable add_tags : Store -> list Z -> Z -> list gostring -> Result Store.

(** The photo validator of [getPhotoValidator(photo).Validate()]:
    [None] for an error, otherwise [result.OK]. *)
Variable validate : Store -> Photo -> option bool.

(** [func editPhotoTitle(c, w, r)]; [body] is what [parseJSON] reads of
    the request into the field [title], [None] when it fails.  The handler
    reads the store, up to the validation of the new title, and then writes
    it: [titleToWrite] is the first part, with the photo to write or the
    answer that ends the request, [writeTitle] the second. *)
Definition titleToWrite (st : Store) (r : Request) (body : option gostring)
  : Photo + Outcome :=
  match getPhotoToEdit st r with
  | (Some photo, true, _) =>
      match body with
      | None => inr (mkOutcome st StatusBadRequest [] [])
      | Some title =>
          let photo := setTitle photo title in
          match validate st photo with
          | None => inr (mkOutcome st StatusInternalServerError [] [])
          | Some false => inr (mkOutcome st StatusBadRequest [] [])
          | Some true => inl photo
          end
      end
  | (_, _, status) => inr (refused st status)
  end.

Definition writeTitle (st : Store) (r : Request) (photo : Photo) : Outcome :=
  let st := PhotoManager_Update st photo in
  let user := getCurrentUser st r in
  mkOutcome st (Status StatusOK)
    [(User_Name user, [], Photo_ID photo, str "photo_updated")] [].

Definition editPhotoTitle (st : Store) (r : Request) (body : option gostring)
  : Outcome :=
  match titleToWrite st r body with
  | inl photo => writeTitle st r photo
  | inr out => out
  end.

(** [func editPhotoTags(c, w, r)]; [body] is what [parseJSON] reads of the
    request into the field [tags], [None] when it fails. *)
Definition editPhotoTags (st : Store) (r : Request)
  (body : option (list gostring)) : Outcome :=
  match getPhotoToEdit st r with
  | (Some photo, true, _) =>
      match body with
      | None => mkOutcome st StatusBadRequest [] []
      | Some names =>
          let photo := setTags photo names in
          match UpdateTags add_tags st photo with
          | Failed => mkOutcome st StatusInternalServerError [] []
          | Ok st =>
              let user := getCurrentUser st r in
              mkOutcome st (Status StatusOK)
                [(User_Name user, [], Photo_ID photo, str "photo_updated")]
                []
          end
      end
  | (_, _, status) => refused st status
  end.

End Edit.

(** ** Uploading a photo *)

Definition allowedContentTypes : list gostring :=
  [str "image/png"; str "image/jpeg"].

(** [func isAllowedContentType(contentType string) bool]. *)
Definition isAllowedContentType (contentType : gostring) : bool :=
  existsb (gostring_eqb contentType) allowedContentTypes.

(** What [r.FormFile("photo")] returns: [http.ErrMissingFile] or
    [http.ErrNotMultipart], another error, or the file with the values of
    the header [Content-Type] of its part. *)
Inductive FormFile :=
  | NoFile
  | FileError
  | Posted (contentTypes : list gostring) (content : gostring).

(** The request as [upload] reads it: the user of the session and the form
    fields [title], [taglist] and [photo]. *)
Record UploadRequest := mkUploadRequest {
  up_session : option Z;
  up_title : gostring;
  up_taglist : gostring;
  up_photo : FormFile
}.

(** What [upload] leaves behind: the store, the status written (or the
    panic of the handler), the photo written as the body, the messages sent
    and the images handed to the image processor, each with its content
    type. *)
Inductive UploadStatus :=
  | Written (reply : Reply)
  | Panicked.

Record Uploaded := mkUploaded {
  upd_store : Store;
  upd_status : UploadStatus;
  upd_body : option Photo;
  upd_messages : list Message;
  upd_processed : list (gostring * gostring)
}.

Definition setCreatedAt (p : Photo) (createdAt : Z) : Photo :=
  mkPhoto (Photo_ID p) (Photo_OwnerID p) createdAt (Photo_Title p)
    (Photo_Filename p) (Photo_Tags p) (Photo_UpVotes p) (Photo_DownVotes p).

Definition setID (p : Photo) (id : Z) : Photo :=
  mkPhoto id (Photo_OwnerID p) (Photo_CreatedAt p) (Photo_Title p)
    (Photo_Filename p) (Photo_Tags p) (Photo_UpVotes p) (Photo_DownVotes p).

(** [func (photo *Photo) PreInsert(s gorp.SqlExecutor) error], at time
    [now]. *)
Definition Photo_PreInsert (photo : Photo) (now : Z) : Photo :=
  setCreatedAt photo now.

Section Upload.

Variable add_tags : Store -> list Z -> Z -> list gostring -> Result Store.

Variable validate : Store -> Photo -> option bool.

(** [imageProcessor.Process(src, contentType)]: the name of the file the
    image is stored under. *)
Variable process : gostring -> gostring -> Result gostring.

(** [func (mgr *defaultPhotoManager) Insert(photo *Photo) error]: the
    transaction that [dbMap.Begin()] opens carries no statement; the row is
    inserted through [dbMap], with the hook [PreInsert] run at time [now]
    and the key [newID] that the store assigns written to the struct, and
    the tags are updated through [dbMap] as well.  The store, the photo and
    whether an error is returned. *)
Definition PhotoManager_Insert (st : Store) (photo : Photo) (now newID : Z)
  : Store * Photo * bool :=
  let photo := setID (Photo_PreInsert photo now) newID in
  let st := setPhotos st (photos st ++ [photoRow photo]) in
  match UpdateTags add_tags st photo with
  | Failed => (st, photo, true)
  | Ok st => (st, photo, false)
  end.

(** [func upload(c web.C, w http.ResponseWriter, r *http.Request)]. *)
Definition upload (st : Store) (r : UploadRequest) (now newID : Z)
  : Uploaded :=
  let user := getCurrentUser st (mkRequest (up_session r) []) in
  if negb (User_IsAuthenticated user) then
    mkUploaded st (Written (Status StatusUnauthorized)) None [] []
  else
    let title := up_title r in
    let taglist := up_taglist r in
    let tags := Strings.Split taglist " "%char in
    match up_photo r with
    | NoFile => mkUploaded st (Written StatusBadRequest) None [] []
    | FileError => mkUploaded st (Written StatusInternalServerError) None [] []
    | Posted [] _ => mkUploaded st Panicked None [] []
    | Posted (contentType :: _) content =>
        if negb (isAllowedContentType contentType) then
          mkUploaded st (Written StatusBadRequest) None [] []
        else
          let processed := [(content, contentType)] in
          match process content contentType with
          | Failed =>
              mkUploaded st (Written StatusInternalServerError) None []
                processed
          | Ok filename =>
              let photo :=
                mkPhoto 0 (User_ID user) 0 title filename tags 0 0 in
              match validate st photo with
              | None =>
                  mkUploaded st (Written StatusInternalServerError) None []
                    processed
              | Some false =>
                  mkUploaded st (Written StatusBadRequest) None [] processed
              | Some true =>
                  let '(st, photo, failed) :=
                    PhotoManager_Insert st photo now newID in
                  if failed then
                    mkUploaded st (Written StatusInternalServerError) None []
                      processed
                  else
                    mkUploaded st (Written (Status StatusOK)) (Some photo)
                      [(User_Name user, [], Photo_ID photo,
                        str "photo_uploaded")]
                      processed
              end
          end
    end.

End Upload.

(** ** The placeholders of the tag statement *)

(** A tag name that [UpdateTags] binds: not empty once trimmed. *)
Definition usableTag (name : gostring) : bool :=
  negb (isEmptyString (Strings.TrimSpace name)).

(** The numbers of the placeholders that the loop of [UpdateTags] appends
    for the names from index [i] on. *)
Fixpoint placeholdersFrom (i : Z) (names : list gostring) : list Z :=
  match names with
  | [] => []
  | name :: rest =>
      if usableTag name then i + 2 :: placeholdersFrom (i + 1) rest
      else placeholdersFrom (i + 1) rest
  end.

(** No blank name stands before a usable one. *)
Definition usableFirst (names : list gostring) : Prop :=
  forall before name after,
    names = before ++ name :: after -> usableTag name = true ->
    Forall (fun b => usableTag b = true) before.

(** ** Sample rows *)

Definition alice : User :=
  mkUser 1 0 (str "alice") (str "h1") (str "alice@example.org")
    (str "{}") false true None false.

Definition bob : User :=
  mkUser 5 0 (str "bob") (str "h2") (str "bob@example.org")
    (str "{10}") false true None false.

Definition carol : User :=
  mkUser 7 0 (str "carol") (str "h3") (str "carol@example.org")
    (str "{}") true true None false.

Definition dave : User :=
  mkUser 8 0 (str "dave") (str "h4") (str "dave@example.org")
    (str "{}") false false (Some (str "oldcode")) false.

Definition mallory : User :=
  mkUser 9 0 (str "bob@example.org") (str "h5") (str "mallory@example.org")
    (str "{}") false true None false.

Definition sunset : Photo :=
  mkPhoto 9 1 100 (str "Sunset") (str "f.jpg") [] 4 1.

Definition catPic : Photo :=
  mkPhoto 10 5 101 (str "Cat pic") (str "g.jpg") [] 3 0.

Definition harbour : Photo :=
  mkPhoto 11 1 102 (str "Harbour") (str "h.jpg") [] 0 2.

Definition sampleStore : Store :=
  mkStore [alice; bob; carol; dave] [sunset; catPic; harbour]
    [mkTag 1 (str "cats"); mkTag 2 (str "sky")]
    [(9, 2); (10, 1); (9, 1)].

Definition sampleBytes : list ascii := map ascii_of_nat (seq 0 30).

(** ** Predicates and tactics of the proofs *)

(** A byte that [FormatInt] can produce: a decimal digit or the sign. *)
Definition numeric (c : ascii) : Prop :=
  Strconv.digit_val c <> None \/ c = "-"%char.

(** What a string starts with, by what is decoded from it. *)
Inductive Decoded : gostring -> Z -> nat -> Prop :=
  | Decoded_empty : Decoded [] Utf8.RuneError 0
  | Decoded_invalid c0 rest :
      128 <= Utf8.byte c0 -> Decoded (c0 :: rest) Utf8.RuneError 1
  | Decoded_1 c0 rest :
      Utf8.byte c0 < 128 -> Decoded (c0 :: rest) (Utf8.byte c0) 1
  | Decoded_2 c0 c1 rest :
      194 <= Utf8.byte c0 <= 223 -> 128 <= Utf8.byte c1 <= 191 ->
      Decoded (c0 :: c1 :: rest)
        ((Utf8.byte c0 - 192) * 64 + (Utf8.byte c1 - 128)) 2
  | Decoded_3 c0 c1 c2 rest :
      224 <= Utf8.byte c0 <= 239 ->
      (if Utf8.byte c0 =? 224 then 160 else 128) <= Utf8.byte c1
      <= (if Utf8.byte c0 =? 237 then 159 else 191) ->
      128 <= Utf8.byte c2 <= 191 ->
      Decoded (c0 :: c1 :: c2 :: rest)
        (((Utf8.byte c0 - 224) * 64 + (Utf8.byte c1 - 128)) * 64 + (Utf8.byte c2 - 128)) 3
  | Decoded_4 c0 c1 c2 c3 rest :
      240 <= Utf8.byte c0 <= 244 ->
      (if Utf8.byte c0 =? 240 then 144 else 128) <= Utf8.byte c1
      <= (if Utf8.byte c0 =? 244 then 143 else 191) ->
      128 <= Utf8.byte c2 <= 191 -> 128 <= Utf8.byte c3 <= 191 ->
      Decoded (c0 :: c1 :: c2 :: c3 :: rest)
        ((((Utf8.byte c0 - 240) * 64 + (Utf8.byte c1 - 128)) * 64 + (Utf8.byte c2 - 128))
         * 64 + (Utf8.byte c3 - 128)) 4.

(** What the properties of the code ask of a code point of the table of
    lower cases and of its lower case. *)
Definition lowerChecked (k v : Z) : bool :=
  Utf8.ValidRune v && (Unicode.ToLower v =? v)
  && negb (Unicode.IsSpace k) && negb (Unicode.IsSpace v).

(** A string made of the encodings of valid runes that are their own
    lower case. *)
Inductive Lowered : gostring -> Prop :=
  | Lowered_nil : Lowered []
  | Lowered_cons r s :
      Utf8.ValidRune r = true -> Unicode.ToLower r = r -> Lowered s ->
      Lowered (Utf8.EncodeRune r ++ s).

(** A trimmed string is empty, or starts and ends with a rune that is not
    white space. *)
Definition trimmed (s : gostring) : Prop :=
  s = [] \/
  (Unicode.IsSpace (fst (Utf8.DecodeRuneInString s)) = false /\
   Unicode.IsSpace (fst (Utf8.DecodeLastRuneInString s)) = false).

(** A tag name the normalizer leaves as it is. *)
Definition normalName (x : gostring) : Prop :=
  Strings.TrimSpace x = x /\ Strings.ToLower x = x /\ x <> [].

(** Decides the condition at the head of the goal from the hypotheses on
    the byte values and takes its branch. *)
Ltac cond_true :=
  unfold Utf8.continues, Utf8.between;
  rewrite ?andb_true_iff, ?Z.leb_le, ?Z.ltb_lt, ?Z.eqb_eq; lia.

Ltac cond_false :=
  apply not_true_iff_false;
  unfold Utf8.continues, Utf8.between;
  rewrite ?andb_true_iff, ?Z.leb_le, ?Z.ltb_lt, ?Z.eqb_eq; lia.

Ltac take_branch :=
  match goal with
  | |- context [if ?c then _ else _] =>
      first [ replace c with true by (symmetry; cond_true)
            | replace c with false by (symmetry; cond_false) ];
      cbv iota
  end.

Ltac split_eqb :=
  repeat match goal with
    | |- context [?a =? ?b] => destruct (Z.eqb_spec a b); try lia
    end.

(** Boolean conditions on bytes among the hypotheses as inequalities. *)
Ltac byte_props :=
  unfold Utf8.continues, Utf8.between in *;
  repeat match goal with
    | H : _ && _ = true |- _ => apply andb_true_iff in H; destruct H
    | H : (_ <=? _) = true |- _ => apply Z.leb_le in H
    | H : (_ <=? _) = false |- _ => apply Z.leb_gt in H
    | H : (_ <? _) = true |- _ => apply Z.ltb_lt in H
    | H : (_ <? _) = false |- _ => apply Z.ltb_ge in H
    end.

(** Refutes that a literal text contains a literal word: every position of
    the word in the text is tried. *)
Ltac refute_infix :=
  let b := fresh "before" in
  let a := fresh "after" in
  let H := fresh "H" in
  intros (b & a & H); cbn in H;
  repeat (destruct b as [|? b]; cbn in H; [congruence|injection H as _ H]);
  destruct b; cbn in H; congruence.

(* ------------------------------------------------------------------ *)
(** * Properties *)

Example pgArr_empty : pgArrToIntSlice (str "{}") = [].
Proof. reflexivity. Qed.

Example pgArr_three : pgArrToIntSlice (str "{1,-22,333}") = [1; -22; 333].
Proof. reflexivity. Qed.

Example pgArr_back : intSliceToPgArr [1; -22; 333] = str "{1,-22,333}".
Proof. reflexivity. Qed.

(** ** Byte-level facts about the string functions *)

Section StringFacts.

Import Strings.

Lemma TrimLeft_stop (c : ascii) (s cutset : gostring) :
  inCutset c cutset = false -> TrimLeft (c :: s) cutset = c :: s.
Proof. intros H. simpl. now rewrite H. Qed.

Lemma TrimLeft_clean (s cutset : gostring) :
  Forall (fun c => inCutset c cutset = false) s -> TrimLeft s cutset = s.
Proof.
  intros H. destruct H as [|c s Hc _]; [reflexivity|].
  now apply TrimLeft_stop.
Qed.

Lemma TrimRight_clean (s cutset : gostring) :
  Forall (fun c => inCutset c cutset = false) s -> TrimRight s cutset = s.
Proof.
  intros H. unfold TrimRight.
  rewrite TrimLeft_clean by now apply Forall_rev.
  apply rev_involutive.
Qed.

Lemma TrimRight_snoc (s cutset : gostring) (c : ascii) :
  inCutset c cutset = true ->
  TrimRight (s ++ [c]) cutset = TrimRight s cutset.
Proof.
  intros H. unfold TrimRight. rewrite rev_app_distr. simpl. now rewrite H.
Qed.

Lemma Split_nonempty (s : gostring) (sep : ascii) : Split s sep <> [].
Proof.
  induction s as [|c s IH]; simpl; [discriminate|].
  destruct (Ascii.eqb c sep); [discriminate|].
  destruct (Split s sep); discriminate.
Qed.

Lemma Split_clean (w : gostring) (sep : ascii) :
  Forall (fun c => c <> sep) w -> Split w sep = [w].
Proof.
  induction 1 as [|c w Hc _ IH]; simpl; [reflexivity|].
  apply Ascii.eqb_neq in Hc. now rewrite Hc, IH.
Qed.

Lemma Split_app_sep (w rest : gostring) (sep : ascii) :
  Forall (fun c => c <> sep) w ->
  Split (w ++ sep :: rest) sep = w :: Split rest sep.
Proof.
  induction 1 as [|c w Hc _ IH]; simpl.
  - now rewrite Ascii.eqb_refl.
  - apply Ascii.eqb_neq in Hc. now rewrite Hc, IH.
Qed.

(** Splitting undoes joining, as long as no piece holds the separator and
    there is at least one piece. *)
Lemma Split_Join (ws : list gostring) (sep : ascii) :
  ws <> [] ->
  Forall (Forall (fun c => c <> sep)) ws ->
  Split (Join ws [sep]) sep = ws.
Proof.
  intros Hne H. induction H as [|w ws Hw Hws IH]; [now elim Hne|].
  destruct ws as [|w' ws'].
  - simpl. now apply Split_clean.
  - change (Join (w :: w' :: ws') [sep])
      with (w ++ sep :: Join (w' :: ws') [sep]).
    rewrite Split_app_sep by assumption.
    f_equal. apply IH. discriminate.
Qed.

Lemma Join_Forall (P : ascii -> Prop) (ws : list gostring) (sep : gostring) :
  Forall (Forall P) ws -> Forall P sep -> Forall P (Join ws sep).
Proof.
  intros H Hsep. induction H as [|w ws Hw Hws IH]; [constructor|].
  destruct ws as [|w' ws']; [exact Hw|].
  change (Join (w :: w' :: ws') sep) with (w ++ sep ++ Join (w' :: ws') sep).
  rewrite !Forall_app. auto.
Qed.

End StringFacts.

(** ** Decimal conversion: parsing undoes printing *)

Section StrconvFacts.

Import Strconv.

Lemma uint_digits_numeric (d : Decimal.uint) :
  Forall (fun c => digit_val c <> None) (uint_digits d).
Proof. induction d; simpl; constructor; trivial; discriminate. Qed.

Lemma FormatInt_numeric (v : Z) : Forall numeric (FormatInt v).
Proof.
  assert (Hd : forall d, Forall numeric (uint_digits d)).
  { intros d. eapply Forall_impl; [|apply uint_digits_numeric].
    intros c Hc. now left. }
  destruct v as [|p|p]; simpl.
  - constructor; [left; discriminate|constructor].
  - apply Hd.
  - constructor; [now right|apply Hd].
Qed.

Lemma numeric_not_comma (c : ascii) : numeric c -> c <> ","%char.
Proof.
  intros [H|H] E; subst; [apply H; reflexivity|discriminate].
Qed.

Lemma numeric_not_brace (c : ascii) (cutset : gostring) :
  cutset = str "{" \/ cutset = str "}" ->
  numeric c \/ c = ","%char -> Strings.inCutset c cutset = false.
Proof.
  intros Hcut Hc.
  assert (Hl : c <> "{"%char /\ c <> "}"%char).
  { destruct Hc as [[H|H]|H]; split; intros E; subst;
      solve [apply H; reflexivity | discriminate]. }
  destruct Hl as [Hl Hr].
  apply Ascii.eqb_neq in Hl, Hr.
  destruct Hcut as [-> | ->]; simpl; [rewrite Hl | rewrite Hr]; reflexivity.
Qed.

Lemma parse_uint_digits_pos (d : Decimal.uint) (p : positive) :
  parse_digits (uint_digits d) (Zpos p) = Some (Zpos (Pos.of_uint_acc d p)).
Proof.
  revert p.
  induction d; intros p;
    cbn [uint_digits Pos.of_uint_acc parse_digits]; [reflexivity|..];
    match goal with
    | |- context [digit_val ?c] =>
        let v := eval vm_compute in (digit_val c) in
        change (digit_val c) with v
    end;
    cbv iota beta; rewrite <- IHd; f_equal; lia.
Qed.

Lemma parse_uint_digits (d : Decimal.uint) :
  parse_digits (uint_digits d) 0 = Some (Z.of_N (Pos.of_uint d)).
Proof.
  induction d; cbn [uint_digits Pos.of_uint parse_digits];
    [reflexivity|exact IHd|..];
    match goal with
    | |- context [digit_val ?c] =>
        let v := eval vm_compute in (digit_val c) in
        change (digit_val c) with v
    end;
    cbv iota beta; apply parse_uint_digits_pos.
Qed.

Lemma parse_to_uint (p : positive) :
  parse_digits (uint_digits (Pos.to_uint p)) 0 = Some (Zpos p).
Proof.
  rewrite parse_uint_digits, DecimalPos.Unsigned.of_to. reflexivity.
Qed.

Lemma uint_digits_head (d : Decimal.uint) :
  d <> Decimal.Nil ->
  exists c rest, uint_digits d = c :: rest /\
    Ascii.eqb c "-"%char = false /\ Ascii.eqb c "+"%char = false.
Proof.
  destruct d; [congruence|..]; intros _; simpl; eauto.
Qed.

Lemma in_rangeb_spec (z : Z) :
  Int64.in_rangeb z = true <-> Int64.in_range z.
Proof.
  unfold Int64.in_rangeb, Int64.in_range.
  rewrite andb_true_iff, !Z.leb_le. tauto.
Qed.

(** [Atoi] reads back what [FormatInt] printed, for every 64-bit value. *)
Lemma Atoi_FormatInt (v : Z) :
  Int64.in_range v -> Atoi (FormatInt v) = Some v.
Proof.
  intros Hv. apply in_rangeb_spec in Hv.
  destruct v as [|p|p].
  - reflexivity.
  - simpl FormatInt.
    destruct (uint_digits_head (Pos.to_uint p)) as (c & rest & E & Hm & Hp).
    { apply DecimalPos.Unsigned.to_uint_nonnil. }
    pose proof (parse_to_uint p) as Hparse.
    unfold Atoi. rewrite E in *. rewrite Hm, Hp, Hparse. now rewrite Hv.
  - simpl FormatInt.
    destruct (uint_digits_head (Pos.to_uint p)) as (c & rest & E & _).
    { apply DecimalPos.Unsigned.to_uint_nonnil. }
    pose proof (parse_to_uint p) as Hparse.
    unfold Atoi. rewrite Ascii.eqb_refl. rewrite E in *. rewrite Hparse.
    change (- Zpos p) with (Zneg p). now rewrite Hv.
Qed.

(** Whatever [Atoi] accepts is a 64-bit value. *)
Lemma Atoi_in_range (s : gostring) (v : Z) :
  Atoi s = Some v -> Int64.in_range v.
Proof.
  unfold Atoi.
  destruct (match s with
            | [] => (false, s)
            | c :: rest =>
                if Ascii.eqb c "-"%char then (true, rest)
                else if Ascii.eqb c "+"%char then (false, rest)
                else (false, s)
            end) as [neg ds].
  destruct ds as [|c ds]; [discriminate|].
  destruct (parse_digits (c :: ds) 0) as [n|]; [|discriminate].
  destruct (Int64.in_rangeb (if neg then - n else n)) eqn:E; [|discriminate].
  intros [= <-]. now apply in_rangeb_spec.
Qed.

End StrconvFacts.

(** ** The vote set: decoding undoes encoding *)

Section VoteSet.

Lemma appendParsed_FormatInt (v acc : list Z) :
  Forall Int64.in_range v ->
  fold_left appendParsed (map Strconv.FormatInt v) acc = acc ++ v.
Proof.
  intros H. revert acc.
  induction H as [|x v Hx _ IH]; intros acc; simpl.
  - now rewrite app_nil_r.
  - unfold appendParsed at 2. rewrite (Atoi_FormatInt x Hx), IH, <- app_assoc.
    reflexivity.
Qed.

Lemma appendParsed_in_range (ws : list gostring) (acc : list Z) :
  Forall Int64.in_range acc ->
  Forall Int64.in_range (fold_left appendParsed ws acc).
Proof.
  revert acc. induction ws as [|w ws IH]; intros acc Hacc; simpl; [exact Hacc|].
  apply IH. unfold appendParsed.
  destruct (Strconv.Atoi w) as [item|] eqn:E; [|exact Hacc].
  apply Forall_app. split; [exact Hacc|].
  constructor; [|constructor]. now apply Atoi_in_range with w.
Qed.

(** Every entry decoded from the stored text is a 64-bit value. *)
Lemma pgArrToIntSlice_in_range (pgArr : gostring) :
  Forall Int64.in_range (pgArrToIntSlice pgArr).
Proof. apply appendParsed_in_range. constructor. Qed.

Lemma pgArr_body_clean (v : list Z) (cutset : gostring) :
  cutset = str "{" \/ cutset = str "}" ->
  Forall (fun c => Strings.inCutset c cutset = false)
    (Strings.Join (map Strconv.FormatInt v) (str ",")).
Proof.
  intros Hcut.
  apply Join_Forall.
  - apply Forall_forall. intros w Hw.
    apply in_map_iff in Hw. destruct Hw as (x & <- & _).
    eapply Forall_impl; [|apply FormatInt_numeric].
    intros c Hc. apply numeric_not_brace; auto.
  - constructor; [|constructor]. apply numeric_not_brace; auto.
Qed.

Lemma pgArr_trim (v : list Z) :
  Strings.TrimRight
    (Strings.TrimLeft (intSliceToPgArr v) (str "{")) (str "}")
  = Strings.Join (map Strconv.FormatInt v) (str ",").
Proof.
  unfold intSliceToPgArr.
  set (body := Strings.Join (map Strconv.FormatInt v) (str ",")).
  assert (Hl : Forall (fun c => Strings.inCutset c (str "{") = false) body)
    by (apply pgArr_body_clean; auto).
  assert (Hr : Forall (fun c => Strings.inCutset c (str "}") = false) body)
    by (apply pgArr_body_clean; auto).
  assert (E : Strings.TrimLeft (str "{" ++ body ++ str "}") (str "{")
              = body ++ str "}").
  { change (str "{" ++ body ++ str "}") with ("{"%char :: body ++ str "}").
    cbn [Strings.TrimLeft]. change (Strings.inCutset "{" (str "{")) with true.
    cbv iota. destruct Hl as [|c body' Hc _]; [reflexivity|].
    now apply TrimLeft_stop. }
  rewrite E. change (str "}") with ["}"%char].
  rewrite TrimRight_snoc by reflexivity.
  now apply TrimRight_clean.
Qed.

Lemma pgArr_roundtrip (v : list Z) :
  Forall Int64.in_range v -> pgArrToIntSlice (intSliceToPgArr v) = v.
Proof.
  intros Hv. unfold pgArrToIntSlice. rewrite pgArr_trim.
  destruct v as [|x v]; [reflexivity|].
  change (str ",") with [","%char].
  rewrite Split_Join.
  - exact (appendParsed_FormatInt (x :: v) [] Hv).
  - discriminate.
  - apply Forall_forall. intros w Hw.
    apply in_map_iff in Hw. destruct Hw as (y & <- & _).
    eapply Forall_impl; [|apply FormatInt_numeric].
    intros c. apply numeric_not_comma.
Qed.

Lemma hasVotedLoop_In (votes : list Z) (photoID : Z) :
  hasVotedLoop votes photoID = true <-> In photoID votes.
Proof.
  induction votes as [|x votes IH]; simpl; [split; [discriminate|tauto]|].
  destruct (Z.eqb_spec x photoID) as [->|Hne].
  - split; auto.
  - rewrite IH. split; [auto|]. intros [E|H]; [congruence|exact H].
Qed.

Lemma GetVotes_RegisterVote (user : User) (photoID : Z) :
  Int64.in_range photoID ->
  GetVotes (RegisterVote user photoID) = GetVotes user ++ [photoID].
Proof.
  intros Hp. unfold RegisterVote, GetVotes at 1, SetVotes. simpl.
  apply pgArr_roundtrip. apply Forall_app. split.
  - apply pgArrToIntSlice_in_range.
  - constructor; [exact Hp|constructor].
Qed.

End VoteSet.

(** C10: decoding the PostgreSQL-array text of a slice of 64-bit integers
    returns the slice, the empty slice being encoded as "{}"; hence after
    [RegisterVote p] the user [HasVoted p], and every vote recorded before
    is still recorded (the decoded vote list is the old one with [p]
    appended). *)
Theorem pgArr_roundtrip_RegisterVote (v : list Z) (user : User) (p : Z) :
  Forall Int64.in_range v ->
  Int64.in_range p ->
  pgArrToIntSlice (intSliceToPgArr v) = v /\
  intSliceToPgArr [] = str "{}" /\
  pgArrToIntSlice (str "{}") = [] /\
  HasVoted (RegisterVote user p) p = true /\
  GetVotes (RegisterVote user p) = GetVotes user ++ [p] /\
  (forall q, HasVoted user q = true -> HasVoted (RegisterVote user p) q = true).
Proof.
  intros Hv Hp.
  pose proof (GetVotes_RegisterVote user p Hp) as E.
  split; [now apply pgArr_roundtrip|].
  split; [reflexivity|]. split; [reflexivity|].
  unfold HasVoted. rewrite E.
  split; [|split; [reflexivity|]].
  - apply hasVotedLoop_In, in_or_app. right. now left.
  - intros q Hq. apply hasVotedLoop_In, in_or_app. left.
    now apply hasVotedLoop_In.
Qed.

Lemma pgArr_roundtrip_RegisterVote_witness :
  let bob := mkUser 5 0 (str "bob") (str "hash") (str "bob@example.org")
               (str "{3,-4}") false true None true in
  pgArrToIntSlice (intSliceToPgArr [9223372036854775807; -9223372036854775808; 0]) =
    [9223372036854775807; -9223372036854775808; 0] /\
  HasVoted (RegisterVote bob 9) 9 = true /\
  GetVotes (RegisterVote bob 9) = [3; -4; 9].
Proof.
  intros bob.
  assert (Hv : Forall Int64.in_range
                 [9223372036854775807; -9223372036854775808; 0]).
  { repeat constructor; unfold Int64.min_int, Int64.max_int; lia. }
  assert (Hp : Int64.in_range 9).
  { unfold Int64.in_range, Int64.min_int, Int64.max_int; lia. }
  destruct (pgArr_roundtrip_RegisterVote _ bob 9 Hv Hp)
    as (H1 & _ & _ & H2 & H3 & _).
  exact (conj H1 (conj H2 H3)).
Defined.

(** ** Permissions *)

Section PermissionFacts.

Lemma HasVoted_In (user : User) (photoID : Z) :
  HasVoted user photoID = true <-> In photoID (GetVotes user).
Proof. apply hasVotedLoop_In. Qed.

Lemma CanVote_spec (photo : Photo) (viewer : User) :
  CanVote photo (Some viewer) = true <-> Spec.canVote photo viewer.
Proof.
  unfold CanVote, Spec.canVote.
  destruct (User_IsAuthenticated viewer); simpl.
  - destruct (Z.eqb_spec (Photo_OwnerID photo) (User_ID viewer)) as [E|E].
    + split; [discriminate|]. intros (_ & H & _). congruence.
    + rewrite negb_true_iff, <- not_true_iff_false, HasVoted_In.
      split; [intros H; repeat split; auto|tauto].
  - split; [discriminate|]. intros (H & _). discriminate.
Qed.

(** The permissions of a detail are those of its photo for the viewer. *)
Lemma GetDetail_permissions (st : Store) (photoID : Z) (user : option User)
  (detail : PhotoDetail) :
  GetDetail st photoID user = Ok (Some detail) ->
  Detail_Permissions detail = permissionsFor (Detail_Photo detail) user.
Proof.
  unfold GetDetail. destruct (photoID =? 0); [discriminate|].
  destruct (SelectOne _) as [[p owner]| |]; try discriminate.
  now intros [= <-].
Qed.

End PermissionFacts.

(** C8, the claim as stated fails: an administrator's row that is not marked
    authenticated (as every row read from the store is, until the session
    layer marks it) may not edit, where the formula
    [viewer.isAdmin OR viewer.id == photo.ownerId] says it may. *)
Lemma CanEdit_requires_authentication :
  let viewer := mkUser 7 0 (str "root") (str "hash") (str "root@example.org")
                  (str "{}") true true None false in
  let photo := mkPhoto 9 1 100 (str "Sunset") (str "f.jpg") [] 0 0 in
  Spec.canEdit photo viewer = true /\
  CanEdit photo (Some viewer) = false /\
  CanDelete photo (Some viewer) = false.
Proof. repeat split. Qed.

(** C8, amended: for every photo and viewer, the permissions [GetDetail]
    computes are: canEdit = the viewer is present and authenticated AND
    (viewer.isAdmin OR viewer.id == photo.ownerId); canDelete = canEdit;
    canVote = viewer.isAuthenticated AND viewer.id != photo.ownerId AND
    photo.id NOT IN viewer.voteSet.  So canVote is false for the owner even
    without a vote, and false after a vote even for another user; an absent
    viewer has no permission. *)
Theorem permissions_of_viewer (photo : Photo) (viewer : User) :
  Perm_Edit (permissionsFor photo (Some viewer)) =
    User_IsAuthenticated viewer && Spec.canEdit photo viewer /\
  Perm_Delete (permissionsFor photo (Some viewer)) =
    Perm_Edit (permissionsFor photo (Some viewer)) /\
  (Perm_Vote (permissionsFor photo (Some viewer)) = true <->
     Spec.canVote photo viewer) /\
  (User_ID viewer = Photo_OwnerID photo ->
     Perm_Vote (permissionsFor photo (Some viewer)) = false) /\
  (In (Photo_ID photo) (GetVotes viewer) ->
     Perm_Vote (permissionsFor photo (Some viewer)) = false) /\
  permissionsFor photo None = mkPermissions false false false.
Proof.
  pose proof (CanVote_spec photo viewer) as Hv.
  unfold permissionsFor, CanDelete. simpl Perm_Edit. simpl Perm_Delete.
  simpl Perm_Vote.
  split; [|split; [reflexivity|split; [exact Hv|split; [|split]]]].
  - unfold CanEdit, Spec.canEdit.
    destruct (User_IsAuthenticated viewer); simpl; [|reflexivity].
    now rewrite (Z.eqb_sym (User_ID viewer)).
  - intros E. apply not_true_iff_false. rewrite Hv.
    intros (_ & H & _). contradiction.
  - intros Hin. apply not_true_iff_false. rewrite Hv.
    intros (_ & _ & H). contradiction.
  - reflexivity.
Qed.

(** ** Authentication *)

Lemma gostring_eqb_eq (a b : gostring) : gostring_eqb a b = true <-> a = b.
Proof.
  revert b. induction a as [|x a IH]; intros [|y b]; simpl;
    try (split; [discriminate|discriminate]); [tauto|].
  rewrite andb_true_iff, Ascii.eqb_eq, IH.
  split; [intros [-> ->]; reflexivity|intros [= -> ->]; auto].
Qed.

Lemma gostring_eqb_refl (a : gostring) : gostring_eqb a a = true.
Proof. now apply gostring_eqb_eq. Qed.

Lemma authRows_In (st : Store) (identifier : gostring) (row : User) :
  In row (authRows st identifier) <->
  In row (users st) /\ User_IsActive row = true /\
  (User_Email row = identifier \/ User_Name row = identifier).
Proof.
  unfold authRows. rewrite filter_In, andb_true_iff, orb_true_iff,
    !gostring_eqb_eq. tauto.
Qed.


Lemma two_rows {A : Type} (l : list A) (a b : A) :
  In a l -> In b l -> a <> b -> SelectOne l = ErrMultipleRows.
Proof.
  destruct l as [|x [|y rest]]; cbn; intros Ha Hb Hne.
  - destruct Ha.
  - destruct Ha as [<-|[]], Hb as [<-|[]]. now elim Hne.
  - reflexivity.
Qed.

(** C9, the claim as stated fails: mallory's name is bob's email.  A login
    with a wrong password is refused with (nil, nil) when the identifier is
    unknown or is bob's name, but with an error when it is bob's email. *)
Lemma Authenticate_clash_is_told_apart :
  let st := setUsers sampleStore [alice; bob; mallory] in
  let verifyPassword := gostring_eqb in
  Authenticate verifyPassword st (str "nobody") (str "wrong") = (None, None) /\
  Authenticate verifyPassword st (str "bob") (str "wrong") = (None, None) /\
  Authenticate verifyPassword st (str "bob@example.org") (str "wrong")
  = (None, Some tt) /\
  (None, Some tt) <> (@None User, @None unit).
Proof. repeat split. discriminate. Qed.


(** ** Tags *)

Section TagFacts.

Import Strings.

Lemma tagLoop_params (i : Z) (names : list gostring) (acc : TagLoop) :
  tl_params (tagLoop i names acc) =
  tl_params acc ++
  map ToLower
    (filter (fun w => negb (isEmptyString w)) (map TrimSpace names)).
Proof.
  revert i acc. induction names as [|name rest IH]; intros i acc; simpl.
  - now rewrite app_nil_r.
  - destruct (isEmptyString (TrimSpace name)); simpl; rewrite IH; simpl.
    + reflexivity.
    + now rewrite <- app_assoc.
Qed.

Lemma tagLoop_isEmpty (i : Z) (names : list gostring) (acc : TagLoop) :
  (tl_isEmpty acc = true <-> tl_params acc = []) ->
  (tl_isEmpty (tagLoop i names acc) = true <->
   tl_params (tagLoop i names acc) = []).
Proof.
  revert i acc. induction names as [|name rest IH]; intros i acc Hacc; simpl.
  - exact Hacc.
  - destruct (isEmptyString (TrimSpace name)); simpl; apply IH; [exact Hacc|].
    simpl. split; [discriminate|].
    intros H. apply app_eq_nil in H. destruct H as [_ H]. discriminate.
Qed.

(** The loop leaves [isEmpty] set exactly when it bound no tag name. *)
Lemma isEmpty_normalizeTags (names : list gostring) :
  tl_isEmpty (tagLoop 0 names tagLoopStart) = true <-> normalizeTags names = [].
Proof. apply tagLoop_isEmpty. simpl. tauto. Qed.

Lemma normalizeTags_eq (names : list gostring) :
  normalizeTags names =
  map ToLower (filter (fun w => negb (isEmptyString w)) (map TrimSpace names)).
Proof. unfold normalizeTags. now rewrite tagLoop_params. Qed.

Lemma innerJoin_In {A B : Type} (on : A -> B -> bool)
  (l : list A) (r : list B) (a : A) (b : B) :
  In (a, b) (innerJoin on l r) <-> In a l /\ In b r /\ on a b = true.
Proof.
  unfold innerJoin. rewrite in_flat_map. split.
  - intros (a' & Ha & H). apply in_map_iff in H.
    destruct H as (b' & [= <- <-] & Hb). apply filter_In in Hb. tauto.
  - intros (Ha & Hb & Hon). exists a. split; [exact Ha|].
    apply in_map. apply filter_In. tauto.
Qed.

Lemma photoTagNames_In (st : Store) (photoID : Z) (name : gostring) :
  In name (photoTagNames st photoID) <->
  exists t, In t (tags st) /\ In (photoID, Tag_ID t) (photo_tags st) /\
            Tag_Name t = name.
Proof.
  unfold photoTagNames. rewrite in_map_iff. split.
  - intros ([t [pid tid]] & <- & H). apply filter_In in H. simpl in H.
    destruct H as [H Hp]. apply innerJoin_In in H. simpl in H.
    destruct H as (Ht & Hpt & Hon).
    apply Z.eqb_eq in Hp, Hon. subst. exists t. auto.
  - intros (t & Ht & Hpt & <-). exists (t, (photoID, Tag_ID t)).
    split; [reflexivity|]. apply filter_In. simpl.
    split; [|apply Z.eqb_refl].
    apply innerJoin_In. simpl. rewrite Z.eqb_refl. auto.
Qed.

End TagFacts.

(** C7: for a photo that exists (its identifier is not zero), [UpdateTags]
    with an empty desired tag name set succeeds and removes every
    association of the photo: no pair of [photo_tags] names the photo any
    more and its tag set reads back empty, while the associations of the
    other photos stay. *)
Theorem UpdateTags_empty_removes_all
  (add_tags : Store -> list Z -> Z -> list gostring -> Result Store)
  (st : Store) (photo : Photo) :
  Photo_ID photo <> 0 ->
  normalizeTags (Photo_Tags photo) = [] ->
  exists st',
    UpdateTags add_tags st photo = Ok st' /\
    photoTagNames st' (Photo_ID photo) = [] /\
    (forall pt, In pt (photo_tags st') -> fst pt <> Photo_ID photo) /\
    (forall pt, fst pt <> Photo_ID photo ->
       (In pt (photo_tags st') <-> In pt (photo_tags st))) /\
    users st' = users st /\ photos st' = photos st /\ tags st' = tags st.
Proof.
  intros Hid Hempty.
  apply isEmpty_normalizeTags in Hempty.
  unfold UpdateTags. rewrite Hempty.
  apply Z.eqb_neq in Hid. rewrite Hid. simpl.
  eexists. split; [reflexivity|].
  assert (Hgone : forall pt,
            In pt (filter (fun pt => negb (fst pt =? Photo_ID photo))
                     (photo_tags st)) ->
            fst pt <> Photo_ID photo).
  { intros pt H. apply filter_In in H. destruct H as [_ H].
    apply negb_true_iff, Z.eqb_neq in H. exact H. }
  split; [|split; [exact Hgone|split; [|auto]]].
  - destruct (photoTagNames _ (Photo_ID photo)) as [|name rest] eqn:E;
      [reflexivity|].
    assert (Hin : In name (name :: rest)) by now left.
    rewrite <- E in Hin. apply photoTagNames_In in Hin.
    destruct Hin as (t & _ & Hpt & _). simpl in Hpt.
    apply Hgone in Hpt. now elim Hpt.
  - intros pt Hne. simpl. rewrite filter_In.
    apply Z.eqb_neq in Hne. rewrite Hne. simpl. tauto.
Qed.

Lemma UpdateTags_empty_removes_all_witness :
  let st := mkStore [] [mkPhoto 9 1 100 (str "Sunset") (str "f.jpg") [] 0 0]
              [mkTag 1 (str "cats"); mkTag 2 (str "sky")]
              [(9, 2); (10, 1); (9, 1)] in
  let photo := mkPhoto 9 1 100 (str "Sunset") (str "f.jpg")
                 [str "  "; str ""] 0 0 in
  exists st',
    UpdateTags (fun st _ _ _ => Ok st) st photo = Ok st' /\
    photoTagNames st' 9 = [] /\ photo_tags st' = [(10, 1)].
Proof.
  intros st photo.
  destruct (UpdateTags_empty_removes_all (fun st _ _ _ => Ok st) st photo)
    as (st' & H1 & H2 & _); [discriminate|reflexivity|].
  exists st'. split; [exact H1|]. split; [exact H2|].
  assert (E : Ok st' = Ok (mkStore (users st) (photos st) (tags st) [(10, 1)]))
    by (rewrite <- H1; reflexivity).
  injection E as ->. reflexivity.
Defined.

Section Utf8Facts.

Import Utf8.

Lemma byte_range (c : ascii) : 0 <= byte c < 256.
Proof. unfold byte. pose proof (N_ascii_bounded c). lia. Qed.

Lemma byte_char (z : Z) : 0 <= z < 256 -> byte (char z) = z.
Proof. intros H. unfold byte, char. rewrite N_ascii_embedding; lia. Qed.

Lemma ValidRune_spec (r : Z) :
  ValidRune r = true <-> 0 <= r < 55296 \/ 57343 < r <= 1114111.
Proof.
  unfold ValidRune, MaxRune.
  rewrite orb_true_iff, !andb_true_iff, !Z.leb_le, !Z.ltb_lt. tauto.
Qed.

(** A valid rune is decoded from its encoding, whatever follows. *)
Lemma Decode_Encode (r : Z) (s : gostring) :
  ValidRune r = true ->
  DecodeRuneInString (EncodeRune r ++ s) = (r, List.length (EncodeRune r)).
Proof.
  intros Hv. unfold EncodeRune. rewrite Hv. cbn [negb].
  apply ValidRune_spec in Hv.
  destruct (Z.leb_spec 0 r); [|lia]. cbn [andb].
  destruct (Z.leb_spec r 127).
  { cbn [app List.length DecodeRuneInString].
    rewrite byte_char by lia. now take_branch. }
  destruct (Z.leb_spec 128 r); [|lia]. cbn [andb].
  pose proof (Z.div_mod r 64 ltac:(lia)) as E1.
  pose proof (Z.mod_pos_bound r 64 ltac:(lia)) as M1.
  destruct (Z.leb_spec r 2047).
  { cbn [app List.length DecodeRuneInString].
    unfold continues, between. rewrite !byte_char by lia.
    repeat take_branch. f_equal. lia. }
  pose proof (Z.div_mod (r / 64) 64 ltac:(lia)) as E2.
  pose proof (Z.mod_pos_bound (r / 64) 64 ltac:(lia)) as M2.
  assert (E3 : r / 4096 = r / 64 / 64) by (rewrite Z.div_div by lia; reflexivity).
  destruct (Z.leb_spec r 65535).
  { cbn [app List.length DecodeRuneInString].
    unfold continues, between. rewrite E3. rewrite !byte_char by lia.
    split_eqb.
    all: repeat take_branch; f_equal; lia. }
  pose proof (Z.div_mod (r / 64 / 64) 64 ltac:(lia)) as E4.
  pose proof (Z.mod_pos_bound (r / 64 / 64) 64 ltac:(lia)) as M4.
  assert (E5 : r / 262144 = r / 64 / 64 / 64) by (rewrite !Z.div_div by lia; reflexivity).
  cbn [app List.length DecodeRuneInString].
  unfold continues, between. rewrite E3, E5. rewrite !byte_char by lia.
  split_eqb.
  all: repeat take_branch; f_equal; lia.
Qed.

Lemma Decode_1 (c0 : ascii) (rest : gostring) :
  byte c0 < 128 -> DecodeRuneInString (c0 :: rest) = (byte c0, 1%nat).
Proof. intros H. cbn [DecodeRuneInString]. now take_branch. Qed.

Lemma Decode_2 (c0 c1 : ascii) (rest : gostring) :
  194 <= byte c0 <= 223 -> 128 <= byte c1 <= 191 ->
  DecodeRuneInString (c0 :: c1 :: rest)
  = ((byte c0 - 192) * 64 + (byte c1 - 128), 2%nat).
Proof. intros H0 H1. cbn [DecodeRuneInString]. now repeat take_branch. Qed.

Lemma Decode_3 (c0 c1 c2 : ascii) (rest : gostring) :
  224 <= byte c0 <= 239 ->
  (if byte c0 =? 224 then 160 else 128) <= byte c1
  <= (if byte c0 =? 237 then 159 else 191) ->
  128 <= byte c2 <= 191 ->
  DecodeRuneInString (c0 :: c1 :: c2 :: rest)
  = (((byte c0 - 224) * 64 + (byte c1 - 128)) * 64 + (byte c2 - 128),
     3%nat).
Proof.
  intros H0 H1 H2. cbn [DecodeRuneInString]. now repeat take_branch.
Qed.

Lemma Decode_4 (c0 c1 c2 c3 : ascii) (rest : gostring) :
  240 <= byte c0 <= 244 ->
  (if byte c0 =? 240 then 144 else 128) <= byte c1
  <= (if byte c0 =? 244 then 143 else 191) ->
  128 <= byte c2 <= 191 -> 128 <= byte c3 <= 191 ->
  DecodeRuneInString (c0 :: c1 :: c2 :: c3 :: rest)
  = ((((byte c0 - 240) * 64 + (byte c1 - 128)) * 64 + (byte c2 - 128)) * 64
     + (byte c3 - 128), 4%nat).
Proof.
  intros H0 H1 H2 H3. cbn [DecodeRuneInString]. now repeat take_branch.
Qed.

Lemma Decode_cases (s : gostring) :
  Decoded s (fst (DecodeRuneInString s)) (snd (DecodeRuneInString s)).
Proof.
  destruct s as [|c0 rest]; [constructor|].
  cbn [DecodeRuneInString].
  destruct (byte c0 <? 128) eqn:A; [constructor; byte_props; lia|].
  assert (128 <= byte c0) by (byte_props; lia).
  destruct (between 194 223 c0) eqn:B2.
  { destruct rest as [|c1 rest]; [now constructor|].
    destruct (continues c1) eqn:C1; [|now constructor].
    constructor; byte_props; lia. }
  destruct (between 224 239 c0) eqn:B3.
  { destruct rest as [|c1 [|c2 rest]]; try now constructor.
    destruct (_ && _) eqn:C; [|now constructor].
    constructor; byte_props; lia. }
  destruct (between 240 244 c0) eqn:B4; [|now constructor].
  destruct rest as [|c1 [|c2 [|c3 rest]]]; try now constructor.
  destruct (_ && _) eqn:C; [|now constructor].
  constructor; byte_props; lia.
Qed.

(** The runes decoded are valid, the width is within the string. *)
Lemma Decode_valid (s : gostring) :
  ValidRune (fst (DecodeRuneInString s)) = true.
Proof.
  apply ValidRune_spec.
  destruct (Decode_cases s) as [|c0 rest H|c0 rest H|c0 c1 rest H0 H1
    |c0 c1 c2 rest H0 H1 H2|c0 c1 c2 c3 rest H0 H1 H2 H3];
    unfold RuneError; try lia.
  - pose proof (byte_range c0). lia.
  - destruct (Z.eqb_spec (byte c0) 224), (Z.eqb_spec (byte c0) 237); lia.
  - destruct (Z.eqb_spec (byte c0) 240), (Z.eqb_spec (byte c0) 244); lia.
Qed.

Lemma Decode_width (s : gostring) :
  s <> [] ->
  (1 <= snd (DecodeRuneInString s) <= List.length s)%nat.
Proof.
  intros Hs. destruct (Decode_cases s); cbn [List.length]; try lia.
  now elim Hs.
Qed.

(** A rune that is decoded is decoded whatever is appended. *)
Lemma Decode_app (p q : gostring) (r : Z) (w : nat) :
  DecodeRuneInString p = (r, w) ->
  r <> RuneError \/ (2 <= w)%nat ->
  DecodeRuneInString (p ++ q) = (r, w).
Proof.
  intros E Hv. pose proof (Decode_cases p) as D. rewrite E in D.
  cbn [fst snd] in D.
  inversion D; subst; cbn [app].
  - destruct Hv as [F|F]; [now elim F|lia].
  - destruct Hv as [F|F]; [now elim F|lia].
  - now apply Decode_1.
  - now apply Decode_2.
  - now apply Decode_3.
  - now apply Decode_4.
Qed.

(** A rune whose encoding ends the string is the last rune of the
    string. *)
Lemma DecodeLast_app (u c : gostring) (x : Z) :
  DecodeRuneInString c = (x, List.length c) ->
  x <> RuneError \/ (2 <= List.length c)%nat ->
  DecodeLastRuneInString (u ++ c) = (x, List.length c).
Proof.
  intros E Hv. pose proof (Decode_cases c) as D. rewrite E in D.
  cbn [fst snd] in D. unfold DecodeLastRuneInString.
  rewrite rev_app_distr.
  inversion D as [|c0 rest H|c0 rest H|c0 c1 rest H0 H1
    |c0 c1 c2 rest H0 H1 H2|c0 c1 c2 c3 rest H0 H1 H2 H3]; subst;
    cbn [List.length] in *.
  - destruct Hv as [F|F]; [now elim F|lia].
  - destruct Hv as [F|F]; [now elim F|lia].
  - destruct rest; [|discriminate]. cbn [rev app].
    now take_branch.
  - destruct rest; [|discriminate]. cbn [rev app lastStart].
    repeat take_branch.
    rewrite E. cbn [List.length]. now rewrite Nat.eqb_refl.
  - destruct rest; [|discriminate]. cbn [rev app lastStart].
    assert (128 <= byte c1 <= 191)
      by (destruct (byte c0 =? 224), (byte c0 =? 237); lia).
    repeat take_branch.
    rewrite E. cbn [List.length]. now rewrite Nat.eqb_refl.
  - destruct rest; [|discriminate]. cbn [rev app lastStart].
    assert (128 <= byte c1 <= 191)
      by (destruct (byte c0 =? 240), (byte c0 =? 244); lia).
    repeat take_branch.
    rewrite E. cbn [List.length]. now rewrite Nat.eqb_refl.
Qed.

Lemma Encode_nonempty (r : Z) :
  exists e0 erest, EncodeRune r = e0 :: erest.
Proof.
  unfold EncodeRune.
  repeat match goal with
    | |- context [if ?c then _ else _] => destruct c
    end; eauto.
Qed.

End Utf8Facts.

Section UnicodeFacts.

Import Utf8 Unicode.

Lemma rangeKeys_In (r lo hi stride delta : Z) :
  0 < stride -> inRange r (lo, hi, stride, delta) = true ->
  In r (rangeKeys (lo, hi, stride, delta)).
Proof.
  intros Hs H. unfold inRange in H.
  apply andb_true_iff in H. destruct H as [H Hm].
  apply andb_true_iff in H. destruct H as [Hlo Hhi].
  apply Z.leb_le in Hlo, Hhi. apply Z.eqb_eq in Hm.
  unfold rangeKeys. apply in_map_iff.
  pose proof (Z.div_mod (r - lo) stride ltac:(lia)) as E.
  rewrite Hm in E.
  assert (0 <= (r - lo) / stride) by (apply Z.div_pos; lia).
  assert ((r - lo) / stride <= (hi - lo) / stride)
    by (apply Z.div_le_mono; lia).
  exists (Z.to_nat ((r - lo) / stride)). split.
  - rewrite Z2Nat.id by lia. lia.
  - apply in_seq. lia.
Qed.

Lemma lowerRanges_checked :
  forallb
    (fun range =>
       let '(lo, hi, stride, delta) := range in
       (0 <? stride)
       && forallb (fun k => lowerChecked k (k + delta)) (rangeKeys range))
    lowerRanges = true.
Proof. vm_compute. reflexivity. Qed.

(** What the table holds: beyond ASCII a rune is its own lower case, or
    neither it nor its lower case is white space and the lower case is a
    valid rune that is its own lower case. *)
Lemma ToLower_table (r : Z) :
  127 < r ->
  ToLower r = r \/
  (ValidRune (ToLower r) = true /\ ToLower (ToLower r) = ToLower r /\
   IsSpace r = false /\ IsSpace (ToLower r) = false).
Proof.
  intros Hr.
  destruct (find (inRange r) lowerRanges) as [[[[lo hi] stride] delta]|] eqn:E.
  2:{ left. unfold ToLower. destruct (Z.leb_spec r 127); [lia|].
      now rewrite E. }
  assert (El : ToLower r = r + delta).
  { unfold ToLower. destruct (Z.leb_spec r 127); [lia|]. now rewrite E. }
  right. rewrite El. apply find_some in E. destruct E as [Hin Hr'].
  pose proof lowerRanges_checked as C.
  rewrite forallb_forall in C. specialize (C _ Hin). cbv beta iota in C.
  apply andb_true_iff in C. destruct C as [Hs C]. apply Z.ltb_lt in Hs.
  rewrite forallb_forall in C.
  specialize (C r (rangeKeys_In _ _ _ _ _ Hs Hr')).
  unfold lowerChecked in C.
  apply andb_true_iff in C. destruct C as [C C4].
  apply andb_true_iff in C. destruct C as [C C3].
  apply andb_true_iff in C. destruct C as [C1 C2].
  apply negb_true_iff in C3, C4. apply Z.eqb_eq in C2.
  auto.
Qed.

Lemma ToLower_ascii (r : Z) :
  r <= 127 ->
  (65 <= r <= 90 /\ ToLower r = r + 32) \/
  (~ 65 <= r <= 90 /\ ToLower r = r).
Proof.
  intros Hr. unfold ToLower. destruct (Z.leb_spec r 127); [|lia].
  destruct (Z.leb_spec 65 r), (Z.leb_spec r 90); cbn [andb];
    [left|right..]; split; try reflexivity; lia.
Qed.

Lemma ToLower_valid (r : Z) :
  ValidRune r = true -> ValidRune (ToLower r) = true.
Proof.
  intros Hv. destruct (Z.leb_spec r 127) as [Hr|Hr].
  - apply ValidRune_spec in Hv. apply ValidRune_spec.
    destruct (ToLower_ascii r Hr) as [(H & ->)|(H & ->)]; lia.
  - destruct (ToLower_table r Hr) as [->|(H & _)]; assumption.
Qed.

Lemma ToLower_rune_idem (r : Z) : ToLower (ToLower r) = ToLower r.
Proof.
  destruct (Z.leb_spec r 127) as [Hr|Hr].
  - destruct (ToLower_ascii r Hr) as [(H & ->)|(H & E)].
    + destruct (ToLower_ascii (r + 32)) as [(F & _)|(_ & ->)];
        [lia|lia|reflexivity].
    + now rewrite !E.
  - destruct (ToLower_table r Hr) as [E|(_ & H & _)]; [|exact H].
    now rewrite !E.
Qed.

Lemma IsSpace_ToLower (r : Z) : IsSpace (ToLower r) = IsSpace r.
Proof.
  destruct (Z.leb_spec r 127) as [Hr|Hr].
  - destruct (ToLower_ascii r Hr) as [(H & ->)|(H & ->)]; [|reflexivity].
    unfold IsSpace.
    repeat match goal with
      | |- context [?a <=? ?b] => destruct (Z.leb_spec a b); try lia
      | |- context [?a =? ?b] => destruct (Z.eqb_spec a b); try lia
      end; reflexivity.
  - destruct (ToLower_table r Hr) as [->|(_ & _ & H1 & H2)]; congruence.
Qed.

Lemma IsSpace_RuneError (r : Z) : IsSpace r = true -> r <> RuneError.
Proof. intros H ->. discriminate. Qed.

End UnicodeFacts.

Section StringsFacts.

Import Utf8 Strings.

Lemma ValidRune_nonneg (r : Z) : ValidRune r = true -> (0 <=? r) = true.
Proof. intros H. apply ValidRune_spec in H. apply Z.leb_le. lia. Qed.

Lemma mapRunes_skip (mapping : Z -> Z) (a s : gostring) (k : nat) :
  mapRunes mapping (List.length a + k) (a ++ s) = mapRunes mapping k s.
Proof. induction a as [|c a IH]; [reflexivity|exact IH]. Qed.

Lemma mapRunes_skip_all (mapping : Z -> Z) (s : gostring) (k : nat) :
  (List.length s <= k)%nat -> mapRunes mapping k s = [].
Proof.
  revert k. induction s as [|c s IH]; intros k H; [reflexivity|].
  cbn [List.length] in H. destruct k as [|k]; [lia|].
  apply IH. lia.
Qed.

(** The encoding of a valid rune at the front is mapped on its own. *)
Lemma Map_Encode (mapping : Z -> Z) (r : Z) (s : gostring) :
  ValidRune r = true ->
  Map mapping (EncodeRune r ++ s)
  = (if 0 <=? mapping r then EncodeRune (mapping r) else [])
    ++ Map mapping s.
Proof.
  intros Hv. unfold Map.
  pose proof (Decode_Encode r s Hv) as E.
  destruct (Encode_nonempty r) as (e0 & erest & He). rewrite He in *.
  cbn [app mapRunes]. cbn [app] in E. rewrite E. cbn [List.length].
  rewrite Nat.sub_1_r. cbn [Nat.pred]. f_equal.
  rewrite <- (Nat.add_0_r (List.length erest)). apply mapRunes_skip.
Qed.

(** The lower case of a string is made of lower-case runes, and such a
    string is its own lower case. *)
Lemma mapRunes_Lowered (k : nat) (s : gostring) :
  Lowered (mapRunes Unicode.ToLower k s).
Proof.
  revert k. induction s as [|c s IH]; intros k; [constructor|].
  cbn [mapRunes]. destruct k as [|k]; [|apply IH].
  pose proof (Decode_valid (c :: s)) as Hv.
  destruct (DecodeRuneInString (c :: s)) as [r w]. cbn [fst] in Hv.
  apply ToLower_valid in Hv. rewrite (ValidRune_nonneg _ Hv).
  constructor; [exact Hv|apply ToLower_rune_idem|apply IH].
Qed.

Lemma Lowered_ToLower (s : gostring) : Lowered s -> ToLower s = s.
Proof.
  unfold ToLower. induction 1 as [|r s Hv Hl _ IH]; [reflexivity|].
  rewrite (Map_Encode _ _ _ Hv), Hl, (ValidRune_nonneg _ Hv), IH.
  reflexivity.
Qed.

Lemma ToLower_idem (s : gostring) : ToLower (ToLower s) = ToLower s.
Proof. apply Lowered_ToLower, mapRunes_Lowered. Qed.

(** The first rune of the lower case of a string, and the rune that ends
    it. *)
Lemma ToLower_first (s : gostring) :
  s <> [] ->
  exists rest,
    ToLower s
    = EncodeRune (Unicode.ToLower (fst (DecodeRuneInString s))) ++ rest.
Proof.
  destruct s as [|c s]; [intros F; now elim F|]. intros _.
  unfold ToLower, Map. cbn [mapRunes].
  pose proof (Decode_valid (c :: s)) as Hv.
  destruct (DecodeRuneInString (c :: s)) as [r w]. cbn [fst] in *.
  apply ToLower_valid in Hv. rewrite (ValidRune_nonneg _ Hv). eauto.
Qed.

Lemma mapRunes_last (k : nat) (s : gostring) :
  (k < List.length s)%nat ->
  exists u c x start,
    s = u ++ c /\ DecodeRuneInString c = (x, List.length c) /\ c <> [] /\
    mapRunes Unicode.ToLower k s
    = start ++ EncodeRune (Unicode.ToLower x).
Proof.
  revert k. induction s as [|a s IH]; intros k Hk; [cbn in Hk; lia|].
  cbn [List.length] in Hk. cbn [mapRunes]. destruct k as [|k].
  - pose proof (Decode_valid (a :: s)) as Hv.
    pose proof (Decode_width (a :: s) ltac:(discriminate)) as Hw.
    destruct (DecodeRuneInString (a :: s)) as [r w] eqn:E.
    cbn [fst snd List.length] in *.
    apply ToLower_valid in Hv. rewrite (ValidRune_nonneg _ Hv).
    destruct (Nat.lt_ge_cases (w - 1) (List.length s)) as [Hlt|Hge].
    + destruct (IH (w - 1)%nat Hlt) as (u & c & x & start & -> & Hc & Hne & ->).
      exists (a :: u), c, x, (EncodeRune (Unicode.ToLower r) ++ start).
      repeat split; try assumption. now rewrite app_assoc.
    + rewrite mapRunes_skip_all by exact Hge.
      exists [], (a :: s), r, []. cbn [app List.length].
      replace (S (List.length s)) with w by lia.
      repeat split; try assumption; try discriminate.
      now rewrite app_nil_r.
  - destruct (IH k ltac:(lia)) as (u & c & x & start & -> & Hc & Hne & ->).
    exists (a :: u), c, x, start. repeat split; assumption.
Qed.

(** What trimming leaves neither starts nor ends with white space. *)
Lemma trimLeftSpace_start (k : nat) (s : gostring) :
  trimLeftSpace k s = [] \/
  Unicode.IsSpace (fst (DecodeRuneInString (trimLeftSpace k s))) = false.
Proof.
  revert k. induction s as [|c s IH]; intros k; [now left|].
  cbn [trimLeftSpace]. destruct k as [|k]; [|apply IH].
  destruct (DecodeRuneInString (c :: s)) as [r w] eqn:E.
  destruct (Unicode.IsSpace r) eqn:Hr; [apply IH|].
  right. now rewrite E.
Qed.

Lemma trimLeftSpace_clean (s : gostring) :
  s = [] \/ Unicode.IsSpace (fst (DecodeRuneInString s)) = false ->
  trimLeftSpace 0 s = s.
Proof.
  intros [->|H]; [reflexivity|]. destruct s as [|c s]; [reflexivity|].
  cbn [trimLeftSpace].
  destruct (DecodeRuneInString (c :: s)) as [r w]. cbn [fst] in H.
  now rewrite H.
Qed.

Lemma trimRightSpace_end (k : nat) (reversed : gostring) :
  trimRightSpace k reversed = [] \/
  Unicode.IsSpace
    (fst (DecodeLastRuneInString (rev (trimRightSpace k reversed)))) = false.
Proof.
  revert k. induction reversed as [|c s IH]; intros k; [now left|].
  cbn [trimRightSpace]. destruct k as [|k]; [|apply IH].
  destruct (DecodeLastRuneInString (rev (c :: s))) as [r w] eqn:E.
  destruct (Unicode.IsSpace r) eqn:Hr; [apply IH|].
  right. now rewrite E.
Qed.

Lemma trimRightSpace_clean (reversed : gostring) :
  reversed = [] \/
  Unicode.IsSpace (fst (DecodeLastRuneInString (rev reversed))) = false ->
  trimRightSpace 0 reversed = reversed.
Proof.
  intros [->|H]; [reflexivity|].
  destruct reversed as [|c s]; [reflexivity|].
  cbn [trimRightSpace].
  destruct (DecodeLastRuneInString (rev (c :: s))) as [r w]. cbn [fst] in H.
  now rewrite H.
Qed.

Lemma trimRightSpace_suffix (k : nat) (reversed : gostring) :
  exists dropped, reversed = dropped ++ trimRightSpace k reversed.
Proof.
  revert k. induction reversed as [|c s IH]; intros k; [now exists []|].
  cbn [trimRightSpace].
  assert (forall n, exists dropped, c :: s = dropped ++ trimRightSpace n s).
  { intros n. destruct (IH n) as [d Hd]. exists (c :: d).
    cbn [app]. now rewrite <- Hd. }
  destruct k as [|k]; [|auto].
  destruct (DecodeLastRuneInString (rev (c :: s))) as [r w].
  destruct (Unicode.IsSpace r); [auto|now exists []].
Qed.

(** What [TrimSpace] returns is trimmed, and a trimmed string is left as
    it is. *)
Lemma TrimSpace_trimmed (s : gostring) : trimmed (TrimSpace s).
Proof.
  unfold trimmed, TrimSpace.
  set (l := trimLeftSpace 0 s).
  destruct (trimRightSpace_end 0 (rev l)) as [E|E]; [left; now rewrite E|].
  destruct (rev (trimRightSpace 0 (rev l))) as [|c t] eqn:Et; [now left|].
  right. split; [|exact E].
  destruct (trimRightSpace_suffix 0 (rev l)) as [d Hd].
  apply (f_equal (@rev ascii)) in Hd.
  rewrite rev_involutive, rev_app_distr, Et in Hd.
  destruct (trimLeftSpace_start 0 s) as [F|F]; fold l in F.
  { rewrite F in Hd. discriminate. }
  destruct (Unicode.IsSpace (fst (DecodeRuneInString (c :: t)))) eqn:Hs;
    [|reflexivity].
  destruct (DecodeRuneInString (c :: t)) as [r w] eqn:Ed. cbn [fst] in Hs.
  rewrite Hd, (Decode_app _ (rev d) _ _ Ed) in F.
  - cbn [fst] in F. congruence.
  - left. now apply IsSpace_RuneError.
Qed.

Lemma TrimSpace_clean (s : gostring) : trimmed s -> TrimSpace s = s.
Proof.
  intros [->|[H1 H2]]; [reflexivity|]. unfold TrimSpace.
  rewrite trimLeftSpace_clean by now right.
  rewrite trimRightSpace_clean; [apply rev_involutive|].
  right. now rewrite rev_involutive.
Qed.

Lemma TrimSpace_idem (s : gostring) : TrimSpace (TrimSpace s) = TrimSpace s.
Proof. apply TrimSpace_clean, TrimSpace_trimmed. Qed.

Lemma Encode_RuneError_length (x : Z) :
  x <> RuneError \/ (2 <= List.length (EncodeRune x))%nat.
Proof.
  destruct (Z.eq_dec x RuneError) as [->|H]; [right|now left].
  cbn. lia.
Qed.

(** The lower case of a trimmed string is trimmed, and is not empty when
    the string is not. *)
Lemma ToLower_trimmed (s : gostring) :
  trimmed s -> trimmed (ToLower s) /\ (s <> [] -> ToLower s <> []).
Proof.
  intros [->|[H1 H2]]; [split; [now left|intros F; now elim F]|].
  destruct s as [|a s]; [split; [now left|intros F; now elim F]|].
  destruct (ToLower_first (a :: s) ltac:(discriminate)) as [rest Hfirst].
  pose proof (ToLower_valid _ (Decode_valid (a :: s))) as Hv.
  split.
  2:{ intros _. rewrite Hfirst.
      destruct (Encode_nonempty
                  (Unicode.ToLower (fst (DecodeRuneInString (a :: s)))))
        as (e0 & erest & ->). discriminate. }
  right. split.
  - rewrite Hfirst, (Decode_Encode _ rest Hv). cbn [fst].
    now rewrite IsSpace_ToLower.
  - destruct (mapRunes_last 0 (a :: s) ltac:(cbn; lia))
      as (u & c & x & start & Hs & Hc & Hne & Hmap).
    assert (Hx : Unicode.IsSpace x = false).
    { destruct (Unicode.IsSpace x) eqn:Hx; [|reflexivity].
      rewrite Hs, (DecodeLast_app u c x Hc) in H2.
      - cbn [fst] in H2. congruence.
      - left. now apply IsSpace_RuneError. }
    assert (Hvx : ValidRune (Unicode.ToLower x) = true).
    { apply ToLower_valid. pose proof (Decode_valid c) as V.
      now rewrite Hc in V. }
    unfold ToLower, Map. rewrite Hmap.
    rewrite (DecodeLast_app start _ (Unicode.ToLower x)).
    + cbn [fst]. now rewrite IsSpace_ToLower.
    + rewrite <- (app_nil_r (EncodeRune (Unicode.ToLower x))) at 1.
      apply Decode_Encode. exact Hvx.
    + apply Encode_RuneError_length.
Qed.

End StringsFacts.

Section NormalizerFacts.

Import Strings.

Lemma isEmptyString_false (s : gostring) :
  isEmptyString s = false <-> s <> [].
Proof. destruct s; simpl; split; congruence. Qed.

Lemma normalizeTags_normal (names : list gostring) :
  Forall normalName (normalizeTags names).
Proof.
  rewrite normalizeTags_eq. apply Forall_forall. intros x Hx.
  apply in_map_iff in Hx. destruct Hx as (t & <- & Ht).
  apply filter_In in Ht. destruct Ht as [Ht Hne].
  apply in_map_iff in Ht. destruct Ht as (raw & <- & _).
  apply negb_true_iff, isEmptyString_false in Hne.
  destruct (ToLower_trimmed _ (TrimSpace_trimmed raw)) as [Htrim Hfull].
  repeat split.
  - now apply TrimSpace_clean.
  - apply ToLower_idem.
  - now apply Hfull.
Qed.

Lemma normalizeTags_fixed (names : list gostring) :
  Forall normalName names -> normalizeTags names = names.
Proof.
  intros H. rewrite normalizeTags_eq.
  induction H as [|x names (Ht & Hl & Hne) _ IH]; simpl; [reflexivity|].
  rewrite Ht. apply isEmptyString_false in Hne. rewrite Hne. simpl.
  now rewrite Hl, IH.
Qed.

End NormalizerFacts.

(** C6, the claim as stated fails: the normalizer does not deduplicate; two
    raw tags with the same normal form are bound twice. *)
Lemma normalizeTags_keeps_duplicates :
  normalizeTags [str "cats"; str " Cats "] = [str "cats"; str "cats"] /\
  ~ Spec.deduplicated (normalizeTags [str "cats"; str " Cats "]).
Proof.
  split; [reflexivity|].
  intros H. change (normalizeTags [str "cats"; str " Cats "])
    with [str "cats"; str "cats"] in H.
  inversion H as [|x l Hnotin _]. apply Hnotin. now left.
Qed.

(** C6, amended: for every sequence of raw tag strings, tag normalization
    trims white space, lowercases and drops the empty strings, keeping the
    order and the repetitions of the sequence: a name is in the result
    exactly when it is the trimmed, lowercased form of a raw tag that is
    not blank; every name of the result is trimmed, lowercase and not
    empty; and normalizing a normalized sequence returns it unchanged. *)
Theorem normalizeTags_idempotent (names : list gostring) :
  normalizeTags names =
    map Strings.ToLower
      (filter (fun w => negb (isEmptyString w)) (map Strings.TrimSpace names)) /\
  (forall x, In x (normalizeTags names) <->
     exists raw, In raw names /\ Strings.TrimSpace raw <> [] /\
                 x = Strings.ToLower (Strings.TrimSpace raw)) /\
  Forall (fun x => Strings.TrimSpace x = x /\ Strings.ToLower x = x /\ x <> [])
    (normalizeTags names) /\
  normalizeTags (normalizeTags names) = normalizeTags names.
Proof.
  split; [apply normalizeTags_eq|]. split; [|split].
  - intros x. rewrite normalizeTags_eq, in_map_iff. split.
    + intros (t & <- & Ht). apply filter_In in Ht. destruct Ht as [Ht Hne].
      apply in_map_iff in Ht. destruct Ht as (raw & <- & Hraw).
      exists raw. split; [exact Hraw|]. split; [|reflexivity].
      apply isEmptyString_false. now apply negb_true_iff.
    + intros (raw & Hraw & Hne & ->). exists (Strings.TrimSpace raw).
      split; [reflexivity|]. apply filter_In. split.
      * now apply in_map.
      * apply negb_true_iff. now apply isEmptyString_false.
  - apply normalizeTags_normal.
  - apply normalizeTags_fixed, normalizeTags_normal.
Qed.

(** Beyond ASCII: a no-break space (U+00A0) and an ideographic space
    (U+3000) around a name are trimmed, [É] (U+00C9) is lowered to [é]
    (U+00E9), and a name of white space only is dropped. *)
Example normalizeTags_beyond_ASCII :
  let bytes := map Utf8.char in
  normalizeTags
    [bytes [194; 160; 195; 137; 99; 111; 108; 101; 227; 128; 128];
     bytes [226; 128; 131; 194; 133]]
  = [bytes [195; 169; 99; 111; 108; 101]].
Proof. reflexivity. Qed.

(** The placeholders follow the index of the raw tag, so a blank tag leaves
    a gap in their numbering. *)
Example tagLoop_placeholders :
  tagLoop 0 [str "a"; str ""; str "b"] tagLoopStart =
  mkTagLoop [1; 2; 4] [str "a"; str "b"] false.
Proof. reflexivity. Qed.

(** ** The vote handler *)

Section VoteFacts.

Lemma find_update_hit {A : Type} (key : A -> Z) (P : A -> bool)
  (new : A) (k : Z) (l : list A) :
  (forall row, P row = true -> key row = k) ->
  P new = true ->
  (exists row, In row l /\ key row = k) ->
  find P (map (fun row => if key row =? k then new else row) l) = Some new.
Proof.
  intros HP Hnew. induction l as [|a l IH]; intros (row & Hin & Hk).
  - destruct Hin.
  - simpl. destruct (Z.eqb_spec (key a) k) as [E|E].
    + now rewrite Hnew.
    + destruct (P a) eqn:Pa; [now elim E; apply HP|].
      apply IH. destruct Hin as [->|Hin]; [contradiction|eauto].
Qed.

Lemma find_update_miss {A : Type} (key : A -> Z) (P : A -> bool)
  (new : A) (k : Z) (l : list A) :
  (forall row, key row = k -> P row = false) ->
  P new = false ->
  find P (map (fun row => if key row =? k then new else row) l) = find P l.
Proof.
  intros HP Hnew. induction l as [|a l IH]; simpl; [reflexivity|].
  destruct (Z.eqb_spec (key a) k) as [E|E].
  - now rewrite Hnew, (HP a E).
  - destruct (P a); [reflexivity|exact IH].
Qed.

Lemma GetActive_Some (st : Store) (uid : Z) (u : User) :
  UserManager_GetActive st uid = Some u ->
  User_ID u = uid /\ User_IsActive u = true /\ User_IsAuthenticated u = false /\
  exists row, In row (users st) /\ User_ID row = uid /\ u = userRow row.
Proof.
  unfold UserManager_GetActive.
  destruct (find _ (users st)) as [row|] eqn:E; [|discriminate].
  intros [= <-]. apply find_some in E. destruct E as [Hin H].
  apply andb_true_iff in H. destruct H as [Ha Hid]. apply Z.eqb_eq in Hid.
  simpl. eauto 8.
Qed.

Lemma PhotoManager_Get_Some (st : Store) (photoID : Z) (photo : Photo) :
  PhotoManager_Get st photoID = Some photo ->
  Photo_ID photo = photoID /\ photoID <> 0 /\
  exists row, In row (photos st) /\ Photo_ID row = photoID /\
              photo = photoRow row.
Proof.
  unfold PhotoManager_Get.
  destruct (Z.eqb_spec photoID 0) as [|Hnz]; [discriminate|].
  destruct (find _ (photos st)) as [row|] eqn:E; [|discriminate].
  intros [= <-]. apply find_some in E. destruct E as [Hin Hid].
  apply Z.eqb_eq in Hid. simpl. eauto 8.
Qed.

Lemma getPhoto_Some (st : Store) (r : Request) (photo : Photo) :
  getPhoto st r = Some photo ->
  Strconv.Atoi (req_id r) = Some (Photo_ID photo) /\
  Int64.in_range (Photo_ID photo) /\
  PhotoManager_Get st (Photo_ID photo) = Some photo.
Proof.
  unfold getPhoto. destruct (Strconv.Atoi (req_id r)) as [photoID|] eqn:E;
    [|discriminate].
  intros H. destruct (PhotoManager_Get_Some _ _ _ H) as (Hid & _).
  subst photoID. split; [reflexivity|]. split; [|exact H].
  now apply Atoi_in_range with (req_id r).
Qed.

Lemma getCurrentUser_cases (st : Store) (r : Request) :
  getCurrentUser st r = anonymousUser \/
  exists uid u,
    req_session r = Some uid /\ UserManager_GetActive st uid = Some u /\
    getCurrentUser st r = authenticated u.
Proof.
  unfold getCurrentUser.
  destruct (req_session r) as [uid|]; [|now left].
  destruct (UserManager_GetActive st uid) as [u|] eqn:Hu; [|now left].
  right. eauto.
Qed.

Lemma getPhotoOrError_Ok (faults : Faults) (st : Store) (r : Request)
  (found : option Photo) :
  getPhotoOrError faults st r = Ok found -> found = getPhoto st r.
Proof.
  unfold getPhotoOrError, getPhoto.
  destruct (Strconv.Atoi (req_id r)) as [photoID|]; [|now intros [= <-]].
  unfold PhotoManager_Get.
  destruct (photoID =? 0); [now intros [= <-]|].
  destruct (fault_Get faults); [discriminate|now intros [= <-]].
Qed.

Lemma getPhotoOrError_read (faults : Faults) (st : Store) (r : Request) :
  fault_Get faults = false ->
  getPhotoOrError faults st r = Ok (getPhoto st r).
Proof.
  intros Hf. unfold getPhotoOrError, getPhoto. rewrite Hf.
  destruct (Strconv.Atoi (req_id r)) as [photoID|]; [|reflexivity].
  unfold PhotoManager_Get. now destruct (photoID =? 0).
Qed.

(** What the handler read and wrote when it has changed the store: the
    photo and then the user when it answers 200, the photo alone when the
    update of the user failed. *)
Lemma vote_inv (fn : Photo -> Photo) (faults : Faults) (st st' : Store)
  (r : Request) (resp : Reply) :
  vote fn faults st r = (st', resp) ->
  (resp <> Status StatusOK /\ st' = st) \/
  (exists uid u photo,
     req_session r = Some uid /\
     UserManager_GetActive st uid = Some u /\
     getPhoto st r = Some photo /\
     CanVote photo (Some (authenticated u)) = true /\
     ((resp = StatusInternalServerError /\
       fault_UpdateUser faults = true /\
       st' = PhotoManager_Update st (fn photo)) \/
      (resp = Status StatusOK /\
       st' = UserManager_Update (PhotoManager_Update st (fn photo))
               (RegisterVote (authenticated u) (Photo_ID (fn photo)))))).
Proof.
  unfold vote.
  destruct (fault_getCurrentUser faults);
    [intros [= <- <-]; left; split; [discriminate|reflexivity]|].
  destruct (getCurrentUser_cases st r) as [E|(uid & u & Hs & Hu & E)];
    rewrite E.
  - change (User_IsAuthenticated anonymousUser) with false. cbn [negb].
    intros [= <- <-]. left. split; [discriminate|reflexivity].
  - change (User_IsAuthenticated (authenticated u)) with true. cbn [negb].
    destruct (getPhotoOrError faults st r) as [[photo|]|] eqn:Hp;
      try (intros [= <- <-]; left; split; [discriminate|reflexivity]).
    apply getPhotoOrError_Ok in Hp. symmetry in Hp.
    destruct (CanVote photo (Some (authenticated u))) eqn:Hc; cbn [negb];
      [|intros [= <- <-]; left; split; [discriminate|reflexivity]].
    destruct (fault_UpdatePhoto faults);
      [intros [= <- <-]; left; split; [discriminate|reflexivity]|].
    destruct (fault_UpdateUser faults) eqn:Hf; intros [= <- <-]; right;
      exists uid, u, photo; repeat (split; [assumption|]); auto.
Qed.

Lemma closure_ID (d : Direction) (p : Photo) :
  Photo_ID (closure d p) = Photo_ID p.
Proof. now destruct d. Qed.

Lemma GetVotes_userRow (u : User) : GetVotes (userRow u) = GetVotes u.
Proof. reflexivity. Qed.

Lemma GetVotes_authenticated (u : User) :
  GetVotes (authenticated u) = GetVotes u.
Proof. reflexivity. Qed.

(** After the two writes of a successful vote the store returns the photo
    the handler wrote. *)
Lemma Get_after_vote (st : Store) (photo photo' : Photo) (user : User) :
  PhotoManager_Get st (Photo_ID photo) = Some photo ->
  Photo_ID photo' = Photo_ID photo ->
  PhotoManager_Get
    (UserManager_Update (PhotoManager_Update st photo') user) (Photo_ID photo)
  = Some (photoRow photo').
Proof.
  intros Hget Hid.
  destruct (PhotoManager_Get_Some _ _ _ Hget) as (_ & Hnz & row & Hin & Hrow & _).
  unfold PhotoManager_Get, UserManager_Update, PhotoManager_Update. simpl.
  apply Z.eqb_neq in Hnz. rewrite Hnz, Hid.
  rewrite (find_update_hit Photo_ID
             (fun p => Photo_ID p =? Photo_ID photo) (photoRow photo')).
  - reflexivity.
  - intros p H. now apply Z.eqb_eq.
  - simpl. rewrite Hid. apply Z.eqb_refl.
  - eauto.
Qed.

(** ... and the user row the handler wrote. *)
Lemma GetActive_after_vote (st : Store) (uid : Z) (u user' : User)
  (photo' : Photo) :
  UserManager_GetActive st uid = Some u ->
  User_ID user' = uid -> User_IsActive user' = true ->
  UserManager_GetActive
    (UserManager_Update (PhotoManager_Update st photo') user') uid
  = Some (userRow user').
Proof.
  intros Hget Hid Hact.
  destruct (GetActive_Some _ _ _ Hget) as (_ & _ & _ & row & Hin & Hrow & _).
  unfold UserManager_GetActive, UserManager_Update, PhotoManager_Update. simpl.
  rewrite Hid.
  rewrite (find_update_hit User_ID
             (fun u => User_IsActive u && (User_ID u =? uid)) (userRow user')).
  - reflexivity.
  - intros a H. apply andb_true_iff in H. now apply Z.eqb_eq.
  - simpl. rewrite Hact, Hid. apply Z.eqb_refl.
  - eauto.
Qed.

(** The rows of the other users are as before. *)
Lemma GetActive_other_after_vote (st : Store) (uid other : Z) (user' : User)
  (photo' : Photo) :
  User_ID user' = uid -> other <> uid ->
  UserManager_GetActive
    (UserManager_Update (PhotoManager_Update st photo') user') other
  = UserManager_GetActive st other.
Proof.
  intros Hid Hne.
  unfold UserManager_GetActive, UserManager_Update, PhotoManager_Update. simpl.
  rewrite Hid. f_equal.
  apply (find_update_miss User_ID
           (fun u => User_IsActive u && (User_ID u =? other))).
  - intros row E. rewrite E.
    replace (uid =? other) with false by (symmetry; apply Z.eqb_neq; congruence).
    apply andb_false_r.
  - simpl. rewrite Hid.
    replace (uid =? other) with false by (symmetry; apply Z.eqb_neq; congruence).
    apply andb_false_r.
Qed.

(** After the update of a photo the store returns the row written. *)
Lemma Get_after_Update (st : Store) (photo photo' : Photo) :
  PhotoManager_Get st (Photo_ID photo') = Some photo ->
  PhotoManager_Get (PhotoManager_Update st photo') (Photo_ID photo')
  = Some (photoRow photo').
Proof.
  intros H. apply PhotoManager_Get_Some in H.
  destruct H as (_ & Hid & row & Hin & Hrow & _).
  unfold PhotoManager_Get, PhotoManager_Update. cbn [photos setPhotos].
  apply Z.eqb_neq in Hid. rewrite Hid.
  rewrite (find_update_hit Photo_ID).
  - reflexivity.
  - intros p Hp. now apply Z.eqb_eq in Hp.
  - cbn. apply Z.eqb_refl.
  - now exists row.
Qed.

(** A handler that runs alone goes through its store accesses in four
    steps and ends as [vote] says. *)
Lemma vote_steps_alone (fnA fnB : Photo -> Photo) (faultsA faultsB : Faults)
  (rA rB : Request) (st : Store) (hB : Handler) :
  interleave fnA fnB faultsA faultsB rA rB [true; true; true; true]
    st AtStart hB =
  (fst (vote fnA faultsA st rA), Finished (snd (vote fnA faultsA st rA)), hB).
Proof.
  unfold vote. cbn [interleave vote_step].
  destruct (fault_getCurrentUser faultsA);
    cbn [interleave vote_step fst snd]; [reflexivity|].
  remember (getCurrentUser st rA) as user eqn:Huser.
  destruct (negb (User_IsAuthenticated user)); cbn [interleave vote_step fst snd];
    [reflexivity|].
  destruct (getPhotoOrError faultsA st rA) as [[photo|]|];
    cbn [interleave vote_step fst snd]; try reflexivity.
  destruct (negb (CanVote photo (Some user)));
    cbn [interleave vote_step fst snd]; [reflexivity|].
  destruct (fault_UpdatePhoto faultsA);
    cbn [interleave vote_step fst snd]; [reflexivity|].
  destruct (fault_UpdateUser faultsA); reflexivity.
Qed.

End VoteFacts.

Section VoteTheorems.

Lemma handle_vote (d : Direction) : handle d = vote (closure d).
Proof. now destruct d. Qed.

Lemma closure_counters (d : Direction) (p : Photo) :
  let p' := photoRow (closure d p) in
  counter d p' = Int64.add (counter d p) 1 /\
  otherCounter d p' = otherCounter d p.
Proof. destruct d; split; reflexivity. Qed.


(** The store after a vote that was answered 200. *)
Lemma vote_success (d : Direction) (faults : Faults) (st st' : Store)
  (r : Request) :
  handle d faults st r = (st', Status StatusOK) ->
  exists uid u photo photo',
    req_session r = Some uid /\
    UserManager_GetActive st uid = Some u /\
    getPhoto st r = Some photo /\
    CanVote photo (Some (authenticated u)) = true /\
    getPhoto st' r = Some photo' /\
    counter d photo' = Int64.add (counter d photo) 1 /\
    otherCounter d photo' = otherCounter d photo /\
    (exists u',
       UserManager_GetActive st' uid = Some u' /\
       GetVotes u' = GetVotes u ++ [Photo_ID photo]) /\
    (forall other, other <> uid ->
       UserManager_GetActive st' other = UserManager_GetActive st other).
Proof.
  rewrite handle_vote. intros H.
  destruct (vote_inv _ _ _ _ _ _ H)
    as [[Hne _]|(uid & u & photo & Hs & Hu & Hp & Hc &
                 [(F & _)|(_ & ->)])];
    [now elim Hne|discriminate|].
  destruct (getPhoto_Some _ _ _ Hp) as (Hatoi & Hrange & Hget).
  destruct (GetActive_Some _ _ _ Hu) as (Hid & Hact & _).
  rewrite closure_ID.
  exists uid, u, photo, (photoRow (closure d photo)).
  repeat (split; [assumption|]).
  split; [|split; [apply closure_counters|split; [apply closure_counters|split]]].
  - unfold getPhoto. rewrite Hatoi. apply Get_after_vote; [exact Hget|].
    apply closure_ID.
  - eexists. split.
    + apply GetActive_after_vote with (u := u); assumption.
    + rewrite GetVotes_userRow, (GetVotes_RegisterVote _ _ Hrange).
      reflexivity.
  - intros other Hne.
    now apply GetActive_other_after_vote with (uid := uid).
Qed.



Lemma vote_forbidden (d : Direction) (faults : Faults) (st : Store)
  (r : Request) (photo : Photo) :
  fault_getCurrentUser faults = false -> fault_Get faults = false ->
  User_IsAuthenticated (getCurrentUser st r) = true ->
  getPhoto st r = Some photo ->
  CanVote photo (Some (getCurrentUser st r)) = false ->
  handle d faults st r = (st, Status StatusForbidden).
Proof.
  rewrite handle_vote. unfold vote. intros -> Hf -> Hp Hc.
  now rewrite (getPhotoOrError_read _ _ _ Hf), Hp, Hc.
Qed.

(** A vote that is not possible changes nothing, whatever fails; it is
    answered 403 or, when a read fails, with the server error. *)
Lemma vote_refused (d : Direction) (faults : Faults) (st : Store)
  (r : Request) (photo : Photo) :
  User_IsAuthenticated (getCurrentUser st r) = true ->
  getPhoto st r = Some photo ->
  CanVote photo (Some (getCurrentUser st r)) = false ->
  exists resp,
    handle d faults st r = (st, resp) /\
    (resp = Status StatusForbidden \/ resp = StatusInternalServerError).
Proof.
  rewrite handle_vote. unfold vote. intros Ha Hp Hc.
  destruct (fault_getCurrentUser faults); [eauto|].
  rewrite Ha. cbn [negb].
  destruct (getPhotoOrError faults st r) as [found|] eqn:E; [|eauto].
  apply getPhotoOrError_Ok in E. rewrite Hp in E. subst found.
  rewrite Hc. cbn [negb]. eauto.
Qed.


End VoteTheorems.


(** C2, the claim as stated fails: the two updates of a vote are two
    statements, and the second can fail after the first is written.  Bob
    (user 5), who does not own photo 9 and has not voted on it, votes it
    up while the update of his row fails: the answer is the server error,
    the counter has gone from 0 to 1 and his vote set is still empty. *)
Lemma failed_vote_is_counted :
  let alice := mkUser 1 0 (str "alice") (str "h1") (str "alice@example.org")
                 (str "{}") false true None false in
  let bob := mkUser 5 0 (str "bob") (str "h2") (str "bob@example.org")
               (str "{}") false true None false in
  let photo := mkPhoto 9 1 100 (str "Sunset") (str "f.jpg") [] 0 0 in
  let st := mkStore [alice; bob] [photo] [] [] in
  let r := mkRequest (Some 5) (str "9") in
  let userUpdateFails := mkFaults false false false true false in
  let st1 := fst (voteUp userUpdateFails st r) in
  User_IsAuthenticated (getCurrentUser st r) = true /\
  CanVote photo (Some (getCurrentUser st r)) = true /\
  snd (voteUp userUpdateFails st r) = StatusInternalServerError /\
  option_map Photo_UpVotes (PhotoManager_Get st 9) = Some 0 /\
  option_map Photo_UpVotes (PhotoManager_Get st1 9) = Some 1 /\
  option_map GetVotes (UserManager_GetActive st 5) = Some [] /\
  option_map GetVotes (UserManager_GetActive st1 5) = Some [].
Proof. repeat split. Qed.


(** The example of the specification: bob (user 5), who does not own photo
    9 and has voted on nothing, votes it up; the counter goes from 0 to 1
    and his vote set becomes {9}; his second vote is rejected (with 403)
    and changes nothing. *)
Example bob_votes_up_once :
  let alice := mkUser 1 0 (str "alice") (str "h1") (str "alice@example.org")
                 (str "{}") false true None false in
  let bob := mkUser 5 0 (str "bob") (str "h2") (str "bob@example.org")
               (str "{}") false true None false in
  let photo := mkPhoto 9 1 100 (str "Sunset") (str "f.jpg") [] 0 0 in
  let st := mkStore [alice; bob] [photo] [] [] in
  let r := mkRequest (Some 5) (str "9") in
  let st1 := fst (voteUp noFaults st r) in
  snd (voteUp noFaults st r) = Status StatusOK /\
  option_map Photo_UpVotes (PhotoManager_Get st1 9) = Some 1 /\
  option_map GetVotes (UserManager_GetActive st1 5) = Some [9] /\
  voteUp noFaults st1 r = (st1, Status StatusForbidden).
Proof. repeat split. Qed.

(** Without concurrency too a counter can run ahead of the votes on record:
    bob's first request fails at the update of his row, his second one
    succeeds, and the counter of photo 9 has gone from 0 to 2 for the one
    vote he has. *)
Example failed_vote_then_vote :
  let alice := mkUser 1 0 (str "alice") (str "h1") (str "alice@example.org")
                 (str "{}") false true None false in
  let bob := mkUser 5 0 (str "bob") (str "h2") (str "bob@example.org")
               (str "{}") false true None false in
  let photo := mkPhoto 9 1 100 (str "Sunset") (str "f.jpg") [] 0 0 in
  let st := mkStore [alice; bob] [photo] [] [] in
  let r := mkRequest (Some 5) (str "9") in
  let userUpdateFails := mkFaults false false false true false in
  let run := serve [(Up, userUpdateFails, r); (Up, noFaults, r)] st in
  snd run = [StatusInternalServerError; Status StatusOK] /\
  option_map Photo_UpVotes (PhotoManager_Get (fst run) 9) = Some 2 /\
  option_map GetVotes (UserManager_GetActive (fst run) 5) = Some [9].
Proof. repeat split. Qed.

Section SequentialVotes.

Variables uid photoID : Z.












End SequentialVotes.



(** ** Search: what a query compiles to *)

Section CompileFacts.

Lemma searchLoop_run (words : list gostring) (num : Z)
  (clauses : list Clause) (params : list gostring) :
  searchLoop num words clauses params =
  (clauses ++ clausesFrom num (firstn (Z.to_nat (7 - num)) (leadingRun words)),
   params ++ map wordParam (firstn (Z.to_nat (7 - num)) (leadingRun words))).
Proof.
  revert num clauses params.
  induction words as [|piece rest IH]; intros num clauses params;
    cbn [searchLoop leadingRun].
  - rewrite firstn_nil. cbn [clausesFrom map]. now rewrite !app_nil_r.
  - destruct (isEmptyString (Strings.TrimSpace piece)) eqn:Hempty;
      cbn [orb].
    + rewrite firstn_nil. cbn [clausesFrom map]. now rewrite !app_nil_r.
    + destruct (Z.ltb_spec 6 num) as [Hcap|Hcap].
      * replace (Z.to_nat (7 - num)) with O by lia.
        cbn [firstn clausesFrom map]. now rewrite !app_nil_r.
      * replace (Z.to_nat (7 - num)) with (S (Z.to_nat (7 - (num + 1))))
          by lia.
        cbn [firstn clausesFrom map]. unfold wordKind, wordParam.
        destruct (Strings.HasPrefix (Strings.TrimSpace piece) "@");
          [|destruct (Strings.HasPrefix (Strings.TrimSpace piece) "#")];
          rewrite IH; rewrite <- !app_assoc; reflexivity.
Qed.

(** The query compiles the first seven words of its leading run. *)
Lemma compileQuery_run (q : gostring) :
  compileQuery q =
  (clausesFrom 0 (firstn 7 (queryWords q)),
   map wordParam (firstn 7 (queryWords q))).
Proof. unfold compileQuery. now rewrite searchLoop_run. Qed.

Lemma leadingRun_nonempty (pieces : list gostring) :
  Forall (fun w => w <> []) (leadingRun pieces).
Proof.
  induction pieces as [|piece rest IH]; simpl; [constructor|].
  destruct (Strings.TrimSpace piece) eqn:E; simpl; [constructor|].
  constructor; [discriminate|exact IH].
Qed.

Lemma leadingRun_prefix (pieces : list gostring) :
  exists rest,
    map Strings.TrimSpace pieces = leadingRun pieces ++ rest /\
    (rest = [] \/ exists rest', rest = [] :: rest').
Proof.
  induction pieces as [|piece pieces IH]; simpl.
  - exists []. auto.
  - destruct (Strings.TrimSpace piece) eqn:E; simpl.
    + exists ([] :: map Strings.TrimSpace pieces). split; [reflexivity|].
      right. eauto.
    + destruct IH as (rest & -> & H). exists rest. auto.
Qed.

(** The placeholder of the clause at index [i] is bound to the parameter
    of the word at index [i]. *)
Lemma clausesFrom_nth (words : list gostring) (num : Z) (i : nat) (c : Clause) :
  nth_error (clausesFrom num words) i = Some c ->
  exists word,
    nth_error words i = Some word /\
    cl_kind c = wordKind word /\ cl_num c = num + Z.of_nat i + 1.
Proof.
  revert num i. induction words as [|w rest IH]; intros num i; simpl.
  - destruct i; discriminate.
  - destruct i as [|i]; simpl.
    + intros [= <-]. exists w. simpl. split; [reflexivity|]. split; [reflexivity|lia].
    + intros H. destruct (IH _ _ H) as (word & Hw & Hk & Hn).
      exists word. split; [exact Hw|]. split; [exact Hk|lia].
Qed.

Lemma clausesFrom_length (num : Z) (words : list gostring) :
  List.length (clausesFrom num words) = List.length words.
Proof.
  revert num. induction words as [|w words IH]; intros num; simpl;
    [reflexivity|]. now rewrite IH.
Qed.

End CompileFacts.

(** C4, the claim as stated fails: only the space character separates
    tokens.  A query of two words with a tab between them compiles to one
    text clause for the whole query, where the first non-empty
    whitespace-separated tokens are the two words. *)
Lemma compileQuery_splits_on_space_only :
  let q := str "cats" ++ [ascii_of_nat 9] ++ str "sky" in
  Spec.tokens q = [str "cats"; str "sky"] /\
  compileQuery q = ([mkClause TextClause 1], [str "%" ++ q ++ str "%"]) /\
  compileQuery q <>
    (clausesFrom 0 (Spec.tokens q), map wordParam (Spec.tokens q)).
Proof. repeat split. discriminate. Qed.

(** C4, amended: for every query string, Search tokenization splits the
    query at each space character, trims white space off each piece, and
    stops at the first piece that is empty (the pieces after it are not
    looked at); the words compiled are a prefix of that leading run, in
    order, each with the placeholder of its position; their number is
    capped: the first 6 words of the run are always compiled and never
    more than 7 are, the words beyond the cap being ignored, not an error;
    when the leading run has at most 6 words, the predicates compiled are
    exactly those of the run. *)
Theorem compileQuery_leading_words (q : gostring) :
  let run := queryWords q in
  (exists rest,
     map Strings.TrimSpace (Strings.Split q " "%char) = run ++ rest /\
     (rest = [] \/ exists rest', rest = [] :: rest')) /\
  Forall (fun w => w <> []) run /\
  (exists n,
     (Nat.min 6 (List.length run) <= n <= Nat.min 7 (List.length run))%nat /\
     compileQuery q =
       (clausesFrom 0 (firstn n run), map wordParam (firstn n run))) /\
  ((List.length run <= 6)%nat ->
   compileQuery q = (clausesFrom 0 run, map wordParam run)) /\
  (List.length (fst (compileQuery q)) <= 7)%nat /\
  List.length (snd (compileQuery q)) = List.length (fst (compileQuery q)) /\
  (forall i c,
     nth_error (fst (compileQuery q)) i = Some c ->
     exists word,
       nth_error run i = Some word /\ cl_kind c = wordKind word /\
       nth_error (snd (compileQuery q)) (Z.to_nat (cl_num c - 1))
         = Some (wordParam word)).
Proof.
  intros run. pose proof (compileQuery_run q) as E. fold run in E.
  split; [apply leadingRun_prefix|].
  split; [apply leadingRun_nonempty|].
  split; [|split; [|split; [|split]]].
  - exists (Nat.min 7 (List.length run)). split; [lia|].
    rewrite E. destruct (Nat.le_ge_cases 7 (List.length run)) as [H|H].
    + now rewrite Nat.min_l.
    + rewrite Nat.min_r by exact H.
      rewrite (firstn_all2 run) by exact H. now rewrite firstn_all.
  - intros H. rewrite E. now rewrite firstn_all2 by lia.
  - rewrite E. cbn [fst]. rewrite clausesFrom_length.
    apply firstn_le_length.
  - rewrite E. cbn [fst snd]. now rewrite clausesFrom_length, length_map.
  - intros i c. rewrite E. cbn [fst snd]. intros H.
    destruct (clausesFrom_nth _ _ _ _ H) as (word & Hw & Hk & Hn).
    assert (Hrun : nth_error run i = Some word).
    { rewrite nth_error_firstn in Hw.
      destruct (Nat.ltb i 7); [exact Hw|discriminate]. }
    exists word. split; [exact Hrun|]. split; [exact Hk|].
    rewrite Hn. replace (Z.to_nat (0 + Z.of_nat i + 1 - 1)) with i by lia.
    now rewrite nth_error_map, Hw.
Qed.

(** The loop leaves at the first empty piece, and its guard lets a seventh
    word through. *)
Example compileQuery_stops_at_empty_piece :
  compileQuery (str "a  b") = ([mkClause TextClause 1], [str "%a%"]).
Proof. reflexivity. Qed.

Example compileQuery_seven_words :
  List.length (fst (compileQuery (str "a b c d e f g h"))) = 7%nat.
Proof. reflexivity. Qed.

(** ** Search: rows, joins and intersection *)

Section RowFacts.

Lemma gostrings_eqb_eq (a b : list gostring) :
  gostrings_eqb a b = true <-> a = b.
Proof.
  revert b. induction a as [|x a IH]; intros [|y b]; simpl;
    try (split; [discriminate|discriminate]); [tauto|].
  rewrite andb_true_iff, gostring_eqb_eq, IH.
  split; [intros [-> ->]; reflexivity|intros [= -> ->]; auto].
Qed.

Lemma Photo_eqb_eq (a b : Photo) : Photo_eqb a b = true <-> a = b.
Proof.
  unfold Photo_eqb. rewrite !andb_true_iff, !Z.eqb_eq, !gostring_eqb_eq,
    gostrings_eqb_eq.
  destruct a, b; simpl. split.
  - intros (((((((-> & ->) & ->) & ->) & ->) & ->) & ->) & ->). reflexivity.
  - intros [= -> -> -> -> -> -> -> ->]. repeat split.
Qed.

Lemma memPhoto_In (p : Photo) (rows : list Photo) :
  memPhoto p rows = true <-> In p rows.
Proof.
  unfold memPhoto. rewrite existsb_exists. split.
  - intros (x & Hin & E). apply Photo_eqb_eq in E. now subst.
  - intros Hin. exists p. split; [exact Hin|]. now apply Photo_eqb_eq.
Qed.

Lemma distinct_In (p : Photo) (rows : list Photo) :
  In p (distinct rows) <-> In p rows.
Proof.
  induction rows as [|x rows IH]; simpl; [tauto|].
  destruct (memPhoto x rows) eqn:E; simpl; rewrite IH; [|tauto].
  apply memPhoto_In in E. split; [auto|]. intros [->|H]; auto.
Qed.

Lemma intersect_In (p : Photo) (a b : list Photo) :
  In p (intersect a b) <-> In p a /\ In p b.
Proof.
  unfold intersect. now rewrite distinct_In, filter_In, memPhoto_In.
Qed.

(** A row is in [a INTERSECT b INTERSECT ...] exactly when it is in every
    operand. *)
Lemma intersect_all_In (p : Photo) (rest : list (list Photo))
  (first : list Photo) :
  In p (fold_left intersect rest first) <->
  In p first /\ forall rows, In rows rest -> In p rows.
Proof.
  revert first. induction rest as [|r rest IH]; intros first; simpl.
  - split; [intros H; split; [exact H|intros rows []]|tauto].
  - rewrite IH, intersect_In. split.
    + intros [[H1 H2] H3]. split; [exact H1|]. intros rows [<-|H]; auto.
    + intros [H1 H2]. auto.
Qed.

Lemma leftJoin_In {A B : Type} (on : A -> B -> bool)
  (l : list A) (r : list B) (a : A) (ob : option B) :
  In (a, ob) (leftJoin on l r) ->
  In a l /\
  match ob with
  | Some b => In b r /\ on a b = true
  | None => True
  end.
Proof.
  unfold leftJoin. rewrite in_flat_map. intros (a' & Ha & H).
  destruct (filter (on a') r) as [|b0 bs] eqn:E.
  - destruct H as [[= <- <-]|[]]. auto.
  - apply in_map_iff in H. destruct H as (b & [= <- <-] & Hb).
    rewrite <- E in Hb. apply filter_In in Hb. auto.
Qed.

Lemma leftJoin_total {A B : Type} (on : A -> B -> bool)
  (l : list A) (r : list B) (a : A) :
  In a l -> exists ob, In (a, ob) (leftJoin on l r).
Proof.
  intros Ha. unfold leftJoin.
  destruct (filter (on a) r) as [|b0 bs] eqn:E.
  - exists None. apply in_flat_map. exists a. rewrite E. simpl. auto.
  - exists (Some b0). apply in_flat_map. exists a. rewrite E.
    split; [exact Ha|]. now left.
Qed.

Lemma insertRanked_In (p x : Photo) (rows : list Photo) :
  In p (insertRanked x rows) <-> p = x \/ In p rows.
Proof.
  induction rows as [|q rows IH]; simpl.
  - intuition congruence.
  - destruct (ranksBefore x q); simpl; [intuition congruence|].
    rewrite IH. intuition congruence.
Qed.

Lemma orderByScore_In (p : Photo) (rows : list Photo) :
  In p (orderByScore rows) <-> In p rows.
Proof.
  unfold orderByScore. induction rows as [|x rows IH]; simpl; [tauto|].
  rewrite insertRanked_In, IH. intuition congruence.
Qed.

Lemma limitOffset_In (limit offset : Z) (rows : list Photo) (p : Photo) :
  In p (limitOffset limit offset rows) -> In p rows.
Proof.
  unfold limitOffset. intros H.
  rewrite <- (firstn_skipn (Z.to_nat offset) rows).
  apply in_or_app. right.
  rewrite <- (firstn_skipn (Z.to_nat limit) (skipn (Z.to_nat offset) rows)).
  apply in_or_app. now left.
Qed.

End RowFacts.

Section LikeFacts.

Lemma sqlLike_percent (pattern text : gostring) (x : ascii) :
  sqlLike ("%"%char :: pattern) (x :: text) =
  sqlLike pattern (x :: text) || sqlLike ("%"%char :: pattern) text.
Proof. reflexivity. Qed.

Lemma sqlLike_percent_nil (pattern : gostring) :
  sqlLike ("%"%char :: pattern) [] = sqlLike pattern [].
Proof. simpl. apply orb_false_r. Qed.

(** [%] in front: the rest of the pattern matches some tail of the text. *)
Lemma sqlLike_any_run (pattern text : gostring) :
  sqlLike ("%"%char :: pattern) text = true <->
  exists before after, text = before ++ after /\ sqlLike pattern after = true.
Proof.
  induction text as [|x text IH].
  - rewrite sqlLike_percent_nil. split.
    + intros H. now exists [], [].
    + intros (before & after & E & H). symmetry in E.
      apply app_eq_nil in E. destruct E as [_ ->]. exact H.
  - rewrite sqlLike_percent, orb_true_iff, IH. split.
    + intros [H|(before & after & -> & H)].
      * now exists [], (x :: text).
      * now exists (x :: before), after.
    + intros (before & after & E & H). destruct before as [|b before].
      * simpl in E. subst after. now left.
      * injection E as <- ->. right. eauto.
Qed.

Lemma sqlLike_plain_byte (c : ascii) (pattern text : gostring) :
  c <> "%"%char /\ c <> "_"%char /\ c <> "\"%char ->
  sqlLike (c :: pattern) text =
  match text with
  | [] => false
  | x :: text' => Ascii.eqb x c && sqlLike pattern text'
  end.
Proof.
  intros (H1 & H2 & H3). apply Ascii.eqb_neq in H1, H2, H3.
  cbn [sqlLike]. now rewrite H1, H2, H3.
Qed.

(** A plain word in front: the text starts with the word. *)
Lemma sqlLike_plain_word (word pattern text : gostring) :
  plainWord word ->
  (sqlLike (word ++ pattern) text = true <->
   exists after, text = word ++ after /\ sqlLike pattern after = true).
Proof.
  intros Hplain. revert text.
  induction Hplain as [|c word Hc _ IH]; intros text.
  - simpl. split; [eauto|]. now intros (after & -> & H).
  - change ((c :: word) ++ pattern) with (c :: word ++ pattern).
    rewrite (sqlLike_plain_byte c _ _ Hc).
    destruct text as [|x text].
    + split; [discriminate|]. intros (after & E & _). discriminate.
    + rewrite andb_true_iff, Ascii.eqb_eq, IH. split.
      * intros (-> & after & -> & H). now exists after.
      * intros (after & [= -> ->] & H). split; [reflexivity|]. now exists after.
Qed.

Lemma sqlLike_percent_only (text : gostring) : sqlLike (str "%") text = true.
Proof.
  apply sqlLike_any_run. exists text, []. now rewrite app_nil_r.
Qed.

(** The pattern [%word%] of a plain word matches the texts that contain the
    word. *)
Lemma sqlLike_contains (word text : gostring) :
  plainWord word ->
  (sqlLike (str "%" ++ word ++ str "%") text = true <->
   exists before after, text = before ++ word ++ after).
Proof.
  intros Hplain.
  change (str "%" ++ word ++ str "%") with ("%"%char :: word ++ str "%").
  rewrite sqlLike_any_run. split.
  - intros (before & rest & -> & H).
    apply (sqlLike_plain_word word (str "%") rest Hplain) in H.
    destruct H as (after & -> & _). eauto.
  - intros (before & after & ->). exists before, (word ++ after).
    split; [reflexivity|].
    apply (sqlLike_plain_word word (str "%") _ Hplain).
    exists after. split; [reflexivity|apply sqlLike_percent_only].
Qed.

Lemma toUpperByte_plain (c : ascii) :
  c <> "%"%char /\ c <> "_"%char /\ c <> "\"%char ->
  Strings.toUpperByte c <> "%"%char /\ Strings.toUpperByte c <> "_"%char /\
  Strings.toUpperByte c <> "\"%char.
Proof.
  destruct c as [[] [] [] [] [] [] [] []]; intros (H1 & H2 & H3);
    repeat split; solve [discriminate | assumption].
Qed.

Lemma sqlUpper_plain (word : gostring) :
  plainWord word -> plainWord (sqlUpper word).
Proof.
  unfold plainWord, sqlUpper, Strings.ToUpper. intros H.
  apply Forall_map. eapply Forall_impl; [|exact H].
  apply toUpperByte_plain.
Qed.

Lemma sqlUpper_app (a b : gostring) :
  sqlUpper (a ++ b) = sqlUpper a ++ sqlUpper b.
Proof. apply map_app. Qed.

(** [UPPER(text) LIKE UPPER(%word%)] is the case-insensitive substring
    test, for a plain word. *)
Lemma like_upper_contains (word text : gostring) :
  plainWord word ->
  (sqlLike (sqlUpper (str "%" ++ word ++ str "%")) (sqlUpper text) = true <->
   Spec.containsFold text word).
Proof.
  intros Hplain. rewrite !sqlUpper_app.
  change (sqlUpper (str "%")) with (str "%").
  apply sqlLike_contains. now apply sqlUpper_plain.
Qed.

(** [text LIKE %word%], with the case kept, implies it. *)
Lemma like_contains (word text : gostring) :
  plainWord word ->
  sqlLike (str "%" ++ word ++ str "%") text = true ->
  Spec.containsFold text word.
Proof.
  intros Hplain H. apply (sqlLike_contains _ _ Hplain) in H.
  destruct H as (before & after & ->).
  exists (sqlUpper before), (sqlUpper after). now rewrite !sqlUpper_app.
Qed.

End LikeFacts.

Section ClauseFacts.

Variable st : Store.

Lemma leftJoin_Some {A B : Type} (on : A -> B -> bool)
  (l : list A) (r : list B) (a : A) (b : B) :
  In a l -> In b r -> on a b = true -> In (a, Some b) (leftJoin on l r).
Proof.
  intros Ha Hb Hon. unfold leftJoin. apply in_flat_map. exists a.
  split; [exact Ha|].
  assert (Hin : In b (filter (on a) r)) by (apply filter_In; auto).
  destruct (filter (on a) r) as [|b0 bs]; [destruct Hin|].
  now apply (in_map (fun b => (a, Some b))).
Qed.

Lemma ownerRows_In (w : gostring) (p : Photo) :
  In p (ownerRows st w) <->
  exists row u,
    In row (photos st) /\ p = photoRow row /\ ownerOf st row u /\
    Spec.equalFold (User_Name u) w.
Proof.
  unfold ownerRows, ownerOf, Spec.equalFold. rewrite in_map_iff. split.
  - intros ([row u] & <- & H). apply filter_In in H. destruct H as [H E].
    apply innerJoin_In in H. destruct H as (Hrow & Hu & Hon).
    apply Z.eqb_eq in Hon. apply gostring_eqb_eq in E. simpl in *.
    exists row, u. auto.
  - intros (row & u & Hrow & -> & (Hu & Hid) & E). exists (row, u).
    split; [reflexivity|]. apply filter_In. split.
    + apply innerJoin_In. rewrite Hid, Z.eqb_refl. auto.
    + simpl. now apply gostring_eqb_eq.
Qed.

Lemma tagRows_In (w : gostring) (p : Photo) :
  In p (tagRows st w) <->
  exists row t,
    In row (photos st) /\ p = photoRow row /\ tagOf st row t /\
    Spec.equalFold (Tag_Name t) w.
Proof.
  unfold tagRows, tagOf, Spec.equalFold. rewrite in_map_iff. split.
  - intros ([[row [pid tid]] t] & <- & H). apply filter_In in H.
    destruct H as [H E]. apply innerJoin_In in H.
    destruct H as (Hppt & Ht & Hon). apply innerJoin_In in Hppt.
    destruct Hppt as (Hrow & Hpt & Hon'). simpl in *.
    apply Z.eqb_eq in Hon, Hon'. apply gostring_eqb_eq in E. subst.
    exists row, t. auto.
  - intros (row & t & Hrow & -> & (Ht & Hpt) & E).
    exists (row, (Photo_ID row, Tag_ID t), t).
    split; [reflexivity|]. apply filter_In. split.
    + apply innerJoin_In. simpl. rewrite Z.eqb_refl.
      split; [|auto]. apply innerJoin_In. simpl. rewrite Z.eqb_refl. auto.
    + simpl. now apply gostring_eqb_eq.
Qed.

(** The rows of the text clause, with the store's [LIKE] as it is. *)
Lemma textRows_In (w : gostring) (p : Photo) :
  In p (textRows st w) <->
  exists row u,
    In row (photos st) /\ p = photoRow row /\ ownerOf st row u /\
    (sqlLike (sqlUpper w) (sqlUpper (Photo_Title row)) = true \/
     sqlLike (sqlUpper w) (sqlUpper (User_Name u)) = true \/
     exists t, tagOf st row t /\ sqlLike w (Tag_Name t) = true).
Proof.
  unfold textRows, ownerOf, tagOf. rewrite distinct_In, in_map_iff. split.
  - intros ([[[row u] opt] ot] & <- & H). apply filter_In in H.
    destruct H as [H Hw]. apply leftJoin_In in H. destruct H as [H Ht].
    apply leftJoin_In in H. destruct H as [H Hpt].
    apply innerJoin_In in H. destruct H as (Hrow & Hu & Hon).
    apply Z.eqb_eq in Hon. simpl in *.
    exists row, u. split; [exact Hrow|]. split; [reflexivity|].
    split; [auto|].
    apply orb_true_iff in Hw. destruct Hw as [Hw|Hw];
      [apply orb_true_iff in Hw; tauto|].
    right. right. destruct ot as [t|]; [|discriminate].
    destruct Ht as [Ht Hont]. destruct opt as [[pid tid]|]; [|discriminate].
    destruct Hpt as [Hpt Honp]. simpl in *.
    apply Z.eqb_eq in Hont, Honp. subst. exists t. auto.
  - intros (row & u & Hrow & -> & (Hu & Hid) & Hw).
    assert (Hpu : In (row, u)
                    (innerJoin (fun p u => User_ID u =? Photo_OwnerID p)
                       (photos st) (users st))).
    { apply innerJoin_In. rewrite Hid, Z.eqb_refl. auto. }
    set (onPt := fun (pu : Photo * User) (pt : Z * Z) =>
                   fst pt =? Photo_ID (fst pu)).
    set (onT := fun (row : Photo * User * option (Z * Z)) (t : Tag) =>
                  match snd row with
                  | Some pt => snd pt =? Tag_ID t
                  | None => false
                  end).
    destruct Hw as [Hw|[Hw|(t & (Ht & Hpt) & Hw)]].
    + destruct (leftJoin_total onPt _ (photo_tags st) _ Hpu) as [opt Hopt].
      destruct (leftJoin_total onT _ (tags st) _ Hopt) as [ot Hot].
      exists (row, u, opt, ot). split; [reflexivity|].
      apply filter_In. split; [exact Hot|]. simpl. now rewrite Hw.
    + destruct (leftJoin_total onPt _ (photo_tags st) _ Hpu) as [opt Hopt].
      destruct (leftJoin_total onT _ (tags st) _ Hopt) as [ot Hot].
      exists (row, u, opt, ot). split; [reflexivity|].
      apply filter_In. split; [exact Hot|]. simpl. rewrite Hw.
      now rewrite orb_true_r.
    + exists (row, u, Some (Photo_ID row, Tag_ID t), Some t).
      split; [reflexivity|]. apply filter_In. split.
      * apply leftJoin_Some; [|exact Ht|unfold onT; simpl; apply Z.eqb_refl].
        apply leftJoin_Some; [exact Hpu|exact Hpt|].
        unfold onPt. simpl. apply Z.eqb_refl.
      * simpl. rewrite Hw. now rewrite !orb_true_r.
Qed.

Lemma allClauseRows_run (words : list gostring) (before : list gostring) :
  allClauseRows st (before ++ map wordParam words)
    (clausesFrom (Z.of_nat (List.length before)) words)
  = Ok (map (wordRows st) words).
Proof.
  revert before. induction words as [|w words IH]; intros before;
    [reflexivity|].
  cbn [clausesFrom map allClauseRows]. unfold clauseRows at 1.
  cbn [cl_num cl_kind].
  replace (Z.to_nat (Z.of_nat (List.length before) + 1 - 1))
    with (List.length before) by lia.
  rewrite nth_error_app2 by apply Nat.le_refl.
  rewrite Nat.sub_diag. cbn [nth_error].
  specialize (IH (before ++ [wordParam w])).
  rewrite <- app_assoc in IH. cbn [app] in IH.
  rewrite length_app in IH. cbn [List.length] in IH.
  replace (Z.of_nat (List.length before + 1))
    with (Z.of_nat (List.length before) + 1) in IH by lia.
  now rewrite IH.
Qed.

Lemma survivingWords_eq (q : gostring) :
  survivingWords q = firstn 7 (queryWords q).
Proof.
  unfold survivingWords. rewrite compileQuery_run. cbn [fst].
  rewrite clausesFrom_length, length_firstn.
  destruct (Nat.le_ge_cases 7 (List.length (queryWords q))) as [H|H].
  - now rewrite Nat.min_l.
  - rewrite Nat.min_r by exact H. rewrite firstn_all.
    now rewrite firstn_all2.
Qed.

Lemma compileQuery_surviving (q : gostring) :
  compileQuery q =
  (clausesFrom 0 (survivingWords q), map wordParam (survivingWords q)).
Proof. rewrite survivingWords_eq. apply compileQuery_run. Qed.

(** The candidate rows of a query are the intersection of the rows of its
    surviving words. *)
Lemma candidates_compiled (q : gostring) :
  candidates st (fst (compileQuery q)) (snd (compileQuery q)) =
  intersectAll (map (wordRows st) (survivingWords q)).
Proof.
  rewrite compileQuery_surviving. cbn [fst snd]. unfold candidates.
  pose proof (allClauseRows_run (survivingWords q) []) as H.
  change (allClauseRows st (map wordParam (survivingWords q))
            (clausesFrom 0 (survivingWords q))
          = Ok (map (wordRows st) (survivingWords q))) in H.
  now rewrite H.
Qed.

End ClauseFacts.

(** C3, the claim as stated fails: a word that is neither an owner nor a tag
    word is a [LIKE] pattern, not a substring.  The query [s_n] returns the
    photo titled "Sunset", although "s_n" is not a substring, in any case,
    of its title, of its owner's name or of a tag name. *)
Lemma search_word_is_a_pattern :
  let alice := mkUser 1 0 (str "alice") (str "h1") (str "alice@example.org")
                 (str "{}") false true None false in
  let photo := mkPhoto 9 1 100 (str "Sunset") (str "f.jpg") [] 0 0 in
  let st := mkStore [alice] [photo] [mkTag 1 (str "sky")] [(9, 1)] in
  (exists found,
     Search st 1 (str "s_n") = Ok (Some found) /\
     List_Items found = [photo]) /\
  ~ Spec.containsFold (Photo_Title photo) (str "s_n") /\
  ~ Spec.containsFold (User_Name alice) (str "s_n") /\
  ~ Spec.containsFold (str "sky") (str "s_n").
Proof.
  intros alice photo st. split; [|split; [|split]].
  - eexists. split; [vm_compute; reflexivity|reflexivity].
  - unfold Spec.containsFold. refute_infix.
  - unfold Spec.containsFold. refute_infix.
  - unfold Spec.containsFold. refute_infix.
Qed.

(** C3, amended: for every non-empty query the candidate rows of Search are
    the intersection of the candidate rows of its surviving words: a photo
    is a candidate iff it is in the rows of every surviving word (never the
    union); the total is their number and every photo of the page returned
    is a candidate; a query without a surviving word is an error of the
    store.  The rows of a word: for [@name], the photos of an owner whose
    name equals the name ignoring case; for [#name], the photos with a tag
    whose name equals the name ignoring case; for any other word free of
    the LIKE operators (percent, underscore, backslash), every photo whose
    title or owner name contains the word ignoring case or one of whose
    tag names contains the word as it is written, and only photos whose
    title, owner name or a tag name contains it ignoring case. *)
Theorem search_intersects_clauses (st : Store) (pageNum : Z) (q : gostring) :
  q <> [] ->
  let words := survivingWords q in
  (words = [] -> Search st pageNum q = Failed) /\
  (words <> [] ->
   exists rows found,
     candidates st (fst (compileQuery q)) (snd (compileQuery q)) = Ok rows /\
     Search st pageNum q = Ok (Some found) /\
     List_Total found = Z.of_nat (List.length rows) /\
     (forall p, In p (List_Items found) -> In p rows) /\
     (forall p, In p rows <->
        forall word, In word words -> In p (wordRows st word))) /\
  (forall name p,
     In p (wordRows st ("@"%char :: name)) <->
     exists row u,
       In row (photos st) /\ p = photoRow row /\ ownerOf st row u /\
       Spec.equalFold (User_Name u) name) /\
  (forall name p,
     In p (wordRows st ("#"%char :: name)) <->
     exists row t,
       In row (photos st) /\ p = photoRow row /\ tagOf st row t /\
       Spec.equalFold (Tag_Name t) name) /\
  (forall word,
     Strings.HasPrefix word "@"%char = false ->
     Strings.HasPrefix word "#"%char = false ->
     plainWord word ->
     (forall row u,
        In row (photos st) -> ownerOf st row u ->
        Spec.containsFold (Photo_Title row) word \/
        Spec.containsFold (User_Name u) word \/
        (exists t before after,
           tagOf st row t /\ Tag_Name t = before ++ word ++ after) ->
        In (photoRow row) (wordRows st word)) /\
     (forall p,
        In p (wordRows st word) ->
        exists row u,
          In row (photos st) /\ p = photoRow row /\ ownerOf st row u /\
          (Spec.containsFold (Photo_Title row) word \/
           Spec.containsFold (User_Name u) word \/
           exists t, tagOf st row t /\ Spec.containsFold (Tag_Name t) word))).
Proof.
  intros Hq words.
  assert (Hsearch :
    Search st pageNum q =
    match intersectAll (map (wordRows st) words) with
    | Failed => Failed
    | Ok rows =>
        Ok (Some (NewPhotoList
                    (limitOffset pageSize (getOffset pageNum) (orderByScore rows))
                    (Z.of_nat (List.length rows)) pageNum))
    end).
  { unfold words. clear words.
    unfold Search. destruct q as [|c q]; [now elim Hq|]. cbn [isEmptyString].
    rewrite <- (candidates_compiled st (c :: q)).
    now destruct (compileQuery (c :: q)) as [clauses params]. }
  split; [|split; [|split; [|split]]].
  - intros E. rewrite Hsearch, E. reflexivity.
  - intros Hne. rewrite (candidates_compiled st q), Hsearch. fold words.
    destruct (map (wordRows st) words) as [|first rest] eqn:E.
    { apply map_eq_nil in E. contradiction. }
    cbn [intersectAll].
    exists (fold_left intersect rest first).
    exists (NewPhotoList
              (limitOffset pageSize (getOffset pageNum)
                 (orderByScore (fold_left intersect rest first)))
              (Z.of_nat (List.length (fold_left intersect rest first)))
              pageNum).
    split; [reflexivity|]. split; [reflexivity|].
    unfold NewPhotoList. cbn [List_Total List_Items].
    split; [reflexivity|]. split.
    + intros p Hp.
      apply limitOffset_In in Hp. now apply (orderByScore_In p).
    + intros p. rewrite intersect_all_In. split.
      * intros [H1 H2] word Hword.
        assert (Hin : In (wordRows st word) (first :: rest))
          by (rewrite <- E; now apply in_map).
        destruct Hin as [<-|Hin]; auto.
      * intros H. split.
        -- destruct (survivingWords q) as [|w ws] eqn:Ew;
             [now elim Hne|].
           unfold words in E. cbn [map] in E.
           injection E as <- _. apply H. unfold words. now left.
        -- intros rows Hrows.
           assert (Hin : In rows (map (wordRows st) words))
             by (rewrite E; now right).
           apply in_map_iff in Hin. destruct Hin as (word & <- & Hword).
           now apply H.
  - intros name p. apply ownerRows_In.
  - intros name p. apply tagRows_In.
  - intros word Hat Hhash Hplain.
    assert (Erows : wordRows st word
                    = textRows st (str "%" ++ word ++ str "%")).
    { unfold wordRows, wordKind, wordParam. now rewrite Hat, Hhash. }
    rewrite Erows. split.
    + intros row u Hrow Hown Hmatch. apply textRows_In.
      exists row, u. split; [exact Hrow|]. split; [reflexivity|].
      split; [exact Hown|].
      destruct Hmatch as [H|[H|(t & before & after & Ht & H)]];
        [left|right; left|right; right].
      * now apply like_upper_contains.
      * now apply like_upper_contains.
      * exists t. split; [exact Ht|].
        apply (sqlLike_contains word (Tag_Name t) Hplain). eauto.
    + intros p Hp. apply textRows_In in Hp.
      destruct Hp as (row & u & Hrow & -> & Hown & Hmatch).
      exists row, u. split; [exact Hrow|]. split; [reflexivity|].
      split; [exact Hown|].
      destruct Hmatch as [H|[H|(t & Ht & H)]].
      * left. now apply like_upper_contains.
      * right. left. now apply like_upper_contains.
      * right. right. exists t. split; [exact Ht|].
        now apply like_contains.
Qed.

Lemma search_intersects_clauses_witness :
  let alice := mkUser 1 0 (str "alice") (str "h1") (str "alice@example.org")
                 (str "{}") false true None false in
  let bob := mkUser 5 0 (str "bob") (str "h2") (str "bob@example.org")
               (str "{}") false true None false in
  let st := mkStore [alice; bob]
              [mkPhoto 9 1 100 (str "Sunset") (str "f.jpg") [] 0 0;
               mkPhoto 10 5 101 (str "Cat pic") (str "g.jpg") [] 3 0]
              [mkTag 1 (str "cats"); mkTag 2 (str "sky")]
              [(9, 2); (10, 1); (9, 1)] in
  let q := str "#cats @alice" in
  exists rows found,
    candidates st (fst (compileQuery q)) (snd (compileQuery q)) = Ok rows /\
    Search st 1 q = Ok (Some found) /\
    List_Total found = Z.of_nat (List.length rows) /\
    (forall p, In p (List_Items found) -> In p rows) /\
    (forall p, In p rows <->
       forall word, In word (survivingWords q) -> In p (wordRows st word)).
Proof.
  intros alice bob st q.
  assert (Hq : q <> []) by discriminate.
  destruct (search_intersects_clauses st 1 q Hq) as (_ & H & _).
  apply H. discriminate.
Defined.

(** The text clause compares tag names with the case kept: the query CATS
    does not find the photo tagged cats that the query cats finds. *)
Example search_tag_name_keeps_case :
  let alice := mkUser 1 0 (str "alice") (str "h1") (str "alice@example.org")
                 (str "{}") false true None false in
  let photo := mkPhoto 9 1 100 (str "Sunset") (str "f.jpg") [] 0 0 in
  let st := mkStore [alice] [photo] [mkTag 1 (str "cats")] [(9, 1)] in
  option_map (option_map List_Items) (match Search st 1 (str "cats") with
                                      | Ok found => Some found
                                      | Failed => None
                                      end) = Some (Some [photo]) /\
  option_map (option_map List_Items) (match Search st 1 (str "CATS") with
                                      | Ok found => Some found
                                      | Failed => None
                                      end) = Some (Some []).
Proof. split; vm_compute; reflexivity. Qed.

(** ** Pagination *)

Section Float64Facts.

Lemma digits2_pos_bounds (p : positive) :
  2 ^ (Zpos (digits2_pos p) - 1) <= Zpos p < 2 ^ Zpos (digits2_pos p).
Proof.
  induction p as [p IH|p IH|]; cbn [digits2_pos].
  - rewrite Pos2Z.inj_succ.
    replace (Z.succ (Zpos (digits2_pos p)) - 1) with (Z.succ (Zpos (digits2_pos p) - 1)) by lia.
    rewrite !Z.pow_succ_r by lia. lia.
  - rewrite Pos2Z.inj_succ.
    replace (Z.succ (Zpos (digits2_pos p)) - 1) with (Z.succ (Zpos (digits2_pos p) - 1)) by lia.
    rewrite !Z.pow_succ_r by lia. lia.
  - simpl. lia.
Qed.

Lemma digits2_pos_unique (p : positive) (k : Z) :
  2 ^ (k - 1) <= Zpos p < 2 ^ k -> 0 < k -> Zpos (digits2_pos p) = k.
Proof.
  intros [Hlo Hhi] Hk. pose proof (digits2_pos_bounds p) as [Blo Bhi].
  set (d := Zpos (digits2_pos p)) in *.
  destruct (Z.lt_trichotomy d k) as [H|[H|H]]; [|exact H|].
  - assert (2 ^ d <= 2 ^ (k - 1)) by (apply Z.pow_le_mono_r; lia). lia.
  - assert (2 ^ k <= 2 ^ (d - 1)) by (apply Z.pow_le_mono_r; lia). lia.
Qed.

Lemma iter_xO (p : positive) (k : positive) :
  Zpos (Pos.iter xO p k) = Zpos p * 2 ^ Zpos k.
Proof.
  revert p. induction k using Pos.peano_ind; intros p.
  - simpl. lia.
  - rewrite Pos.iter_succ, Pos2Z.inj_succ, Z.pow_succ_r by lia.
    rewrite Pos2Z.inj_xO, IHk. lia.
Qed.

Lemma fexp_normal (e : Z) : -1021 <= e -> fexp 53 1024 e = e - 53.
Proof. unfold fexp, emin. lia. Qed.

(** A 53-bit integer mantissa is kept as it is. *)
Lemma binary_round_aux_exact (m : positive) (e : Z) :
  Zpos (digits2_pos m) = 53 -> -1074 <= e <= 971 ->
  binary_round_aux 53 1024 false (Zpos m) e loc_Exact = S754_finite false m e.
Proof.
  intros Hd He. unfold binary_round_aux, shr_fexp. cbn [Zdigits2 shr_record_of_loc].
  rewrite Hd, fexp_normal by lia. replace (53 + e - 53 - e) with 0 by lia.
  cbn [shr shr_m loc_of_shr_record round_nearest_even Zdigits2].
  rewrite Hd, fexp_normal by lia. replace (53 + e - 53 - e) with 0 by lia.
  cbn [shr shr_m].
  replace (e <=? 1024 - 53) with true by (symmetry; apply Z.leb_le; lia).
  reflexivity.
Qed.

Lemma of_int_normal (T : Z) (d : Z) :
  2 ^ (d - 1) <= T < 2 ^ d -> 0 < d <= 53 ->
  Float64.of_int T = S754_finite false (Z.to_pos (T * 2 ^ (53 - d))) (d - 53).
Proof.
  intros HT Hd.
  assert (0 < T) by (assert (0 < 2 ^ (d - 1)) by (apply Z.pow_pos_nonneg; lia); lia).
  destruct T as [|p|p]; try lia.
  unfold Float64.of_int, binary_normalize, binary_round.
  rewrite (digits2_pos_unique p d HT) by lia.
  unfold Float64.prec, Float64.emax.
  rewrite fexp_normal by lia. unfold shl_align.
  replace (d + 0 - 53 - 0) with (d - 53) by lia.
  destruct (d - 53) as [|k|k] eqn:Hk; try lia.
  - replace (53 - d) with 0 by lia. rewrite Z.mul_1_r. simpl Z.to_pos.
    apply binary_round_aux_exact; [|lia].
    replace 53 with d by lia. now apply digits2_pos_unique.
  - assert (E : 53 - d = Zpos k) by lia. rewrite E.
    replace (Z.to_pos (Zpos p * 2 ^ Zpos k)) with (Pos.iter xO p k).
    2:{ apply Pos2Z.inj. rewrite iter_xO. rewrite Z2Pos.id; [reflexivity|].
        apply Z.mul_pos_pos; [lia|apply Z.pow_pos_nonneg; lia]. }
    replace (d + 0 - 53) with (Zneg k) by lia.
    apply binary_round_aux_exact; [|lia].
    apply digits2_pos_unique; [|lia]. rewrite iter_xO, <- E.
    assert (Ha : 0 < 2 ^ (53 - d)) by (apply Z.pow_pos_nonneg; lia).
    assert (E1 : 2 ^ (53 - 1) = 2 ^ (d - 1) * 2 ^ (53 - d))
      by (rewrite <- Z.pow_add_r by lia; f_equal; lia).
    assert (E2 : 2 ^ 53 = 2 ^ d * 2 ^ (53 - d))
      by (rewrite <- Z.pow_add_r by lia; f_equal; lia).
    rewrite E1, E2. split.
    + apply Z.mul_le_mono_nonneg_r; lia.
    + apply Z.mul_lt_mono_pos_r; lia.
Qed.

Lemma of_int_12 : Float64.of_int 12 = S754_finite false twelve (-49).
Proof. reflexivity. Qed.

Lemma Zdiv_eucl_eq (a b : Z) : Z.div_eucl a b = (a / b, a mod b).
Proof. unfold Z.div, Z.modulo. now destruct (Z.div_eucl a b). Qed.

Lemma div_core_12 (m1 : positive) (e1 : Z) :
  Zpos (digits2_pos m1) = 53 -> -52 <= e1 <= 0 ->
  SFdiv_core_binary 53 1024 (Zpos m1) e1 (Zpos twelve) (-49) =
  ((4 * Zpos m1) / 3, e1 - 4, divLocation ((4 * Zpos m1) mod 3)).
Proof.
  intros Hd He. unfold SFdiv_core_binary.
  cbn [Zdigits2]. rewrite Hd.
  change (Zpos (digits2_pos twelve)) with 53.
  rewrite fexp_normal by lia.
  replace (Z.min (53 + e1 - (53 + -49) - 53) (e1 - -49)) with (e1 - 4) by lia.
  replace (e1 - -49 - (e1 - 4)) with 53 by lia.
  rewrite Zdiv_eucl_eq, Z.shiftl_mul_pow2 by lia.
  set (N := Zpos m1).
  pose proof (Z.div_mod (4 * N) 3 ltac:(lia)) as Hdm.
  pose proof (Z.mod_pos_bound (4 * N) 3 ltac:(lia)) as Hb.
  set (q := 4 * N / 3) in *. set (rho := (4 * N) mod 3) in *.
  assert (Eq : N * 2 ^ 53 / Zpos twelve = q).
  { symmetry. apply Z.div_unique with (2 ^ 51 * rho).
    - left. unfold twelve. change (2 ^ 51) with 2251799813685248. lia.
    - unfold twelve. change (2 ^ 53) with 9007199254740992.
      change (2 ^ 51) with 2251799813685248. lia. }
  assert (Er : (N * 2 ^ 53) mod Zpos twelve = 2 ^ 51 * rho).
  { symmetry. apply Z.mod_unique with q.
    - left. unfold twelve. change (2 ^ 51) with 2251799813685248. lia.
    - unfold twelve. change (2 ^ 53) with 9007199254740992.
      change (2 ^ 51) with 2251799813685248. lia. }
  rewrite Eq, Er. f_equal.
  unfold new_location. change (Z.even (Zpos twelve)) with true. cbv iota.
  unfold new_location_even, divLocation.
  assert (Hrho : rho = 0 \/ rho = 1 \/ rho = 2) by lia.
  destruct Hrho as [-> | [-> | ->]]; reflexivity.
Qed.

Lemma loc_of_record_of_loc (m : Z) (l : location) :
  loc_of_shr_record (shr_record_of_loc m l) = l.
Proof. now destruct l as [|[]]. Qed.

Lemma shr_m_record_of_loc (m : Z) (l : location) :
  shr_m (shr_record_of_loc m l) = m.
Proof. now destruct l as [|[]]. Qed.

Lemma Zdigits2_unique (q k : Z) :
  2 ^ (k - 1) <= q < 2 ^ k -> 0 < k -> Zdigits2 q = k.
Proof.
  intros Hq Hk.
  assert (0 < q) by (assert (0 < 2 ^ (k - 1)) by (apply Z.pow_pos_nonneg; lia); lia).
  destruct q as [|p|p]; try lia. now apply digits2_pos_unique.
Qed.

Lemma round_nearest_even_bounds (m : Z) (l : location) :
  m <= round_nearest_even m l <= m + 1.
Proof. destruct l as [|[]]; simpl; try lia. destruct (Z.even m); lia. Qed.

Lemma finish_53 (M e : Z) :
  2 ^ 52 <= M < 2 ^ 53 -> -1074 <= e <= 971 ->
  (let '(mrs, e') := shr_fexp 53 1024 M e loc_Exact in
   match shr_m mrs with
   | Z0 => S754_zero false
   | Zpos m => if e' <=? 1024 - 53 then S754_finite false m e' else S754_infinity false
   | Zneg _ => S754_nan
   end) = S754_finite false (Z.to_pos M) e.
Proof.
  intros HM He. unfold shr_fexp.
  rewrite (Zdigits2_unique M 53) by (change (53 - 1) with 52; lia).
  rewrite fexp_normal by lia. replace (53 + e - 53 - e) with 0 by lia.
  cbn [shr shr_record_of_loc shr_m].
  assert (0 < M) by (change (2 ^ 52) with 4503599627370496 in HM; lia).
  destruct M as [|m|m]; try lia.
  replace (e <=? 1024 - 53) with true by (symmetry; apply Z.leb_le; lia).
  reflexivity.
Qed.

(** The quotient has 53 bits: rounded where it stands. *)
Lemma round_aux_53 (q e : Z) (l : location) :
  2 ^ 52 <= q < 2 ^ 53 -> -1074 <= e <= 971 ->
  round_nearest_even q l < 2 ^ 53 ->
  binary_round_aux 53 1024 false q e l =
  S754_finite false (Z.to_pos (round_nearest_even q l)) e.
Proof.
  intros Hq He HM. unfold binary_round_aux.
  unfold shr_fexp at 1.
  rewrite (Zdigits2_unique q 53) by (change (53 - 1) with 52; lia).
  rewrite fexp_normal by lia. replace (53 + e - 53 - e) with 0 by lia.
  cbn [shr]. rewrite loc_of_record_of_loc, shr_m_record_of_loc.
  apply finish_53; [|exact He].
  pose proof (round_nearest_even_bounds q l). lia.
Qed.

Lemma shr_1_m (m : Z) (r s : bool) :
  0 < m ->
  shr_1 (Build_shr_record m r s) = Build_shr_record (m / 2) (Z.odd m) (r || s).
Proof.
  intros Hm. destruct m as [|[p|p|]|]; try lia; cbn [shr_1 Z.odd].
  - f_equal. symmetry. rewrite Pos2Z.inj_xI.
    rewrite Z.add_comm, Z.mul_comm, Z.div_add by lia. reflexivity.
  - f_equal. symmetry. rewrite Pos2Z.inj_xO, Z.mul_comm.
    apply Z.div_mul. lia.
  - reflexivity.
Qed.

(** The quotient has 54 bits: one bit is shifted out before rounding. *)
Lemma round_aux_54 (q e : Z) (l : location) :
  2 ^ 53 <= q < 2 ^ 54 -> -1074 <= e <= 970 ->
  let l' := loc_of_shr_record (shr_1 (shr_record_of_loc q l)) in
  round_nearest_even (q / 2) l' < 2 ^ 53 ->
  binary_round_aux 53 1024 false q e l =
  S754_finite false (Z.to_pos (round_nearest_even (q / 2) l')) (e + 1).
Proof.
  intros Hq He l' HM. unfold binary_round_aux.
  unfold shr_fexp at 1.
  rewrite (Zdigits2_unique q 54) by (change (54 - 1) with 53; lia).
  rewrite fexp_normal by lia. replace (54 + e - 53 - e) with 1 by lia.
  cbn [shr iter_pos]. fold l'.
  assert (Em : shr_m (shr_1 (shr_record_of_loc q l)) = q / 2).
  { assert (0 < q) by (change (2 ^ 53) with 9007199254740992 in Hq; lia).
    destruct l as [|[]]; cbn [shr_record_of_loc]; now rewrite shr_1_m. }
  rewrite Em.
  apply finish_53; [|lia].
  pose proof (round_nearest_even_bounds (q / 2) l').
  assert (2 ^ 52 <= q / 2).
  { apply Z.div_le_lower_bound; [lia|]. change (2 ^ 53) with (2 * 2 ^ 52) in Hq. lia. }
  lia.
Qed.

Lemma round_divLocation (q rho : Z) :
  0 <= rho < 3 ->
  round_nearest_even q (divLocation rho) = if rho =? 2 then q + 1 else q.
Proof.
  intros H. assert (Hrho : rho = 0 \/ rho = 1 \/ rho = 2) by lia.
  destruct Hrho as [-> | [-> | ->]]; reflexivity.
Qed.

Lemma round_shifted (q rho : Z) :
  0 < q -> 0 <= rho < 3 ->
  let M := round_nearest_even (q / 2)
             (loc_of_shr_record (shr_1 (shr_record_of_loc q (divLocation rho)))) in
  -3 <= 6 * M - (3 * q + rho) <= 3 /\ M <= q / 2 + 1.
Proof.
  intros Hq H M.
  pose proof (Z.div2_odd q) as Hodd. rewrite Z.div2_div in Hodd.
  pose proof (round_nearest_even_bounds (q / 2)
             (loc_of_shr_record (shr_1 (shr_record_of_loc q (divLocation rho)))))
    as Hb. fold M in Hb.
  split; [|lia].
  assert (Hrho : rho = 0 \/ rho = 1 \/ rho = 2) by lia.
  subst M.
  destruct Hrho as [-> | [-> | ->]];
    [change (divLocation 0) with loc_Exact
    |change (divLocation 1) with (loc_Inexact Lt)
    |change (divLocation 2) with (loc_Inexact Gt)];
    cbn [shr_record_of_loc] in *;
    rewrite shr_1_m in * by exact Hq; cbn [orb loc_of_shr_record] in *;
    destruct (Z.odd q); cbn [Z.b2z loc_of_shr_record round_nearest_even] in *;
    try lia; destruct (Z.even (q / 2)); lia.
Qed.

(** Division of a 53-bit double by twelve: the result is within half a unit
    in the last place of the quotient. *)
Lemma div_12_close (m1 : positive) (e1 : Z) :
  Zpos (digits2_pos m1) = 53 -> -52 <= e1 <= 0 ->
  exists M,
    (Float64.div (S754_finite false m1 e1) (Float64.of_int 12)
       = S754_finite false M (e1 - 4) /\
     -1 <= 3 * Zpos M - 4 * Zpos m1 <= 1) \/
    (Float64.div (S754_finite false m1 e1) (Float64.of_int 12)
       = S754_finite false M (e1 - 3) /\
     -3 <= 6 * Zpos M - 4 * Zpos m1 <= 3).
Proof.
  intros Hd He. rewrite of_int_12. unfold Float64.div, SFdiv.
  change Float64.prec with 53. change Float64.emax with 1024.
  rewrite (div_core_12 m1 e1 Hd He). cbn [xorb].
  pose proof (digits2_pos_bounds m1) as HN. rewrite Hd in HN.
  change (2 ^ (53 - 1)) with 4503599627370496 in HN.
  change (2 ^ 53) with 9007199254740992 in HN.
  set (N := Zpos m1) in *.
  pose proof (Z.div_mod (4 * N) 3 ltac:(lia)) as Hdm.
  pose proof (Z.mod_pos_bound (4 * N) 3 ltac:(lia)) as Hb.
  set (q := 4 * N / 3) in *. set (rho := (4 * N) mod 3) in *.
  destruct (Z.lt_ge_cases q (2 ^ 53)) as [Hq|Hq].
  - change (2 ^ 53) with 9007199254740992 in Hq.
    assert (HM : round_nearest_even q (divLocation rho) < 2 ^ 53).
    { rewrite round_divLocation by lia. change (2 ^ 53) with 9007199254740992.
      destruct (Z.eqb_spec rho 2); lia. }
    exists (Z.to_pos (round_nearest_even q (divLocation rho))). left.
    split.
    + apply round_aux_53; [|lia|exact HM].
      change (2 ^ 52) with 4503599627370496.
      change (2 ^ 53) with 9007199254740992. lia.
    + rewrite Z2Pos.id.
      * rewrite round_divLocation by lia. destruct (Z.eqb_spec rho 2); lia.
      * pose proof (round_nearest_even_bounds q (divLocation rho)). lia.
  - change (2 ^ 53) with 9007199254740992 in Hq.
    destruct (round_shifted q rho ltac:(lia) Hb) as [Hclose Hle].
    set (M := round_nearest_even (q / 2)
                (loc_of_shr_record
                   (shr_1 (shr_record_of_loc q (divLocation rho))))) in *.
    assert (Hhalf : q / 2 <= 6004799503160661).
    { apply Z.div_le_upper_bound; lia. }
    assert (Hhalf' : 4503599627370496 <= q / 2).
    { apply Z.div_le_lower_bound; lia. }
    pose proof (round_nearest_even_bounds (q / 2)
                  (loc_of_shr_record
                     (shr_1 (shr_record_of_loc q (divLocation rho))))) as HbM.
    fold M in HbM.
    exists (Z.to_pos M). right. split.
    + replace (e1 - 3) with (e1 - 4 + 1) by lia.
      apply round_aux_54; [| lia |].
      * change (2 ^ 53) with 9007199254740992.
        change (2 ^ 54) with 18014398509481984. lia.
      * fold M. change (2 ^ 53) with 9007199254740992. lia.
    + rewrite Z2Pos.id by lia. lia.
Qed.

Lemma ceil_close (M T P eta c : Z) :
  8 <= P -> 12 * M = T * P + eta -> -6 <= eta <= 6 ->
  12 * (c - 1) < T <= 12 * c ->
  - ((- M) / P) = c.
Proof.
  intros HP HM Heta Hc.
  assert (Hup : M <= c * P).
  { destruct (Z.eq_dec T (12 * c)) as [E|E].
    - subst T. assert (eta = 12 * (M - c * P)) by lia. lia.
    - assert (T * P <= (12 * c - 1) * P) by (apply Z.mul_le_mono_nonneg_r; lia).
      lia. }
  assert (Hlo : (c - 1) * P < M).
  { assert ((12 * (c - 1) + 1) * P <= T * P)
      by (apply Z.mul_le_mono_nonneg_r; lia). lia. }
  assert (E : (- M) / P = - c).
  { symmetry. apply Z.div_unique with (c * P - M); [left|]; lia. }
  lia.
Qed.

Lemma log2_digits (T : Z) :
  0 < T -> 2 ^ (Z.log2 T + 1 - 1) <= T < 2 ^ (Z.log2 T + 1).
Proof.
  intros H. replace (Z.log2 T + 1 - 1) with (Z.log2 T) by lia.
  replace (Z.log2 T + 1) with (Z.succ (Z.log2 T)) by lia.
  now apply Z.log2_spec.
Qed.

Lemma log2_digits_53 (T : Z) :
  0 < T < 2 ^ 53 -> 0 < Z.log2 T + 1 <= 53.
Proof.
  intros [H1 H2]. pose proof (Z.log2_nonneg T).
  apply Z.log2_lt_pow2 in H2; lia.
Qed.

Lemma scaled_53 (T d : Z) :
  2 ^ (d - 1) <= T < 2 ^ d -> 0 < d <= 53 ->
  2 ^ 52 <= T * 2 ^ (53 - d) < 2 ^ 53.
Proof.
  intros HT Hd.
  assert (Ha : 0 < 2 ^ (53 - d)) by (apply Z.pow_pos_nonneg; lia).
  assert (E1 : 2 ^ 52 = 2 ^ (d - 1) * 2 ^ (53 - d))
    by (rewrite <- Z.pow_add_r by lia; f_equal; lia).
  assert (E2 : 2 ^ 53 = 2 ^ d * 2 ^ (53 - d))
    by (rewrite <- Z.pow_add_r by lia; f_equal; lia).
  rewrite E1, E2. split.
  - apply Z.mul_le_mono_nonneg_r; lia.
  - apply Z.mul_lt_mono_pos_r; lia.
Qed.

Lemma to_int64_of_int (c : Z) :
  0 < c < 2 ^ 53 -> Float64.to_int64 (Float64.of_int c) = c.
Proof.
  intros Hc. set (d := Z.log2 c + 1).
  pose proof (log2_digits c ltac:(lia)) as Hb. fold d in Hb.
  pose proof (log2_digits_53 c Hc) as Hd. fold d in Hd.
  rewrite (of_int_normal c d Hb Hd). unfold Float64.to_int64.
  pose proof (scaled_53 c d Hb Hd) as Hs.
  assert (Ha : 0 < 2 ^ (53 - d)) by (apply Z.pow_pos_nonneg; lia).
  assert (Hpos : 0 < c * 2 ^ (53 - d)) by (apply Z.mul_pos_pos; lia).
  assert (Emag :
    match d - 53 with
    | 0 => Z.pos (Z.to_pos (c * 2 ^ (53 - d)))
    | Z.pos _ => Z.pos (Z.to_pos (c * 2 ^ (53 - d))) * 2 ^ (d - 53)
    | Z.neg _ => Z.pos (Z.to_pos (c * 2 ^ (53 - d))) / 2 ^ (- (d - 53))
    end = c).
  { rewrite Z2Pos.id by exact Hpos.
    destruct (d - 53) as [|k|k] eqn:Hk; try lia.
    - replace (53 - d) with 0 by lia. simpl. lia.
    - replace (- Z.neg k) with (53 - d) by lia. apply Z.div_mul. lia. }
  rewrite Emag.
  replace (Int64.in_rangeb c) with true; [reflexivity|].
  symmetry. unfold Int64.in_rangeb, Int64.min_int, Int64.max_int.
  change (2 ^ 53) with 9007199254740992 in Hc.
  change (2 ^ 63) with 9223372036854775808.
  apply andb_true_iff. split; apply Z.leb_le; lia.
Qed.

Lemma numPages_small (T : Z) :
  0 < T < 2 ^ 53 ->
  Float64.to_int64
    (Float64.Ceil (Float64.div (Float64.of_int T) (Float64.of_int 12)))
  = (T + 11) / 12.
Proof.
  intros HT. set (d := Z.log2 T + 1).
  pose proof (log2_digits T ltac:(lia)) as Hb. fold d in Hb.
  pose proof (log2_digits_53 T HT) as Hd. fold d in Hd.
  rewrite (of_int_normal T d Hb Hd).
  pose proof (scaled_53 T d Hb Hd) as Hs.
  set (a := 2 ^ (53 - d)) in *.
  assert (Ha : 0 < a) by (apply Z.pow_pos_nonneg; lia).
  assert (Hpos : 0 < T * a) by (apply Z.mul_pos_pos; lia).
  assert (Hdig : Zpos (digits2_pos (Z.to_pos (T * a))) = 53).
  { apply digits2_pos_unique; [|lia]. rewrite Z2Pos.id by exact Hpos.
    exact Hs. }
  set (c := (T + 11) / 12).
  assert (Hc : 12 * (c - 1) < T <= 12 * c).
  { pose proof (Z.div_mod (T + 11) 12 ltac:(lia)).
    pose proof (Z.mod_pos_bound (T + 11) 12 ltac:(lia)). fold c in H. lia. }
  assert (Hc' : 0 < c < 2 ^ 53).
  { change (2 ^ 53) with 9007199254740992 in *. lia. }
  destruct (div_12_close (Z.to_pos (T * a)) (d - 53) Hdig ltac:(lia))
    as [M [[-> Hclose]|[-> Hclose]]];
    rewrite Z2Pos.id in Hclose by exact Hpos;
    unfold Float64.Ceil; fold (Float64.of_int (Float64.ceilZ false M (d - 53 - 4)));
    fold (Float64.of_int (Float64.ceilZ false M (d - 53 - 3))).
  - assert (E : Float64.ceilZ false M (d - 53 - 4) = c).
    { unfold Float64.ceilZ. destruct (d - 53 - 4) as [|k|k] eqn:Hk; try lia.
      change (- Z.pos M) with (- (Z.pos M)).
      apply ceil_close with (T := T) (eta := 4 * (3 * Z.pos M - 4 * (T * a))).
      - replace (- Z.neg k) with ((53 - d) + 4) by lia.
        rewrite Z.pow_add_r by lia. fold a. lia.
      - replace (- Z.neg k) with ((53 - d) + 4) by lia.
        rewrite Z.pow_add_r by lia. fold a. change (2 ^ 4) with 16. lia.
      - lia.
      - exact Hc. }
    rewrite E. now apply to_int64_of_int.
  - assert (E : Float64.ceilZ false M (d - 53 - 3) = c).
    { unfold Float64.ceilZ. destruct (d - 53 - 3) as [|k|k] eqn:Hk; try lia.
      change (- Z.pos M) with (- (Z.pos M)).
      apply ceil_close with (T := T) (eta := 2 * (6 * Z.pos M - 4 * (T * a))).
      - replace (- Z.neg k) with ((53 - d) + 3) by lia.
        rewrite Z.pow_add_r by lia. fold a. lia.
      - replace (- Z.neg k) with ((53 - d) + 3) by lia.
        rewrite Z.pow_add_r by lia. fold a. change (2 ^ 3) with 8. lia.
      - lia.
      - exact Hc. }
    rewrite E. now apply to_int64_of_int.
Qed.

End Float64Facts.

(** C5, the claim as stated fails at the ends of the 64-bit range: the
    offset of a negative page number can wrap around to a positive value,
    and a total above 2^53 is rounded when it is converted to a double. *)
Lemma pagination_out_of_range :
  getOffset (-768614336404564650) = 9223372036854775804 /\
  Spec.offset (-768614336404564650) = 0 /\
  List_NumPages (NewPhotoList [] 9007199254740997 1) = 750599937895083 /\
  Spec.numPages 9007199254740997 = 750599937895084.
Proof. repeat split. Qed.

(** C5, amended: for every total T with 0 <= T <= 2^53 and every page
    number, numPages = ceil(T / 12), so numPages = 0 when T = 0; and for
    every page number whose product (pageNumber - 1) * 12 is a 64-bit
    value, the slice offset is that product clamped to a minimum of 0, so
    page 1 has offset 0 and page 0 or a negative page number also yield
    offset 0. *)
Theorem pagination_in_range (items : list Photo) (total page : Z) :
  0 <= total <= 2 ^ 53 ->
  Int64.in_range ((page - 1) * 12) ->
  List_NumPages (NewPhotoList items total page) = Spec.numPages total /\
  12 * (List_NumPages (NewPhotoList items total page) - 1) < total
    <= 12 * List_NumPages (NewPhotoList items total page) /\
  (total = 0 -> List_NumPages (NewPhotoList items total page) = 0) /\
  getOffset page = Spec.offset page /\
  getOffset 1 = 0 /\
  (page <= 1 -> getOffset page = 0).
Proof.
  intros HT Hpage.
  assert (Hnum : List_NumPages (NewPhotoList items total page)
                 = Spec.numPages total).
  { unfold NewPhotoList, Spec.numPages, pageSize. cbn [List_NumPages].
    change (12 - 1) with 11.
    destruct (Z.eq_dec total 0) as [->|Hnz]; [reflexivity|].
    destruct (Z.eq_dec total (2 ^ 53)) as [->|Hmax]; [reflexivity|].
    apply numPages_small. lia. }
  assert (Hoff : getOffset page = Spec.offset page).
  { unfold getOffset, Spec.offset, pageSize, Int64.mul, Int64.sub, Int64.wrap.
    unfold Int64.in_range, Int64.min_int, Int64.max_int in Hpage.
    change (2 ^ 63) with 9223372036854775808 in *.
    change (2 ^ 64) with 18446744073709551616.
    rewrite (Z.mod_small (page - 1 + 9223372036854775808)) by lia.
    replace (page - 1 + 9223372036854775808 - 9223372036854775808)
      with (page - 1) by lia.
    rewrite Z.mod_small by lia.
    destruct (Z.ltb_spec ((page - 1) * 12 + 9223372036854775808
                          - 9223372036854775808) 0); lia. }
  rewrite Hnum, Hoff.
  unfold Spec.numPages, Spec.offset, pageSize. change (12 - 1) with 11.
  pose proof (Z.div_mod (total + 11) 12 ltac:(lia)).
  pose proof (Z.mod_pos_bound (total + 11) 12 ltac:(lia)).
  split; [reflexivity|]. split; [lia|]. split; [intros ->; reflexivity|].
  split; [reflexivity|]. split; [reflexivity|]. lia.
Qed.

Lemma pagination_in_range_witness :
  List_NumPages (NewPhotoList [] 25 3) = 3 /\ getOffset 3 = 24 /\
  List_NumPages (NewPhotoList [] 9007199254740992 (-5)) = 750599937895083 /\
  getOffset (-5) = 0.
Proof.
  assert (H25 : 0 <= 25 <= 2 ^ 53) by (change (2 ^ 53) with 9007199254740992; lia).
  assert (Hmax : 0 <= 9007199254740992 <= 2 ^ 53)
    by (change (2 ^ 53) with 9007199254740992; lia).
  assert (H3 : Int64.in_range ((3 - 1) * 12))
    by (unfold Int64.in_range, Int64.min_int, Int64.max_int; lia).
  assert (H5 : Int64.in_range ((-5 - 1) * 12))
    by (unfold Int64.in_range, Int64.min_int, Int64.max_int; lia).
  destruct (pagination_in_range [] 25 3 H25 H3) as (A1 & _ & _ & A2 & _).
  destruct (pagination_in_range [] 9007199254740992 (-5) Hmax H5)
    as (B1 & _ & _ & B2 & _).
  rewrite A1, A2, B1, B2. repeat split.
Defined.

(** ** Paging of requests *)

Lemma getOffset_bounds (pageNum : Z) : 0 <= getOffset pageNum <= Int64.max_int.
Proof.
  unfold getOffset.
  set (offset := Int64.mul (Int64.sub pageNum 1) pageSize).
  assert (H : Int64.min_int <= offset <= Int64.max_int).
  { unfold offset, Int64.mul, Int64.wrap, Int64.min_int, Int64.max_int.
    match goal with
    | |- context [?a mod ?m] => pose proof (Z.mod_pos_bound a m ltac:(lia))
    end.
    lia. }
  destruct (offset <? 0) eqn:E.
  - unfold Int64.max_int. lia.
  - apply Z.ltb_ge in E. lia.
Qed.

(** X1 ([getPage], [getOffset]): whatever the form field [page] holds, the
    page number of a request is a 64-bit integer, and it is 1 when the field
    does not parse as one (missing, empty, not a decimal number, out of
    range); the offset computed from it is never negative and never above
    the greatest 64-bit integer, and it is 0 for the default page; a page
    number written in decimal is read back as it is. *)
Theorem getPage_offset (page : gostring) :
  Int64.in_range (getPage page) /\
  0 <= getOffset (getPage page) <= Int64.max_int /\
  (Strconv.Atoi page = None ->
   getPage page = 1 /\ getOffset (getPage page) = 0) /\
  getPage [] = 1 /\
  (forall v, Int64.in_range v -> getPage (Strconv.FormatInt v) = v).
Proof.
  split; [|split; [|split; [|split]]].
  - unfold getPage. destruct (Strconv.Atoi page) as [p|] eqn:E.
    + now apply Atoi_in_range with page.
    + unfold Int64.in_range, Int64.min_int, Int64.max_int. lia.
  - apply getOffset_bounds.
  - intros E. unfold getPage. rewrite E. split; reflexivity.
  - reflexivity.
  - intros v Hv. unfold getPage. now rewrite Atoi_FormatInt.
Qed.

(** ** Recovery codes *)

Lemma recoveryCodeOf_length (randbytes : list ascii) :
  List.length (recoveryCodeOf randbytes) = recoveryCodeLength.
Proof. unfold recoveryCodeOf. now rewrite length_map, length_seq. Qed.

Lemma recoveryCodeOf_alphabet (randbytes : list ascii) :
  Forall (fun c => In c recoveryCodeCharacters) (recoveryCodeOf randbytes).
Proof.
  unfold recoveryCodeOf. apply Forall_forall. intros c Hc.
  apply in_map_iff in Hc. destruct Hc as (i & <- & _).
  apply nth_In. apply Nat.mod_upper_bound. discriminate.
Qed.

Lemma recoveryCodeOf_nonempty (randbytes : list ascii) :
  isEmptyString (recoveryCodeOf randbytes) = false.
Proof. reflexivity. Qed.

(** X2 ([GenerateRecoveryCode]): from the 30 random bytes read, the code
    is 30 characters long, each a lower-case letter or a digit of the
    alphabet of the code, the [i]-th one the letter at the remainder of the
    [i]-th byte by 36; the user carries it as a valid recovery code and is
    otherwise unchanged.  When no random bytes can be read, no code is
    returned and the user is unchanged. *)
Theorem GenerateRecoveryCode_code (user : User) (randbytes : list ascii) :
  List.length randbytes = recoveryCodeLength ->
  GenerateRecoveryCode user None = (user, Failed) /\
  exists code,
    GenerateRecoveryCode user (Some randbytes)
    = (setRecoveryCode user (Some code), Ok code) /\
    List.length code = 30%nat /\
    Forall (fun c => In c recoveryCodeCharacters) code /\
    (forall i, (i < 30)%nat ->
       nth_error code i =
       nth_error recoveryCodeCharacters
         (nat_of_ascii (nth i randbytes zero) mod 36)).
Proof.
  intros _. split; [reflexivity|].
  exists (recoveryCodeOf randbytes).
  split; [reflexivity|].
  split; [apply recoveryCodeOf_length|].
  split; [apply recoveryCodeOf_alphabet|].
  intros i Hi. unfold recoveryCodeOf.
  rewrite nth_error_map. rewrite nth_error_nth' with (d := O).
  2:{ rewrite length_seq. exact Hi. }
  rewrite seq_nth by exact Hi. cbn [option_map Nat.add].
  symmetry. apply nth_error_nth'.
  apply Nat.mod_upper_bound. discriminate.
Qed.

Lemma GenerateRecoveryCode_code_witness :
  exists code,
    GenerateRecoveryCode anonymousUser (Some sampleBytes)
    = (setRecoveryCode anonymousUser (Some code), Ok code) /\
    List.length code = 30%nat /\
    Forall (fun c => In c recoveryCodeCharacters) code /\
    (forall i, (i < 30)%nat ->
       nth_error code i =
       nth_error recoveryCodeCharacters
         (nat_of_ascii (nth i sampleBytes zero) mod 36)).
Proof.
  exact (proj2 (GenerateRecoveryCode_code anonymousUser sampleBytes eq_refl)).
Defined.

(** ** Lookups of the user manager *)

Lemma recoveryRows_In (st : Store) (code : gostring) (row : User) :
  In row (recoveryRows st code) <->
  In row (users st) /\ User_IsActive row = true /\
  User_RecoveryCode row = Some code.
Proof.
  unfold recoveryRows. rewrite filter_In, andb_true_iff.
  destruct (User_RecoveryCode row) as [c|].
  - rewrite gostring_eqb_eq. split.
    + intros (H & A & ->). auto.
    + intros (H & A & E). injection E as ->. auto.
  - split.
    + intros (_ & _ & E). discriminate.
    + intros (_ & _ & E). discriminate.
Qed.

Lemma emailRows_In (st : Store) (email : gostring) (row : User) :
  In row (emailRows st email) <->
  In row (users st) /\ User_IsActive row = true /\ User_Email row = email.
Proof.
  unfold emailRows. now rewrite filter_In, andb_true_iff, gostring_eqb_eq.
Qed.

Lemma SelectOne_OneRow {A : Type} (rows : list A) (row : A) :
  SelectOne rows = OneRow row <-> rows = [row].
Proof.
  destruct rows as [|a [|b rest]]; cbn; split; intros H;
    try discriminate; now inversion H.
Qed.

Lemma SelectOne_ErrNoRows {A : Type} (rows : list A) :
  SelectOne rows = ErrNoRows <-> rows = [].
Proof.
  destruct rows as [|a [|b rest]]; cbn; split; intros H;
    try discriminate; reflexivity.
Qed.

Lemma no_rows {A : Type} (rows : list A) :
  (forall row, ~ In row rows) -> rows = [].
Proof.
  destruct rows as [|a rest]; [reflexivity|].
  intros H. elim (H a). now left.
Qed.

Lemma GetByEmail_Some (st : Store) (email : gostring) (u : User) :
  GetByEmail st email = Ok (Some u) ->
  exists row,
    In row (users st) /\ u = userRow row /\
    User_IsActive row = true /\ User_Email row = email.
Proof.
  unfold GetByEmail.
  destruct (SelectOne (emailRows st email)) as [row| |] eqn:E;
    try discriminate.
  intros H. injection H as <-.
  apply SelectOne_OneRow in E.
  assert (Hin : In row (emailRows st email)) by (rewrite E; now left).
  apply emailRows_In in Hin. destruct Hin as (H1 & H2 & H3).
  exists row. auto.
Qed.

Lemma GetByRecoveryCode_Some (st : Store) (code : gostring) (u : User) :
  GetByRecoveryCode st code = Ok (Some u) ->
  code <> [] /\
  exists row,
    In row (users st) /\ u = userRow row /\
    User_IsActive row = true /\ User_RecoveryCode row = Some code.
Proof.
  unfold GetByRecoveryCode.
  destruct code as [|c code]; [discriminate|]. cbn [isEmptyString].
  destruct (SelectOne (recoveryRows st (c :: code))) as [row| |] eqn:E;
    try discriminate.
  intros H. injection H as <-.
  apply SelectOne_OneRow in E.
  assert (Hin : In row (recoveryRows st (c :: code))) by (rewrite E; now left).
  apply recoveryRows_In in Hin. destruct Hin as (H1 & H2 & H3).
  split; [discriminate|]. exists row. auto.
Qed.

(** X3 ([GetActive], [GetByEmail], [GetByRecoveryCode]): a lookup of the
    user manager returns only rows of active users, matched exactly on the
    key and not marked authenticated; the empty recovery code finds nobody,
    also when a row stores the empty string as its code; an email or a
    code that only inactive users have finds nobody, without an error. *)
Theorem lookups_return_active_users (st : Store) :
  (forall uid u,
     UserManager_GetActive st uid = Some u ->
     exists row,
       In row (users st) /\ u = userRow row /\
       User_IsActive row = true /\ User_ID row = uid) /\
  (forall email u,
     GetByEmail st email = Ok (Some u) ->
     exists row,
       In row (users st) /\ u = userRow row /\
       User_IsActive row = true /\ User_Email row = email) /\
  (forall code u,
     GetByRecoveryCode st code = Ok (Some u) ->
     exists row,
       In row (users st) /\ u = userRow row /\
       User_IsActive row = true /\ User_RecoveryCode row = Some code) /\
  (forall u,
     (exists uid, UserManager_GetActive st uid = Some u) \/
     (exists email, GetByEmail st email = Ok (Some u)) \/
     (exists code, GetByRecoveryCode st code = Ok (Some u)) ->
     User_IsActive u = true /\ User_IsAuthenticated u = false) /\
  GetByRecoveryCode st [] = Ok None /\
  (forall email,
     (forall row, In row (users st) -> User_Email row = email ->
                  User_IsActive row = false) ->
     GetByEmail st email = Ok None) /\
  (forall code,
     (forall row, In row (users st) -> User_RecoveryCode row = Some code ->
                  User_IsActive row = false) ->
     GetByRecoveryCode st code = Ok None).
Proof.
  split; [|split; [|split; [|split; [|split; [|split]]]]].
  - intros uid u H. apply GetActive_Some in H.
    destruct H as (_ & Hact & _ & row & Hin & Hid & ->).
    exists row. auto.
  - apply GetByEmail_Some.
  - intros code u H. now apply GetByRecoveryCode_Some in H.
  - intros u [(uid & H)|[(email & H)|(code & H)]].
    + apply GetActive_Some in H. tauto.
    + apply GetByEmail_Some in H. destruct H as (row & _ & -> & H & _).
      auto.
    + apply GetByRecoveryCode_Some in H.
      destruct H as (_ & row & _ & -> & H & _). auto.
  - reflexivity.
  - intros email H. unfold GetByEmail.
    rewrite (no_rows (emailRows st email)); [reflexivity|].
    intros row Hin. apply emailRows_In in Hin.
    destruct Hin as (Hin & Hact & Hemail).
    rewrite (H row Hin Hemail) in Hact. discriminate.
  - intros code H. unfold GetByRecoveryCode.
    destruct (isEmptyString code); [reflexivity|].
    rewrite (no_rows (recoveryRows st code)); [reflexivity|].
    intros row Hin. apply recoveryRows_In in Hin.
    destruct Hin as (Hin & Hact & Hcode).
    rewrite (H row Hin Hcode) in Hact. discriminate.
Qed.

(** ** Rows with a primary key *)

Lemma update_no_hit {A : Type} (key : A -> Z) (new : A) (k : Z) (l : list A) :
  (forall row, In row l -> key row <> k) ->
  map (fun row => if key row =? k then new else row) l = l.
Proof.
  induction l as [|a l IH]; intros H; [reflexivity|].
  cbn [map]. rewrite IH by (intros row Hr; apply H; now right).
  destruct (Z.eqb_spec (key a) k) as [E|E]; [|reflexivity].
  elim (H a); [now left|exact E].
Qed.

Lemma filter_none {A : Type} (P : A -> bool) (l : list A) :
  (forall row, In row l -> P row = false) -> filter P l = [].
Proof.
  induction l as [|a l IH]; intros H; [reflexivity|].
  cbn [filter]. rewrite (H a) by now left.
  apply IH. intros row Hr. apply H. now right.
Qed.

Lemma NoDup_key_head {A : Type} (key : A -> Z) (a : A) (l : list A) :
  NoDup (map key (a :: l)) ->
  (forall row, In row l -> key row <> key a) /\ NoDup (map key l).
Proof.
  cbn [map]. intros H. inversion H as [|x xs Hnot Hnd]; subst.
  split; [|exact Hnd].
  intros row Hr E. apply Hnot. rewrite <- E. now apply in_map.
Qed.

Lemma filter_update_one {A : Type} (key : A -> Z) (P : A -> bool)
  (new : A) (k : Z) (l : list A) :
  NoDup (map key l) ->
  (exists row, In row l /\ key row = k) ->
  P new = true ->
  (forall row, In row l -> key row <> k -> P row = false) ->
  filter P (map (fun row => if key row =? k then new else row) l) = [new].
Proof.
  induction l as [|a l IH]; intros Hnd (row & Hin & Hk) Hnew Hothers.
  - destruct Hin.
  - apply NoDup_key_head in Hnd. destruct Hnd as (Hfresh & Hnd).
    cbn [map]. destruct (Z.eqb_spec (key a) k) as [E|E].
    + rewrite update_no_hit by (intros r Hr; rewrite <- E; now apply Hfresh).
      cbn [filter]. rewrite Hnew. f_equal.
      apply filter_none. intros r Hr. apply Hothers; [now right|].
      rewrite <- E. now apply Hfresh.
    + cbn [filter]. rewrite (Hothers a) by (now left || exact E).
      apply IH; try assumption.
      * destruct Hin as [<-|Hin]; [contradiction|]. now exists row.
      * intros r Hr. apply Hothers. now right.
Qed.

Lemma filter_update_none {A : Type} (key : A -> Z) (P : A -> bool)
  (new : A) (k : Z) (l : list A) :
  P new = false ->
  (forall row, In row l -> key row <> k -> P row = false) ->
  filter P (map (fun row => if key row =? k then new else row) l) = [].
Proof.
  intros Hnew Hothers. apply filter_none. intros r Hr.
  apply in_map_iff in Hr. destruct Hr as (row & <- & Hin).
  destruct (Z.eqb_spec (key row) k) as [E|E]; [exact Hnew|].
  now apply Hothers.
Qed.

Lemma update_keeps_keys {A : Type} (key : A -> Z) (new : A) (k : Z)
  (l : list A) :
  key new = k ->
  map key (map (fun row => if key row =? k then new else row) l) = map key l.
Proof.
  intros Hk. rewrite map_map. apply map_ext. intros row.
  destruct (Z.eqb_spec (key row) k) as [E|E]; congruence.
Qed.

Lemma In_update {A : Type} (key : A -> Z) (new : A) (k : Z) (l : list A)
  (r : A) :
  In r (map (fun row => if key row =? k then new else row) l) ->
  r = new \/ (In r l /\ key r <> k).
Proof.
  intros H. apply in_map_iff in H. destruct H as (row & <- & Hin).
  destruct (Z.eqb_spec (key row) k) as [E|E]; auto.
Qed.

Lemma GetByEmail_rows (st : Store) (email : gostring) (u : User) :
  GetByEmail st email = Ok (Some u) ->
  exists row, emailRows st email = [row] /\ u = userRow row.
Proof.
  unfold GetByEmail.
  destruct (SelectOne (emailRows st email)) as [row| |] eqn:E;
    try discriminate.
  intros H. injection H as <-. apply SelectOne_OneRow in E. now exists row.
Qed.

Lemma userRow_stored (u : User) :
  User_IsAuthenticated u = false -> userRow u = u.
Proof. destruct u. cbn. now intros ->. Qed.

(** X4 ([GenerateRecoveryCode], [ResetRecoveryCode], [Update],
    [GetByRecoveryCode], [GetByEmail]): in a store whose user identifiers
    are distinct, a user found by email who generates a recovery code and
    is saved is the user found by that code, provided no other active user
    holds the same code, and is still the user found by the email; once the
    code is reset and the user saved again, the code finds nobody. *)
Theorem recovery_code_round_trip
  (st : Store) (email : gostring) (u user : User) (randbytes : list ascii)
  (code : gostring) :
  NoDup (map User_ID (users st)) ->
  GetByEmail st email = Ok (Some u) ->
  List.length randbytes = recoveryCodeLength ->
  GenerateRecoveryCode u (Some randbytes) = (user, Ok code) ->
  (forall other,
     In other (users st) -> User_ID other <> User_ID u ->
     User_IsActive other = true -> User_RecoveryCode other <> Some code) ->
  let st1 := UserManager_Update st user in
  let st2 := UserManager_Update st1 (ResetRecoveryCode user) in
  GetByRecoveryCode st1 code = Ok (Some user) /\
  GetByEmail st1 email = Ok (Some user) /\
  GetByRecoveryCode st2 code = Ok None /\
  GetByEmail st2 email = Ok (Some (ResetRecoveryCode u)).
Proof.
  intros Hnd Hget _ Hgen. cbn [GenerateRecoveryCode] in Hgen.
  injection Hgen as <- <-.
  set (code := recoveryCodeOf randbytes).
  assert (Hcode : isEmptyString code = false) by reflexivity.
  clearbody code. intros Hfresh.
  apply GetByEmail_rows in Hget. destruct Hget as (row & Hrows & ->).
  assert (Hrow : In row (emailRows st email)) by (rewrite Hrows; now left).
  apply emailRows_In in Hrow. destruct Hrow as (Hin & Hact & Hemail).
  assert (Hsingle : forall r, In r (users st) -> User_ID r <> User_ID row ->
                              User_IsActive r && gostring_eqb (User_Email r) email
                              = false).
  { intros r Hr Hne.
    destruct (User_IsActive r && gostring_eqb (User_Email r) email) eqn:E;
      [|reflexivity].
    assert (Hr' : In r (emailRows st email)).
    { unfold emailRows. apply filter_In. now split. }
    rewrite Hrows in Hr'. destruct Hr' as [<-|[]]. now elim Hne. }
  set (user := setRecoveryCode (userRow row) (Some code)).
  assert (Hid : User_ID user = User_ID row) by reflexivity.
  assert (Hnd1 : NoDup (map User_ID (users (UserManager_Update st user)))).
  { unfold UserManager_Update. cbn [users setUsers].
    rewrite update_keeps_keys; [exact Hnd|reflexivity]. }
  assert (Hin1 : exists r, In r (users (UserManager_Update st user)) /\
                           User_ID r = User_ID user).
  { exists (userRow user). split; [|reflexivity].
    unfold UserManager_Update. cbn [users setUsers].
    apply in_map_iff. exists row. split; [|exact Hin].
    rewrite Hid, Z.eqb_refl. reflexivity. }
  assert (Hothers1 : forall r, In r (users (UserManager_Update st user)) ->
                     User_ID r <> User_ID user ->
                     In r (users st) /\ User_ID r <> User_ID row).
  { intros r Hr Hne. unfold UserManager_Update in Hr. cbn [users setUsers] in Hr.
    apply In_update in Hr. destruct Hr as [->|(Hr & _)]; [now elim Hne|].
    split; [exact Hr|]. now rewrite <- Hid. }
  split; [|split; [|split]].
  - unfold GetByRecoveryCode. rewrite Hcode.
    unfold recoveryRows, UserManager_Update. cbn [users setUsers].
    rewrite filter_update_one.
    + reflexivity.
    + exact Hnd.
    + exists row. split; [exact Hin|now rewrite Hid].
    + cbn. rewrite Hact. apply gostring_eqb_refl.
    + intros r Hr Hne. rewrite Hid in Hne.
      destruct (User_IsActive r) eqn:Ha; [|reflexivity]. cbn [andb].
      destruct (User_RecoveryCode r) as [c|] eqn:Hc; [|reflexivity].
      destruct (gostring_eqb c code) eqn:Ec; [|reflexivity].
      apply gostring_eqb_eq in Ec. subst c.
      now elim (Hfresh r Hr Hne Ha).
  - unfold GetByEmail, emailRows, UserManager_Update. cbn [users setUsers].
    rewrite filter_update_one.
    + reflexivity.
    + exact Hnd.
    + exists row. split; [exact Hin|now rewrite Hid].
    + cbn. rewrite Hact. cbn [andb]. apply gostring_eqb_eq. exact Hemail.
    + intros r Hr Hne. rewrite Hid in Hne. now apply Hsingle.
  - unfold GetByRecoveryCode. rewrite Hcode.
    unfold recoveryRows.
    unfold UserManager_Update at 1. cbn [users setUsers].
    rewrite filter_update_none; [reflexivity| |].
    + cbn. now rewrite andb_false_r.
    + intros r Hr Hne. change (User_ID (ResetRecoveryCode user)) with (User_ID user) in Hne.
      destruct (Hothers1 r Hr Hne) as (Hr0 & Hne0).
      destruct (User_IsActive r) eqn:Ha; [|reflexivity]. cbn [andb].
      destruct (User_RecoveryCode r) as [c|] eqn:Hc; [|reflexivity].
      destruct (gostring_eqb c code) eqn:Ec; [|reflexivity].
      apply gostring_eqb_eq in Ec. subst c.
      now elim (Hfresh r Hr0 Hne0 Ha).
  - unfold GetByEmail, emailRows.
    unfold UserManager_Update at 1. cbn [users setUsers].
    rewrite filter_update_one.
    + reflexivity.
    + exact Hnd1.
    + exact Hin1.
    + cbn. rewrite Hact. cbn [andb]. apply gostring_eqb_eq. exact Hemail.
    + intros r Hr Hne.
      change (User_ID (ResetRecoveryCode user)) with (User_ID user) in Hne.
      destruct (Hothers1 r Hr Hne) as (Hr0 & Hne0). now apply Hsingle.
Qed.

Lemma recovery_code_round_trip_witness :
  let code := str "abcdefghijklmnopqrstuvwxyz0123" in
  let user := setRecoveryCode bob (Some code) in
  let st1 := UserManager_Update sampleStore user in
  let st2 := UserManager_Update st1 (ResetRecoveryCode user) in
  GetByRecoveryCode st1 code = Ok (Some user) /\
  GetByEmail st1 (str "bob@example.org") = Ok (Some user) /\
  GetByRecoveryCode st2 code = Ok None /\
  GetByEmail st2 (str "bob@example.org") = Ok (Some (ResetRecoveryCode bob)).
Proof.
  apply (recovery_code_round_trip sampleStore (str "bob@example.org") bob
           (setRecoveryCode bob (Some (str "abcdefghijklmnopqrstuvwxyz0123")))
           sampleBytes (str "abcdefghijklmnopqrstuvwxyz0123")).
  - repeat constructor; cbn; intuition discriminate.
  - reflexivity.
  - reflexivity.
  - reflexivity.
  - intros other [<-|[<-|[<-|[<-|[]]]]] Hne Hact; cbn; discriminate.
Defined.

(** ** Availability of names and emails *)

Lemma countUsers_zero (st : Store) (cond : User -> bool) :
  (countUsers st cond =? 0) = true <->
  forall row, In row (users st) -> cond row = false.
Proof.
  unfold countUsers. rewrite Z.eqb_eq. split.
  - intros H row Hin. destruct (cond row) eqn:E; [|reflexivity].
    assert (Hf : In row (filter cond (users st))) by (apply filter_In; auto).
    destruct (filter cond (users st)); [destruct Hf|discriminate].
  - intros H. now rewrite filter_none.
Qed.

Lemma available_iff (st : Store) (field : User -> gostring) (user : User) :
  ((if User_ID user =? 0 then
      countUsers st (fun row => gostring_eqb (field row) (field user))
    else
      countUsers st
        (fun row =>
           gostring_eqb (field row) (field user) &&
           negb (User_ID row =? User_ID user))) =? 0) = true <->
  forall row, In row (users st) -> field row = field user ->
              User_ID user <> 0 /\ User_ID row = User_ID user.
Proof.
  destruct (Z.eqb_spec (User_ID user) 0) as [E|E];
    rewrite countUsers_zero; split; intros H row Hin.
  - intros Hf. apply gostring_eqb_eq in Hf. rewrite (H row Hin) in Hf.
    discriminate.
  - destruct (gostring_eqb (field row) (field user)) eqn:Hf; [|reflexivity].
    apply gostring_eqb_eq in Hf. destruct (H row Hin Hf) as (Hne & _).
    now elim Hne.
  - intros Hf. split; [exact E|]. apply gostring_eqb_eq in Hf.
    specialize (H row Hin). rewrite Hf in H. cbn [andb] in H.
    apply negb_false_iff in H. now apply Z.eqb_eq.
  - destruct (gostring_eqb (field row) (field user)) eqn:Hf; [|reflexivity].
    apply gostring_eqb_eq in Hf. destruct (H row Hin Hf) as (_ & Hid).
    cbn [andb]. apply negb_false_iff. now apply Z.eqb_eq.
Qed.

(** X5 ([IsNameAvailable], [IsEmailAvailable]): a name (an email) is
    available to a user exactly when every row of the users table that has
    this very name (email), active or not, is a row with the user's own
    identifier, and the user has an identifier; to a user without one
    (identifier 0, not yet inserted) it is available exactly when no row
    has it. *)
Theorem availability_of_name_and_email (st : Store) (user : User) :
  (IsNameAvailable st user = true <->
   forall row, In row (users st) -> User_Name row = User_Name user ->
               User_ID user <> 0 /\ User_ID row = User_ID user) /\
  (IsEmailAvailable st user = true <->
   forall row, In row (users st) -> User_Email row = User_Email user ->
               User_ID user <> 0 /\ User_ID row = User_ID user).
Proof.
  split.
  - apply (available_iff st User_Name user).
  - apply (available_iff st User_Email user).
Qed.

(** ** Ordered listings *)

Section Ordering.

Variable before : Photo -> Photo -> bool.

Hypothesis before_total : forall a b, before a b = true \/ before b a = true.

Hypothesis before_trans :
  forall a b c, before a b = true -> before b c = true -> before a c = true.

Lemma insertBy_In (p x : Photo) (rows : list Photo) :
  In p (insertBy before x rows) <-> p = x \/ In p rows.
Proof.
  induction rows as [|q rest IH]; cbn [insertBy].
  - cbn. intuition.
  - destruct (before x q); cbn [In]; [intuition|].
    rewrite IH. intuition.
Qed.

Lemma sortBy_In (p : Photo) (rows : list Photo) :
  In p (sortBy before rows) <-> In p rows.
Proof.
  induction rows as [|q rest IH]; [reflexivity|].
  unfold sortBy in *. cbn [fold_right]. rewrite insertBy_In, IH.
  cbn [In]. intuition.
Qed.

Lemma insertBy_length (x : Photo) (rows : list Photo) :
  List.length (insertBy before x rows) = S (List.length rows).
Proof.
  induction rows as [|q rest IH]; [reflexivity|].
  cbn [insertBy]. destruct (before x q); cbn [List.length]; congruence.
Qed.

Lemma sortBy_length (rows : list Photo) :
  List.length (sortBy before rows) = List.length rows.
Proof.
  induction rows as [|q rest IH]; [reflexivity|].
  unfold sortBy in *. cbn [fold_right]. rewrite insertBy_length.
  cbn [List.length]. congruence.
Qed.

Lemma insertBy_sorted (x : Photo) (rows : list Photo) :
  StronglySorted (fun a b => before a b = true) rows ->
  StronglySorted (fun a b => before a b = true) (insertBy before x rows).
Proof.
  induction rows as [|q rest IH]; intros H; cbn [insertBy].
  - constructor; constructor.
  - inversion H as [|q' rest' Hrest Hq]; subst.
    destruct (before x q) eqn:E.
    + constructor; [exact H|]. constructor; [exact E|].
      rewrite Forall_forall in *. intros y Hy.
      apply before_trans with q; auto.
    + constructor; [now apply IH|].
      rewrite Forall_forall in *. intros y Hy.
      apply insertBy_In in Hy. destruct Hy as [->|Hy]; [|auto].
      destruct (before_total x q) as [F|F]; congruence.
Qed.

Lemma sortBy_sorted (rows : list Photo) :
  StronglySorted (fun a b => before a b = true) (sortBy before rows).
Proof.
  induction rows as [|q rest IH]; [constructor|].
  unfold sortBy in *. cbn [fold_right]. now apply insertBy_sorted.
Qed.

End Ordering.

Lemma StronglySorted_skipn {A : Type} (R : A -> A -> Prop) (n : nat)
  (l : list A) :
  StronglySorted R l -> StronglySorted R (skipn n l).
Proof.
  revert l. induction n as [|n IH]; intros l H; [exact H|].
  destruct l as [|a l]; [constructor|].
  cbn [skipn]. apply IH. now inversion H.
Qed.

Lemma StronglySorted_firstn {A : Type} (R : A -> A -> Prop) (n : nat)
  (l : list A) :
  StronglySorted R l -> StronglySorted R (firstn n l).
Proof.
  revert l. induction n as [|n IH]; intros l H; [constructor|].
  destruct l as [|a l]; [constructor|].
  cbn [firstn]. inversion H as [|a' l' Hl Ha]; subst.
  constructor; [now apply IH|].
  rewrite Forall_forall in *. intros y Hy. apply Ha.
  rewrite <- (firstn_skipn n l). apply in_or_app. now left.
Qed.

Lemma limitOffset_sorted (R : Photo -> Photo -> Prop) (limit offset : Z)
  (rows : list Photo) :
  StronglySorted R rows -> StronglySorted R (limitOffset limit offset rows).
Proof.
  intros H. unfold limitOffset.
  now apply StronglySorted_firstn, StronglySorted_skipn.
Qed.

Lemma limitOffset_length (offset : Z) (rows : list Photo) :
  (List.length (limitOffset pageSize offset rows) <= 12)%nat.
Proof. unfold limitOffset. apply firstn_le_length. Qed.

Lemma limitOffset_beyond (limit offset : Z) (rows : list Photo) :
  Z.of_nat (List.length rows) <= offset ->
  limitOffset limit offset rows = [].
Proof.
  intros H. unfold limitOffset. rewrite skipn_all2 by lia.
  apply firstn_nil.
Qed.

Lemma limitOffset_first (rows : list Photo) :
  rows <> [] -> limitOffset pageSize 0 rows <> [].
Proof. destruct rows; [congruence|discriminate]. Qed.

Lemma votesBefore_total (a b : Photo) :
  votesBefore a b = true \/ votesBefore b a = true.
Proof. unfold votesBefore. rewrite !Z.leb_le. lia. Qed.

Lemma votesBefore_trans (a b c : Photo) :
  votesBefore a b = true -> votesBefore b c = true -> votesBefore a c = true.
Proof. unfold votesBefore. rewrite !Z.leb_le. lia. Qed.

Lemma createdBefore_total (a b : Photo) :
  createdBefore a b = true \/ createdBefore b a = true.
Proof. unfold createdBefore. rewrite !Z.leb_le. lia. Qed.

Lemma createdBefore_trans (a b c : Photo) :
  createdBefore a b = true -> createdBefore b c = true ->
  createdBefore a c = true.
Proof. unfold createdBefore. rewrite !Z.leb_le. lia. Qed.

Lemma ranksBefore_total (a b : Photo) :
  ranksBefore a b = true \/ ranksBefore b a = true.
Proof.
  unfold ranksBefore. cbv zeta.
  rewrite !orb_true_iff, !andb_true_iff, !Z.ltb_lt, !Z.eqb_eq, !Z.leb_le. lia.
Qed.

Lemma ranksBefore_trans (a b c : Photo) :
  ranksBefore a b = true -> ranksBefore b c = true -> ranksBefore a c = true.
Proof.
  unfold ranksBefore. cbv zeta.
  rewrite !orb_true_iff, !andb_true_iff, !Z.ltb_lt, !Z.eqb_eq, !Z.leb_le. lia.
Qed.

Lemma orderByScore_sortBy (rows : list Photo) :
  orderByScore rows = sortBy ranksBefore rows.
Proof.
  unfold orderByScore, sortBy. induction rows as [|q rest IH]; [reflexivity|].
  cbn [fold_right]. rewrite IH. generalize (fold_right (insertBy ranksBefore) [] rest).
  intros l. induction l as [|x l IHl]; [reflexivity|].
  cbn [insertRanked insertBy]. now rewrite IHl.
Qed.

Lemma StronglySorted_weaken {A : Type} (R R' : A -> A -> Prop) (l : list A) :
  (forall a b, R a b -> R' a b) -> StronglySorted R l -> StronglySorted R' l.
Proof.
  intros HR H. induction H as [|a l Hl IH Ha]; constructor; [exact IH|].
  rewrite Forall_forall in *. auto.
Qed.

Lemma wrap_in_range (z : Z) : Int64.in_range z -> Int64.wrap z = z.
Proof.
  unfold Int64.in_range, Int64.min_int, Int64.max_int, Int64.wrap.
  intros H. rewrite Z.mod_small; lia.
Qed.

Lemma getOffset_exact (pageNum : Z) :
  Int64.in_range ((pageNum - 1) * 12) ->
  getOffset pageNum = Z.max 0 ((pageNum - 1) * 12).
Proof.
  intros H. unfold getOffset, Int64.mul, Int64.sub, pageSize.
  assert (H1 : Int64.in_range (pageNum - 1)).
  { unfold Int64.in_range, Int64.min_int, Int64.max_int in *. lia. }
  rewrite (wrap_in_range _ H1), (wrap_in_range _ H).
  destruct (Z.ltb_spec ((pageNum - 1) * 12) 0); lia.
Qed.

(** X6 ([All]): a page of the listing of all photos reports the number of
    rows of the photos table as its total and the requested page number as
    it came; it holds at most 12 photos, each a row of the table; the photos
    of the page stand by falling score (up votes less down votes) when the
    order asked for is "votes", and by falling creation time for every
    other order, known or not; a page that starts at or after the end of
    the table is empty, and the first page of a table that has rows is
    not. *)
Theorem All_page (st : Store) (pageNum : Z) (orderBy : gostring) :
  let found := All st pageNum orderBy in
  let score p := Photo_UpVotes p - Photo_DownVotes p in
  List_Total found = Z.of_nat (List.length (photos st)) /\
  List_CurrentPage found = pageNum /\
  (List.length (List_Items found) <= 12)%nat /\
  (forall p, In p (List_Items found) ->
     exists row, In row (photos st) /\ p = photoRow row) /\
  (orderBy = str "votes" ->
   StronglySorted (fun a b => score b <= score a) (List_Items found)) /\
  (orderBy <> str "votes" ->
   StronglySorted (fun a b => Photo_CreatedAt b <= Photo_CreatedAt a)
     (List_Items found)) /\
  (Int64.in_range ((pageNum - 1) * 12) ->
   Z.of_nat (List.length (photos st)) <= (pageNum - 1) * 12 ->
   List_Items found = []) /\
  (photos st <> [] -> List_Items (All st 1 orderBy) <> []).
Proof.
  cbv zeta. unfold All. cbn [NewPhotoList List_Total List_CurrentPage List_Items].
  split; [reflexivity|]. split; [reflexivity|].
  split; [apply limitOffset_length|].
  split; [|split; [|split; [|split]]].
  - intros p Hp. apply limitOffset_In in Hp.
    assert (Hin : In p (map photoRow (photos st))).
    { destruct (gostring_eqb orderBy (str "votes"));
        now apply sortBy_In in Hp. }
    apply in_map_iff in Hin. destruct Hin as (row & <- & Hin). now exists row.
  - intros ->. rewrite gostring_eqb_refl.
    apply limitOffset_sorted.
    apply StronglySorted_weaken with (R := fun a b => votesBefore a b = true).
    + intros a b. unfold votesBefore. now rewrite Z.leb_le.
    + apply sortBy_sorted; [apply votesBefore_total|apply votesBefore_trans].
  - intros Hne.
    destruct (gostring_eqb orderBy (str "votes")) eqn:E.
    { apply gostring_eqb_eq in E. contradiction. }
    apply limitOffset_sorted.
    apply StronglySorted_weaken with (R := fun a b => createdBefore a b = true).
    + intros a b. unfold createdBefore. now rewrite Z.leb_le.
    + apply sortBy_sorted; [apply createdBefore_total|apply createdBefore_trans].
  - intros Hr Hlen. apply limitOffset_beyond.
    rewrite sortBy_length, length_map, getOffset_exact by exact Hr. lia.
  - intros Hne. apply limitOffset_first.
    intros E. apply (f_equal (@List.length Photo)) in E.
    rewrite sortBy_length, length_map in E.
    destruct (photos st); [congruence|discriminate].
Qed.

(** X7 ([Search]): a page of search results holds at most 12 photos, by
    falling score (up votes less down votes) and, at equal score, by falling
    creation time; it reports the requested page number as it came, and it
    is empty when it starts at or after the end of the matching rows. *)
Theorem Search_page_ordered
  (st : Store) (pageNum : Z) (q : gostring) (found : PhotoList) :
  Search st pageNum q = Ok (Some found) ->
  let score p := Photo_UpVotes p - Photo_DownVotes p in
  (List.length (List_Items found) <= 12)%nat /\
  StronglySorted
    (fun a b =>
       score b < score a \/
       (score a = score b /\ Photo_CreatedAt b <= Photo_CreatedAt a))
    (List_Items found) /\
  List_CurrentPage found = pageNum /\
  (Int64.in_range ((pageNum - 1) * 12) ->
   List_Total found <= (pageNum - 1) * 12 ->
   List_Items found = []).
Proof.
  unfold Search. destruct (isEmptyString q); [discriminate|].
  destruct (compileQuery q) as [clauses params].
  destruct (candidates st clauses params) as [rows|]; [|discriminate].
  intros H. injection H as <-. cbv zeta.
  cbn [NewPhotoList List_Total List_CurrentPage List_Items].
  split; [apply limitOffset_length|].
  split; [|split; [reflexivity|]].
  - apply limitOffset_sorted. rewrite orderByScore_sortBy.
    apply StronglySorted_weaken with (R := fun a b => ranksBefore a b = true).
    + intros a b. unfold ranksBefore. cbv zeta.
      rewrite orb_true_iff, andb_true_iff, Z.ltb_lt, Z.eqb_eq, Z.leb_le.
      tauto.
    + apply sortBy_sorted; [apply ranksBefore_total|apply ranksBefore_trans].
  - intros Hr Hlen. apply limitOffset_beyond.
    rewrite orderByScore_sortBy, sortBy_length, getOffset_exact by exact Hr.
    lia.
Qed.

Lemma Search_page_ordered_witness :
  exists found,
    Search sampleStore 1 (str "@alice") = Ok (Some found) /\
    List_Items found = [photoRow sunset; photoRow harbour] /\
    StronglySorted
      (fun a b =>
         Photo_UpVotes b - Photo_DownVotes b
         < Photo_UpVotes a - Photo_DownVotes a \/
         (Photo_UpVotes a - Photo_DownVotes a
          = Photo_UpVotes b - Photo_DownVotes b /\
          Photo_CreatedAt b <= Photo_CreatedAt a))
      (List_Items found).
Proof.
  eexists. split; [vm_compute; reflexivity|]. split; [reflexivity|].
  refine (proj1 (proj2 (Search_page_ordered sampleStore 1 (str "@alice") _ _))).
  vm_compute. reflexivity.
Defined.

(** ** What a vote leaves alone *)

Lemma NoDup_key_inj {A : Type} (key : A -> Z) (l : list A) (a b : A) :
  NoDup (map key l) -> In a l -> In b l -> key a = key b -> a = b.
Proof.
  induction l as [|x l IH]; intros Hnd Ha Hb E; [destruct Ha|].
  apply NoDup_key_head in Hnd. destruct Hnd as (Hfresh & Hnd).
  destruct Ha as [<-|Ha], Hb as [<-|Hb].
  - reflexivity.
  - elim (Hfresh b Hb). congruence.
  - elim (Hfresh a Ha). congruence.
  - now apply IH.
Qed.





(** ** Vote sets without repetition *)

Lemma handle_votes_NoDup (d : Direction) (faults : Faults) (st st' : Store)
  (r : Request) (resp : Reply) :
  (forall row, In row (users st) -> NoDup (GetVotes row)) ->
  handle d faults st r = (st', resp) ->
  forall row, In row (users st') -> NoDup (GetVotes row).
Proof.
  intros Hinv H. rewrite handle_vote in H. apply vote_inv in H.
  destruct H as [(_ & ->)|(uid & u & photo & Hs & Hget & Hph & Hcan &
                           [(_ & _ & ->)|(_ & ->)])];
    [exact Hinv|exact Hinv|].
  intros row Hrow. unfold UserManager_Update in Hrow.
  cbn [users setUsers PhotoManager_Update setPhotos] in Hrow.
  apply In_update in Hrow. destruct Hrow as [->|(Hrow & _)]; [|now apply Hinv].
  rewrite GetVotes_userRow, closure_ID.
  apply getPhoto_Some in Hph. destruct Hph as (_ & Hrange & _).
  rewrite GetVotes_RegisterVote by exact Hrange.
  rewrite GetVotes_authenticated.
  apply CanVote_spec in Hcan. destruct Hcan as (_ & _ & Hnew).
  rewrite GetVotes_authenticated in Hnew.
  apply GetActive_Some in Hget. destruct Hget as (_ & _ & _ & urow & Hin & _ & ->).
  rewrite GetVotes_userRow in *.
  apply NoDup_app; [now apply Hinv|repeat constructor; intros []|].
  intros x Hx [<-|[]]. contradiction.
Qed.

(** X9 ([vote], [RegisterVote], [CanVote]): when requests are served one
    after the other, a store in which no user's vote set names a photo
    twice stays so, whatever the requests and their order. *)
Theorem serve_keeps_votes_distinct
  (reqs : list (Direction * Faults * Request)) (st : Store) :
  (forall row, In row (users st) -> NoDup (GetVotes row)) ->
  forall row, In row (users (fst (serve reqs st))) -> NoDup (GetVotes row).
Proof.
  revert st. induction reqs as [|[[d faults] r] rest IH]; intros st Hinv;
    [exact Hinv|].
  cbn [serve]. destruct (handle d faults st r) as [st1 resp] eqn:E1.
  specialize (IH st1 (handle_votes_NoDup d faults st st1 r resp Hinv E1)).
  destruct (serve rest st1) as [st2 resps]. exact IH.
Qed.

Lemma serve_keeps_votes_distinct_witness :
  let reqs := [(Up, noFaults, mkRequest (Some 5) (str "9"));
               (Down, noFaults, mkRequest (Some 5) (str "9"));
               (Down, noFaults, mkRequest (Some 1) (str "10"));
               (Up, noFaults, mkRequest (Some 5) (str "11"))] in
  map GetVotes (users (fst (serve reqs sampleStore)))
  = [[10]; [10; 9; 11]; []; []] /\
  forall row, In row (users (fst (serve reqs sampleStore))) ->
              NoDup (GetVotes row).
Proof.
  intros reqs. split; [reflexivity|].
  apply (serve_keeps_votes_distinct reqs sampleStore).
  intros row [<-|[<-|[<-|[<-|[]]]]]; repeat constructor; cbn; intuition discriminate.
Defined.

(** ** Deleting a photo *)



Lemma CanEdit_true (photo : Photo) (user : User) :
  CanEdit photo (Some user) = true <->
  User_IsAuthenticated user = true /\
  (User_IsAdmin user = true \/ Photo_OwnerID photo = User_ID user).
Proof.
  unfold CanEdit. destruct (User_IsAuthenticated user); cbn [negb].
  - rewrite orb_true_iff, Z.eqb_eq. tauto.
  - split; [discriminate|]. intros (H & _). discriminate.
Qed.



(** ** Changing a photo *)

Lemma getPhotoToEdit_cases (st : Store) (r : Request) :
  let user := getCurrentUser st r in
  (User_IsAuthenticated user = false /\
   getPhotoToEdit st r = (None, false, Some StatusUnauthorized)) \/
  (User_IsAuthenticated user = true /\ getPhoto st r = None /\
   getPhotoToEdit st r = (None, false, Some StatusNotFound)) \/
  (exists photo,
     User_IsAuthenticated user = true /\ getPhoto st r = Some photo /\
     User_IsAdmin user = false /\ Photo_OwnerID photo <> User_ID user /\
     getPhotoToEdit st r = (Some photo, false, Some StatusForbidden)) \/
  (exists photo,
     User_IsAuthenticated user = true /\ getPhoto st r = Some photo /\
     (User_IsAdmin user = true \/ Photo_OwnerID photo = User_ID user) /\
     getPhotoToEdit st r = (Some photo, true, None)).
Proof.
  cbv zeta. unfold getPhotoToEdit.
  destruct (User_IsAuthenticated (getCurrentUser st r)) eqn:Hauth; cbn [negb];
    [|now left].
  right. destruct (getPhoto st r) as [photo|] eqn:Hphoto; [|now left].
  right. destruct (CanEdit photo (Some (getCurrentUser st r))) eqn:Hcan;
    cbn [negb].
  - right. exists photo. apply CanEdit_true in Hcan. tauto.
  - left. exists photo. unfold CanEdit in Hcan. rewrite Hauth in Hcan.
    cbn [negb] in Hcan. apply orb_false_iff in Hcan.
    destruct Hcan as (Ha & Ho). apply Z.eqb_neq in Ho. auto.
Qed.

(** X11 ([editPhotoTags], [getPhotoToEdit], [UpdateTags], [CanEdit]): a
    request to change the tags of a photo is refused with 401 when the
    user of the session is not authenticated, else with 404 when the photo
    does not exist, else with 403 when the user is neither an
    administrator nor the owner, and only then with 400 when the body does
    not parse; in each of these cases, and when the tag statement fails
    (the server error), the store is as before and no message is sent.
    Otherwise the store is the one [UpdateTags] returns for the photo with
    the tags of the body, one message "photo_updated" names the photo, and
    a body without a usable tag removes every tag of the photo without a
    call of [add_tags]. *)
Theorem editPhotoTags_authorized
  (add_tags : Store -> list Z -> Z -> list gostring -> Result Store)
  (st : Store) (r : Request) (body : option (list gostring)) :
  let out := editPhotoTags add_tags st r body in
  let user := getCurrentUser st r in
  (User_IsAuthenticated user = false ->
   out = mkOutcome st (Status StatusUnauthorized) [] []) /\
  (User_IsAuthenticated user = true -> getPhoto st r = None ->
   out = mkOutcome st (Status StatusNotFound) [] []) /\
  (forall photo,
     User_IsAuthenticated user = true -> getPhoto st r = Some photo ->
     User_IsAdmin user = false -> Photo_OwnerID photo <> User_ID user ->
     out = mkOutcome st (Status StatusForbidden) [] []) /\
  (forall photo,
     User_IsAuthenticated user = true -> getPhoto st r = Some photo ->
     User_IsAdmin user = true \/ Photo_OwnerID photo = User_ID user ->
     match body with
     | None => out = mkOutcome st StatusBadRequest [] []
     | Some names =>
         match UpdateTags add_tags st (setTags photo names) with
         | Failed => out = mkOutcome st StatusInternalServerError [] []
         | Ok st' =>
             out = mkOutcome st' (Status StatusOK)
                     [(User_Name (getCurrentUser st' r), [], Photo_ID photo,
                       str "photo_updated")] []
         end /\
         (normalizeTags names = [] ->
          out_status out = Status StatusOK /\
          out_store out
          = setPhotoTags st
              (filter (fun pt => negb (fst pt =? Photo_ID photo))
                 (photo_tags st)))
     end) /\
  (out_status out <> Status StatusOK ->
   out_store out = st /\ out_messages out = []).
Proof.
  cbv zeta. unfold editPhotoTags.
  destruct (getPhotoToEdit_cases st r)
    as [(Ha & ->)|[(Ha & Hp & ->)|[(photo & Ha & Hp & Hadm & Hown & ->)
       |(photo & Ha & Hp & Hcan & ->)]]]; cbn [refused].
  - repeat split; try reflexivity; intros; congruence.
  - repeat split; try reflexivity; intros; congruence.
  - split; [congruence|]. split; [congruence|]. split; [reflexivity|].
    split; [|now split].
    intros p _ E [F|F]; rewrite Hp in E; injection E as <-; congruence.
  - split; [congruence|]. split; [congruence|].
    split; [intros p _ E; rewrite Hp in E; injection E as <-;
            destruct Hcan; congruence|].
    split.
    + intros p _ E _. rewrite Hp in E. injection E as <-.
      destruct body as [names|]; [|reflexivity].
      split.
      * destruct (UpdateTags add_tags st (setTags photo names)); reflexivity.
      * intros Hnone. apply isEmpty_normalizeTags in Hnone.
        apply getPhoto_Some in Hp. destruct Hp as (_ & _ & Hget).
        apply PhotoManager_Get_Some in Hget. destruct Hget as (_ & Hid & _).
        unfold UpdateTags. cbn [Photo_Tags Photo_ID setTags].
        rewrite Hnone. apply Z.eqb_neq in Hid. rewrite Hid. cbn [andb negb].
        split; reflexivity.
    + destruct body as [names|]; [|now split].
      destruct (UpdateTags add_tags st (setTags photo names));
        cbn [out_status out_store out_messages]; [|now split].
      intros F. now elim F.
Qed.

Lemma photoRow_stored (p : Photo) : Photo_Tags p = [] -> photoRow p = p.
Proof. destruct p. cbn. now intros ->. Qed.

Lemma Get_other_after_Update (st : Store) (photo' : Photo) (id : Z) :
  id <> Photo_ID photo' ->
  PhotoManager_Get (PhotoManager_Update st photo') id = PhotoManager_Get st id.
Proof.
  intros Hne. unfold PhotoManager_Get, PhotoManager_Update.
  cbn [photos setPhotos]. destruct (id =? 0); [reflexivity|].
  rewrite (find_update_miss Photo_ID); [reflexivity| |].
  - intros row Hrow. apply Z.eqb_neq. congruence.
  - cbn. apply Z.eqb_neq. congruence.
Qed.

(** X12 ([editPhotoTitle], [getPhotoToEdit], [Update], [CanEdit]): a
    request to change the title of a photo is refused with 401, 404 or 403
    as a request to change its tags is, then with 400 when the body does
    not parse, with the server error when the validator fails and with 400
    when it rejects the photo; a refused request leaves the store as it
    was and sends no message.  An accepted one is answered 200, the photo
    is then read back with the new title and otherwise as it was read,
    every other photo is read back as before, the users, tags and their
    association to photos are untouched, and one message "photo_updated"
    names the photo. *)
Theorem editPhotoTitle_authorized
  (validate : Store -> Photo -> option bool)
  (st : Store) (r : Request) (body : option gostring) :
  let out := editPhotoTitle validate st r body in
  let user := getCurrentUser st r in
  (User_IsAuthenticated user = false ->
   out = mkOutcome st (Status StatusUnauthorized) [] []) /\
  (User_IsAuthenticated user = true -> getPhoto st r = None ->
   out = mkOutcome st (Status StatusNotFound) [] []) /\
  (forall photo,
     User_IsAuthenticated user = true -> getPhoto st r = Some photo ->
     User_IsAdmin user = false -> Photo_OwnerID photo <> User_ID user ->
     out = mkOutcome st (Status StatusForbidden) [] []) /\
  (forall photo,
     User_IsAuthenticated user = true -> getPhoto st r = Some photo ->
     User_IsAdmin user = true \/ Photo_OwnerID photo = User_ID user ->
     match body with
     | None => out = mkOutcome st StatusBadRequest [] []
     | Some title =>
         match validate st (setTitle photo title) with
         | None => out = mkOutcome st StatusInternalServerError [] []
         | Some false => out = mkOutcome st StatusBadRequest [] []
         | Some true =>
             out_status out = Status StatusOK /\
             getPhoto (out_store out) r = Some (setTitle photo title) /\
             (forall id, id <> Photo_ID photo ->
                PhotoManager_Get (out_store out) id = PhotoManager_Get st id) /\
             users (out_store out) = users st /\
             tags (out_store out) = tags st /\
             photo_tags (out_store out) = photo_tags st /\
             out_messages out
             = [(User_Name user, [], Photo_ID photo, str "photo_updated")]
         end
     end) /\
  (out_status out <> Status StatusOK ->
   out_store out = st /\ out_messages out = []).
Proof.
  cbv zeta. unfold editPhotoTitle, titleToWrite.
  destruct (getPhotoToEdit_cases st r)
    as [(Ha & ->)|[(Ha & Hp & ->)|[(photo & Ha & Hp & Hadm & Hown & ->)
       |(photo & Ha & Hp & Hcan & ->)]]]; cbn [refused].
  - repeat split; try reflexivity; intros; congruence.
  - repeat split; try reflexivity; intros; congruence.
  - split; [congruence|]. split; [congruence|]. split; [reflexivity|].
    split; [|now split].
    intros p _ E [F|F]; rewrite Hp in E; injection E as <-; congruence.
  - split; [congruence|]. split; [congruence|].
    split; [intros p _ E; rewrite Hp in E; injection E as <-;
            destruct Hcan; congruence|].
    split.
    + intros p _ E _. rewrite Hp in E. injection E as <-.
      destruct body as [title|]; [|reflexivity].
      destruct (validate st (setTitle photo title)) as [[|]|];
        try reflexivity.
      unfold writeTitle. cbn [out_status out_store out_messages].
      apply getPhoto_Some in Hp. destruct Hp as (Hid & _ & Hget).
      split; [reflexivity|].
      split; [|split; [|split; [reflexivity|split; [reflexivity|
                                split; [reflexivity|reflexivity]]]]].
      * unfold getPhoto. rewrite Hid.
        change (Photo_ID photo) with (Photo_ID (setTitle photo title)).
        rewrite (Get_after_Update st photo) by exact Hget.
        f_equal. apply photoRow_stored.
        apply PhotoManager_Get_Some in Hget.
        destruct Hget as (_ & _ & row & _ & _ & ->). reflexivity.
      * intros id Hne. now apply Get_other_after_Update.
    + destruct body as [title|]; [|now split].
      destruct (validate st (setTitle photo title)) as [[|]|];
        cbn [out_status out_store out_messages]; now split.
Qed.

(** X13 ([editPhotoTitle], [vote], [Update]): a change of title writes
    every column of the photo as it was read.  When a vote on the same
    photo is registered between the read and the write of a change of
    title, the photo is afterwards read back with the new title and with
    both counters as they were before the vote, while the vote stays in the
    vote set of the voter, whose next vote on the photo is refused with
    403 (with the server error when one of its reads fails) and changes
    nothing: the vote is lost from the count and cannot be cast again. *)
Theorem title_edit_undoes_overlapping_vote
  (validate : Store -> Photo -> option bool) (d : Direction)
  (faults : Faults) (st st1 : Store) (rv re : Request) (title : gostring)
  (photo' : Photo) :
  titleToWrite validate st re (Some title) = inl photo' ->
  handle d faults st rv = (st1, Status StatusOK) ->
  Strconv.Atoi (req_id rv) = Strconv.Atoi (req_id re) ->
  let out := writeTitle st1 re photo' in
  exists photo voted,
    getPhoto st rv = Some photo /\
    getPhoto st1 rv = Some voted /\
    counter d voted = Int64.add (counter d photo) 1 /\
    out_status out = Status StatusOK /\
    getPhoto (out_store out) rv = Some (setTitle photo title) /\
    In (Photo_ID photo) (GetVotes (getCurrentUser (out_store out) rv)) /\
    forall faults',
      (fault_getCurrentUser faults' = false -> fault_Get faults' = false ->
       handle d faults' (out_store out) rv
       = (out_store out, Status StatusForbidden)) /\
      exists resp,
        handle d faults' (out_store out) rv = (out_store out, resp) /\
        (resp = Status StatusForbidden \/ resp = StatusInternalServerError).
Proof.
  intros Hread Hvote Hsame. cbv zeta.
  unfold titleToWrite in Hread.
  destruct (getPhotoToEdit_cases st re)
    as [(Ha & E)|[(Ha & Hp & E)|[(photo & Ha & Hp & Hadm & Hown & E)
       |(photo & Ha & Hp & Hcan & E)]]]; rewrite E in Hread;
    try discriminate.
  destruct (validate st (setTitle photo title)) as [[|]|]; try discriminate.
  injection Hread as <-.
  assert (Hpv : getPhoto st rv = Some photo).
  { unfold getPhoto in *. now rewrite Hsame. }
  apply vote_success in Hvote.
  destruct Hvote as (uid & u & p & voted & Hs & Hu & Hp0 & Hcanv & Hp1 & Hc
                     & _ & (u' & Hu' & Hvotes) & _).
  rewrite Hpv in Hp0. injection Hp0 as <-.
  exists photo, voted. split; [exact Hpv|]. split; [exact Hp1|].
  split; [exact Hc|]. split; [reflexivity|].
  unfold writeTitle. cbn [out_store].
  set (st2 := PhotoManager_Update st1 (setTitle photo title)).
  assert (Hid : Strconv.Atoi (req_id rv) = Some (Photo_ID photo)).
  { now apply getPhoto_Some in Hpv. }
  assert (Hget2 : getPhoto st2 rv = Some (setTitle photo title)).
  { unfold getPhoto. rewrite Hid.
    change (Photo_ID photo) with (Photo_ID (setTitle photo title)).
    apply getPhoto_Some in Hp1. destruct Hp1 as (Hid1 & _ & Hget1).
    assert (Photo_ID voted = Photo_ID photo) by congruence.
    unfold st2. rewrite (Get_after_Update st1 voted).
    - f_equal. apply photoRow_stored.
      apply getPhoto_Some in Hpv. destruct Hpv as (_ & _ & Hget).
      apply PhotoManager_Get_Some in Hget.
      destruct Hget as (_ & _ & row & _ & _ & ->). reflexivity.
    - cbn [Photo_ID setTitle]. congruence. }
  assert (Huser : getCurrentUser st2 rv = authenticated u').
  { change (getCurrentUser st2 rv) with (getCurrentUser st1 rv).
    unfold getCurrentUser. now rewrite Hs, Hu'. }
  assert (Hin : In (Photo_ID photo) (GetVotes (authenticated u'))).
  { rewrite GetVotes_authenticated, Hvotes. apply in_or_app. right. now left. }
  split; [exact Hget2|]. split; [now rewrite Huser|].
  assert (Hauth : User_IsAuthenticated (getCurrentUser st2 rv) = true)
    by now rewrite Huser.
  assert (Hno : CanVote (setTitle photo title)
                  (Some (getCurrentUser st2 rv)) = false).
  { rewrite Huser. unfold CanVote.
    cbn [User_IsAuthenticated authenticated negb User_ID Photo_ID Photo_OwnerID setTitle].
    destruct (Photo_OwnerID photo =? User_ID u'); [reflexivity|].
    apply negb_false_iff. apply HasVoted_In. exact Hin. }
  intros faults'. split.
  - intros G1 G2. now apply vote_forbidden with (photo := setTitle photo title).
  - now apply vote_refused with (photo := setTitle photo title).
Qed.

Lemma title_edit_undoes_overlapping_vote_witness :
  let rv := mkRequest (Some 5) (str "9") in
  let re := mkRequest (Some 1) (str "9") in
  let st1 := fst (handle Up noFaults sampleStore rv) in
  let out := writeTitle st1 re (setTitle (photoRow sunset) (str "Dusk")) in
  option_map Photo_UpVotes (getPhoto sampleStore rv) = Some 4 /\
  option_map Photo_UpVotes (getPhoto st1 rv) = Some 5 /\
  option_map Photo_UpVotes (getPhoto (out_store out) rv) = Some 4 /\
  handle Up noFaults (out_store out) rv
  = (out_store out, Status StatusForbidden).
Proof.
  intros rv re st1 out.
  destruct (title_edit_undoes_overlapping_vote (fun _ _ => Some true) Up
              noFaults sampleStore st1 rv re (str "Dusk")
              (setTitle (photoRow sunset) (str "Dusk")))
    as (photo & voted & H1 & H2 & H3 & H4 & H5 & H6 & H7);
    [reflexivity|reflexivity|reflexivity|].
  split; [reflexivity|]. split; [reflexivity|]. split; [reflexivity|].
  exact (proj1 (H7 noFaults) eq_refl eq_refl).
Defined.

(** ** New users and passwords *)

(** X14 ([PreInsert], [EncryptPassword], [ChangePassword],
    [CheckPassword]): with a hashing collaborator whose hashes are not
    empty and verify against the password they were made from, a user
    prepared for insertion is active, created at the time of the call and
    has an empty vote set, whatever the struct held in these fields, keeps
    identifier, name, email and the administrator flag as given, and passes
    the check of the password given; after a change of password the new
    password passes the check.  When hashing fails, [PreInsert] drops the
    error and the password stays in the struct as it was given, and
    [ChangePassword] reports the error with the new password stored as it
    was given. *)
Theorem passwords_of_new_and_changed_users
  (hashPassword : gostring -> option gostring)
  (verifyPassword : gostring -> gostring -> bool)
  (user : User) (now : Z) (password : gostring) :
  (forall p h, hashPassword p = Some h ->
               h <> [] /\ verifyPassword h p = true) ->
  let created := User_PreInsert hashPassword user now in
  let changed := fst (ChangePassword hashPassword user password) in
  let failed := snd (ChangePassword hashPassword user password) in
  User_IsActive created = true /\
  User_CreatedAt created = now /\
  GetVotes created = [] /\
  (forall photoID, HasVoted created photoID = false) /\
  User_ID created = User_ID user /\
  User_Name created = User_Name user /\
  User_Email created = User_Email user /\
  User_IsAdmin created = User_IsAdmin user /\
  (hashPassword (User_Password user) <> None ->
   CheckPassword verifyPassword created (User_Password user) = true) /\
  (hashPassword (User_Password user) = None ->
   User_Password created = User_Password user) /\
  (failed = false <-> hashPassword password <> None) /\
  (failed = false ->
   CheckPassword verifyPassword changed password = true /\
   setPassword changed (User_Password user) = user) /\
  (failed = true -> changed = setPassword user password).
Proof.
  intros Hhash. cbv zeta.
  unfold User_PreInsert, ChangePassword, EncryptPassword.
  cbn [User_Password setPassword].
  split; [destruct (hashPassword (User_Password user)); reflexivity|].
  split; [destruct (hashPassword (User_Password user)); reflexivity|].
  split; [reflexivity|]. split; [reflexivity|].
  split; [destruct (hashPassword (User_Password user)); reflexivity|].
  split; [destruct (hashPassword (User_Password user)); reflexivity|].
  split; [destruct (hashPassword (User_Password user)); reflexivity|].
  split; [destruct (hashPassword (User_Password user)); reflexivity|].
  split; [|split; [|split; [|split]]].
  - destruct (hashPassword (User_Password user)) as [h|] eqn:E;
      [|intros F; now elim F].
    intros _. destruct (Hhash _ _ E) as (Hne & Hv).
    unfold CheckPassword. cbn. destruct h; [now elim Hne|exact Hv].
  - intros E. rewrite E. reflexivity.
  - destruct (hashPassword password); cbn; split; congruence.
  - destruct (hashPassword password) as [h|] eqn:E; cbn; [|discriminate].
    intros _. destruct (Hhash _ _ E) as (Hne & Hv).
    split; [|now destruct user].
    unfold CheckPassword. cbn. destruct h; [now elim Hne|exact Hv].
  - destruct (hashPassword password); cbn; [discriminate|reflexivity].
Qed.

Lemma passwords_of_new_and_changed_users_witness :
  let hashPassword := fun p : gostring => Some ("$"%char :: p) in
  let verifyPassword :=
    fun h p : gostring => gostring_eqb h ("$"%char :: p) in
  let created := User_PreInsert hashPassword dave 1700000000 in
  User_IsActive created = true /\
  GetVotes created = [] /\
  CheckPassword verifyPassword created (str "h4") = true /\
  CheckPassword verifyPassword
    (fst (ChangePassword hashPassword created (str "s3cret"))) (str "s3cret")
  = true.
Proof.
  intros hashPassword verifyPassword created.
  assert (Hhash : forall p h, hashPassword p = Some h ->
                              h <> [] /\ verifyPassword h p = true).
  { intros p h E. injection E as <-. split; [discriminate|].
    apply gostring_eqb_refl. }
  destruct (passwords_of_new_and_changed_users hashPassword verifyPassword
              dave 1700000000 (str "s3cret") Hhash)
    as (H1 & _ & H3 & _ & _ & _ & _ & _ & H9 & _).
  destruct (passwords_of_new_and_changed_users hashPassword verifyPassword
              created 0 (str "s3cret") Hhash)
    as (_ & _ & _ & _ & _ & _ & _ & _ & _ & _ & _ & H12 & _).
  split; [exact H1|]. split; [exact H3|].
  split; [apply H9; discriminate|]. apply H12. reflexivity.
Defined.

(** ** The placeholders of the tag statement *)

Lemma tagLoop_args (i : Z) (names : list gostring) (acc : TagLoop) :
  tl_args (tagLoop i names acc) = tl_args acc ++ placeholdersFrom i names.
Proof.
  revert i acc. induction names as [|name rest IH]; intros i acc.
  - cbn. now rewrite app_nil_r.
  - cbn [tagLoop placeholdersFrom]. unfold usableTag.
    destruct (isEmptyString (Strings.TrimSpace name)); cbn [negb].
    + apply IH.
    + rewrite IH. cbn [tl_args]. now rewrite <- app_assoc.
Qed.

Lemma tagLoop_params_length (i : Z) (names : list gostring) (acc : TagLoop) :
  List.length (tl_params (tagLoop i names acc))
  = (List.length (tl_params acc) + List.length (placeholdersFrom i names))%nat.
Proof.
  revert i acc. induction names as [|name rest IH]; intros i acc.
  - cbn. now rewrite Nat.add_0_r.
  - cbn [tagLoop placeholdersFrom]. unfold usableTag.
    destruct (isEmptyString (Strings.TrimSpace name)); cbn [negb].
    + apply IH.
    + rewrite IH. cbn [tl_params List.length]. rewrite length_app.
      cbn [List.length]. lia.
Qed.

Lemma placeholdersFrom_bounds (i : Z) (names : list gostring) :
  Forall (fun n => i + 2 <= n <= i + 1 + Z.of_nat (List.length names))
    (placeholdersFrom i names).
Proof.
  revert i. induction names as [|name rest IH]; intros i; [constructor|].
  cbn [placeholdersFrom List.length].
  assert (H : Forall (fun n => i + 2 <= n
                               <= i + 1 + Z.of_nat (S (List.length rest)))
                (placeholdersFrom (i + 1) rest)).
  { eapply Forall_impl; [|apply IH]. cbn beta. intros n Hn. lia. }
  destruct (usableTag name); [|exact H].
  constructor; [lia|exact H].
Qed.

Lemma placeholdersFrom_sorted (i : Z) (names : list gostring) :
  StronglySorted Z.lt (placeholdersFrom i names).
Proof.
  revert i. induction names as [|name rest IH]; intros i; [constructor|].
  cbn [placeholdersFrom]. destruct (usableTag name); [|apply IH].
  constructor; [apply IH|].
  eapply Forall_impl; [|apply placeholdersFrom_bounds]. cbn beta.
  intros n Hn. lia.
Qed.

Lemma placeholdersFrom_last (i : Z) (names : list gostring) :
  placeholdersFrom i names <> [] ->
  exists n,
    In n (placeholdersFrom i names) /\
    i + 1 + Z.of_nat (List.length (placeholdersFrom i names)) <= n.
Proof.
  revert i. induction names as [|name rest IH]; intros i Hne;
    [now elim Hne|].
  cbn [placeholdersFrom] in *. destruct (usableTag name).
  - destruct (placeholdersFrom (i + 1) rest) as [|m l] eqn:E.
    + exists (i + 2). split; [now left|]. cbn. lia.
    + destruct (IH (i + 1)) as (n & Hin & Hn);
        [rewrite E; discriminate|].
      rewrite E in Hin, Hn. exists n. split; [now right|].
      cbn [List.length] in *. lia.
  - destruct (IH (i + 1) Hne) as (n & Hin & Hn).
    exists n. split; [exact Hin|]. lia.
Qed.

Lemma placeholdersFrom_none (i : Z) (names : list gostring) :
  placeholdersFrom i names = [] <->
  forall name, In name names -> usableTag name = false.
Proof.
  revert i. induction names as [|name rest IH]; intros i.
  - split; [intros _ n []|reflexivity].
  - cbn [placeholdersFrom]. destruct (usableTag name) eqn:E.
    + split; [discriminate|]. intros H.
      rewrite (H name) in E by now left. discriminate.
    + rewrite IH. split.
      * intros H n [<-|Hn]; auto.
      * intros H n Hn. apply H. now right.
Qed.

Lemma usableFirst_cons_usable (name : gostring) (rest : list gostring) :
  usableTag name = true ->
  (usableFirst (name :: rest) <-> usableFirst rest).
Proof.
  intros Hname. unfold usableFirst. split.
  - intros H before n after E Hn.
    assert (F : Forall (fun b => usableTag b = true) (name :: before)).
    { apply (H (name :: before) n after); [|exact Hn]. cbn. now rewrite E. }
    now inversion F.
  - intros H before n after E Hn.
    destruct before as [|b before]; [constructor|].
    cbn in E. injection E as <- E.
    constructor; [exact Hname|]. now apply (H before n after).
Qed.

Lemma usableFirst_cons_blank (name : gostring) (rest : list gostring) :
  usableTag name = false ->
  (usableFirst (name :: rest) <->
   forall n, In n rest -> usableTag n = false).
Proof.
  intros Hname. unfold usableFirst. split.
  - intros H n Hin. destruct (usableTag n) eqn:Hn; [|reflexivity].
    apply in_split in Hin. destruct Hin as (l1 & l2 & ->).
    assert (F : Forall (fun b => usableTag b = true) (name :: l1)).
    { now apply (H (name :: l1) n l2). }
    inversion F; congruence.
  - intros H before n after E Hn.
    destruct before as [|b before].
    + cbn in E. injection E as <- _. congruence.
    + cbn in E. injection E as _ E.
      rewrite (H n) in Hn; [discriminate|].
      rewrite E. apply in_or_app. right. now left.
Qed.

Lemma placeholdersFrom_within (i : Z) (names : list gostring) :
  Forall (fun n => n <= i + 1 + Z.of_nat (List.length (placeholdersFrom i names)))
    (placeholdersFrom i names) <->
  usableFirst names.
Proof.
  revert i. induction names as [|name rest IH]; intros i.
  - split; [|constructor].
    intros _ before n after E. now destruct before.
  - cbn [placeholdersFrom]. destruct (usableTag name) eqn:Hname.
    + rewrite usableFirst_cons_usable by exact Hname. rewrite <- (IH (i + 1)).
      cbn [List.length]. split.
      * intros H. inversion H as [|x l Hx Hl]; subst.
        eapply Forall_impl; [|exact Hl]. cbn beta. intros n Hn. lia.
      * intros H. constructor; [lia|].
        eapply Forall_impl; [|exact H]. cbn beta. intros n Hn. lia.
    + rewrite usableFirst_cons_blank by exact Hname.
      rewrite <- (placeholdersFrom_none (i + 1)). split.
      * intros H.
        destruct (placeholdersFrom (i + 1) rest) as [|m l] eqn:E;
          [reflexivity|].
        destruct (placeholdersFrom_last (i + 1) rest) as (n & Hin & Hn);
          [rewrite E; discriminate|].
        rewrite E in Hin, Hn. rewrite Forall_forall in H.
        specialize (H n Hin). lia.
      * intros ->. constructor.
Qed.

Lemma placeholdersFrom_contiguous (i : Z) (names : list gostring) :
  usableFirst names ->
  placeholdersFrom i names
  = map (fun k => i + 2 + Z.of_nat k)
      (seq 0 (List.length (placeholdersFrom i names))).
Proof.
  revert i. induction names as [|name rest IH]; intros i H; [reflexivity|].
  cbn [placeholdersFrom]. destruct (usableTag name) eqn:Hname.
  - apply usableFirst_cons_usable in H; [|exact Hname].
    cbn [List.length seq map]. f_equal; [lia|].
    rewrite <- seq_shift, map_map. rewrite (IH (i + 1) H) at 1.
    apply map_ext. intros k. lia.
  - pose proof (proj1 (usableFirst_cons_blank name rest Hname) H) as Hrest.
    apply (placeholdersFrom_none (i + 1)) in Hrest. now rewrite Hrest.
Qed.

(** X15 ([UpdateTags]): the statement [SELECT add_tags($1, ...)] that
    [UpdateTags] builds has one placeholder more than it binds tag names,
    the first is [$1], the numbers rise strictly and stay at or below the
    number of tags of the photo plus one.  With [n] the number of
    parameters bound (the photo identifier and the names), the
    placeholders are [$1] to [$n] exactly when no blank tag stands before
    a usable one, and exactly then no placeholder has a number above
    [n]. *)
Theorem UpdateTags_placeholders (names : list gostring) :
  let loop := tagLoop 0 names tagLoopStart in
  let bound := S (List.length (tl_params loop)) in
  List.length (tl_args loop) = bound /\
  hd 0 (tl_args loop) = 1 /\
  StronglySorted Z.lt (tl_args loop) /\
  Forall (fun n => 1 <= n <= Z.of_nat (List.length names) + 1) (tl_args loop) /\
  (tl_args loop = map Z.of_nat (seq 1 bound) <-> usableFirst names) /\
  (Forall (fun n => n <= Z.of_nat bound) (tl_args loop) <-> usableFirst names).
Proof.
  cbv zeta. rewrite tagLoop_args, tagLoop_params_length.
  cbn [tl_args tl_params tagLoopStart List.length Nat.add app].
  set (l := placeholdersFrom 0 names).
  assert (Hwithin : Forall (fun n => n <= Z.of_nat (S (List.length l))) (1 :: l)
                    <-> usableFirst names).
  { rewrite <- (placeholdersFrom_within 0 names). fold l. split.
    - intros H. inversion H as [|x xs _ Hl]; subst.
      eapply Forall_impl; [|exact Hl]. cbn beta. intros n Hn. lia.
    - intros H. constructor; [lia|].
      eapply Forall_impl; [|exact H]. cbn beta. intros n Hn. lia. }
  split; [reflexivity|]. split; [reflexivity|].
  split; [|split; [|split; [|exact Hwithin]]].
  - constructor; [apply placeholdersFrom_sorted|].
    eapply Forall_impl; [|apply (placeholdersFrom_bounds 0 names)].
    cbn beta. intros n Hn. lia.
  - constructor; [lia|].
    eapply Forall_impl; [|apply (placeholdersFrom_bounds 0 names)].
    cbn beta. intros n Hn. lia.
  - split.
    + intros E. apply Hwithin. rewrite E. apply Forall_forall.
      intros n Hn. apply in_map_iff in Hn. destruct Hn as (k & <- & Hk).
      apply in_seq in Hk. lia.
    + intros H. cbn [seq map]. f_equal.
      unfold l. rewrite (placeholdersFrom_contiguous 0 names H) at 1.
      fold l. rewrite <- !seq_shift, !map_map. apply map_ext. intros k. lia.
Qed.

(** ** The detail of a photo *)

Lemma filter_key_unique {A : Type} (key : A -> Z) (l : list A) (k : Z) :
  NoDup (map key l) ->
  filter (fun a => key a =? k) l
  = match find (fun a => key a =? k) l with
    | Some a => [a]
    | None => []
    end.
Proof.
  induction l as [|a l IH]; intros Hnd; [reflexivity|].
  apply NoDup_key_head in Hnd. destruct Hnd as (Hfresh & Hnd).
  cbn [filter find]. destruct (Z.eqb_spec (key a) k) as [E|E].
  - f_equal. apply filter_none. intros row Hrow.
    apply Z.eqb_neq. rewrite <- E. now apply Hfresh.
  - now apply IH.
Qed.

Lemma filter_join_left {A B : Type} (P : A -> bool) (on : A -> B -> bool)
  (l : list A) (r : list B) :
  filter (fun row : A * B => P (fst row)) (innerJoin on l r)
  = innerJoin on (filter P l) r.
Proof.
  unfold innerJoin. induction l as [|a l IH]; [reflexivity|].
  cbn [flat_map filter]. rewrite filter_app, IH.
  destruct (P a) eqn:Pa.
  - cbn [flat_map]. f_equal.
    induction (filter (on a) r) as [|b m IHm]; [reflexivity|].
    cbn [map filter fst]. rewrite Pa. now f_equal.
  - rewrite filter_none; [reflexivity|].
    intros row Hrow. apply in_map_iff in Hrow.
    destruct Hrow as (b & <- & _). exact Pa.
Qed.

(** X16 ([GetDetail], [Get]): in a store whose photo and user identifiers
    are distinct, the detail of a photo never fails; it is nil when [Get]
    finds no photo, and also when the row of the owner is missing although
    [Get] finds the photo; otherwise it is the photo that [Get] returns
    with the names of its tags, the name of the owner, active or not, and
    the permissions of the viewer on it. *)
Theorem GetDetail_agrees_with_Get
  (st : Store) (photoID : Z) (user : option User) :
  NoDup (map Photo_ID (photos st)) ->
  NoDup (map User_ID (users st)) ->
  match PhotoManager_Get st photoID with
  | None => GetDetail st photoID user = Ok None
  | Some photo =>
      match find (fun u => User_ID u =? Photo_OwnerID photo) (users st) with
      | None => GetDetail st photoID user = Ok None
      | Some owner =>
          let shown := setTags photo (photoTagNames st photoID) in
          GetDetail st photoID user
          = Ok (Some (mkPhotoDetail shown (User_Name owner)
                        (permissionsFor shown user)))
      end
  end.
Proof.
  intros Hp Hu. unfold PhotoManager_Get, GetDetail.
  destruct (photoID =? 0); [reflexivity|].
  rewrite (filter_join_left (fun p => Photo_ID p =? photoID)).
  rewrite (filter_key_unique Photo_ID) by exact Hp.
  destruct (find (fun p => Photo_ID p =? photoID) (photos st))
    as [prow|] eqn:Hfind; cbn [option_map]; [|reflexivity].
  unfold innerJoin. cbn [flat_map]. rewrite app_nil_r.
  rewrite (filter_key_unique User_ID) by exact Hu.
  change (Photo_OwnerID (photoRow prow)) with (Photo_OwnerID prow).
  destruct (find (fun u => User_ID u =? Photo_OwnerID prow) (users st))
    as [owner|]; cbn [map SelectOne]; [|reflexivity].
  cbv zeta. apply find_some in Hfind. destruct Hfind as (_ & Hid).
  apply Z.eqb_eq in Hid.
  change (Photo_ID (photoRow prow)) with (Photo_ID prow). rewrite Hid.
  reflexivity.
Qed.

Lemma GetDetail_agrees_with_Get_witness :
  GetDetail sampleStore 9 (Some (authenticated bob))
  = Ok (Some (mkPhotoDetail
                (setTags (photoRow sunset) [str "cats"; str "sky"])
                (str "alice") (mkPermissions false false true))).
Proof.
  assert (Hp : NoDup (map Photo_ID (photos sampleStore)))
    by (repeat constructor; cbn; intuition discriminate).
  assert (Hu : NoDup (map User_ID (users sampleStore)))
    by (repeat constructor; cbn; intuition discriminate).
  exact (GetDetail_agrees_with_Get sampleStore 9 (Some (authenticated bob))
           Hp Hu).
Defined.

(** ** The stored text of a vote set *)

(** X17 ([pgArrToIntSlice], [intSliceToPgArr], [GetVotes], [SetVotes],
    [HasVoted]): whatever text the votes column holds, the vote set read
    from it has 64-bit entries only, and writing it back and reading it
    again gives the same vote set, so that [SetVotes] of [GetVotes] changes
    no answer of [HasVoted]; the text written is the same when it is
    written a second time. *)
Theorem vote_set_normal_form (user : User) :
  let votes := GetVotes user in
  let saved := SetVotes user votes in
  Forall Int64.in_range votes /\
  GetVotes saved = votes /\
  (forall photoID, HasVoted saved photoID = HasVoted user photoID) /\
  SetVotes saved (GetVotes saved) = saved.
Proof.
  cbv zeta.
  assert (H : GetVotes (SetVotes user (GetVotes user)) = GetVotes user).
  { unfold GetVotes at 1. cbn [SetVotes User_Votes].
    apply pgArr_roundtrip. apply pgArrToIntSlice_in_range. }
  split; [apply pgArrToIntSlice_in_range|]. split; [exact H|].
  split.
  - intros photoID. unfold HasVoted. now rewrite H.
  - rewrite H. reflexivity.
Qed.

(** ** Users found twice *)

Lemma find_key_unique {A : Type} (key : A -> Z) (P : A -> bool)
  (l : list A) (row : A) :
  NoDup (map key l) -> In row l -> P row = true ->
  (forall r, P r = true -> key r = key row) ->
  find P l = Some row.
Proof.
  intros Hnd Hin Hrow Hkey.
  destruct (find P l) as [r|] eqn:E.
  - apply find_some in E. destruct E as (Hr & HP). f_equal.
    apply (NoDup_key_inj key l); auto.
  - apply (find_none _ _ E) in Hin. congruence.
Qed.

Lemma GetActive_row (st : Store) (row : User) :
  NoDup (map User_ID (users st)) ->
  In row (users st) -> User_IsActive row = true ->
  UserManager_GetActive st (User_ID row) = Some (userRow row).
Proof.
  intros Hnd Hin Hact. unfold UserManager_GetActive.
  rewrite (find_key_unique User_ID _ (users st) row); try assumption.
  - reflexivity.
  - rewrite Hact. cbn [andb]. apply Z.eqb_refl.
  - intros r Hr. apply andb_true_iff in Hr. destruct Hr as (_ & Hr).
    now apply Z.eqb_eq in Hr.
Qed.

(** X18 ([Authenticate], [GetByEmail], [GetByRecoveryCode], [GetActive]):
    in a store whose user identifiers are distinct, the user that a login,
    a lookup by email or a lookup by recovery code returns is the user
    that [GetActive] returns for its identifier. *)
Theorem found_user_is_the_active_user
  (verifyPassword : gostring -> gostring -> bool)
  (st : Store) (u : User) :
  NoDup (map User_ID (users st)) ->
  (exists identifier password,
     fst (Authenticate verifyPassword st identifier password) = Some u) \/
  (exists email, GetByEmail st email = Ok (Some u)) \/
  (exists code, GetByRecoveryCode st code = Ok (Some u)) ->
  UserManager_GetActive st (User_ID u) = Some u.
Proof.
  intros Hnd H.
  assert (Hrow : exists row, In row (users st) /\ u = userRow row /\
                             User_IsActive row = true).
  { destruct H as [(identifier & password & H)|[(email & H)|(code & H)]].
    - unfold Authenticate in H.
      destruct (SelectOne (authRows st identifier)) as [row| |] eqn:E;
        try discriminate.
      destruct (negb (CheckPassword verifyPassword (userRow row) password));
        [discriminate|].
      cbn [fst] in H. injection H as <-.
      apply SelectOne_OneRow in E.
      assert (Hin : In row (authRows st identifier)) by (rewrite E; now left).
      apply authRows_In in Hin. exists row. tauto.
    - apply GetByEmail_Some in H. destruct H as (row & H1 & H2 & H3 & _).
      now exists row.
    - apply GetByRecoveryCode_Some in H.
      destruct H as (_ & row & H1 & H2 & H3 & _). now exists row. }
  destruct Hrow as (row & Hin & -> & Hact).
  change (User_ID (userRow row)) with (User_ID row).
  now apply GetActive_row.
Qed.

Lemma found_user_is_the_active_user_witness :
  UserManager_GetActive sampleStore 5 = Some bob.
Proof.
  apply (found_user_is_the_active_user (fun _ _ => true) sampleStore bob).
  - repeat constructor; cbn; intuition discriminate.
  - left. exists (str "bob"), (str "h2"). reflexivity.
Defined.

(** ** A name that is another user's email *)

(** X19 ([Authenticate], [IsNameAvailable], [IsEmailAvailable]): the name
    of one active user and the email of another may be the same text, and
    each is then available in the sense of [IsNameAvailable] and
    [IsEmailAvailable] as long as no other row repeats it in the same
    column; a login with this text as identifier returns an error and no
    user, whatever the password, also the right one of either user. *)
Theorem Authenticate_identifier_clash
  (verifyPassword : gostring -> gostring -> bool)
  (st : Store) (a b : User) (identifier password : gostring) :
  In a (users st) -> In b (users st) -> a <> b ->
  User_IsActive a = true -> User_IsActive b = true ->
  User_Name a = identifier -> User_Email b = identifier ->
  Authenticate verifyPassword st identifier password = (None, Some tt) /\
  ((forall row, In row (users st) -> User_Name row = identifier ->
                User_ID row = User_ID a) ->
   User_ID a <> 0 -> IsNameAvailable st a = true) /\
  ((forall row, In row (users st) -> User_Email row = identifier ->
                User_ID row = User_ID b) ->
   User_ID b <> 0 -> IsEmailAvailable st b = true).
Proof.
  intros Ha Hb Hne Hacta Hactb Hname Hemail.
  split; [|split].
  - unfold Authenticate.
    rewrite (two_rows (authRows st identifier) a b); [reflexivity| | |exact Hne].
    + apply authRows_In. auto.
    + apply authRows_In. auto.
  - intros Huniq Hid. unfold IsNameAvailable.
    apply (available_iff st User_Name a).
    intros row Hin Hrow. split; [exact Hid|].
    apply Huniq; [exact Hin|congruence].
  - intros Huniq Hid. unfold IsEmailAvailable.
    apply (available_iff st User_Email b).
    intros row Hin Hrow. split; [exact Hid|].
    apply Huniq; [exact Hin|congruence].
Qed.

Lemma Authenticate_identifier_clash_witness :
  let st := setUsers sampleStore [alice; bob; mallory] in
  Authenticate (fun _ _ => true) st (str "bob@example.org") (str "h2")
  = (None, Some tt) /\
  IsNameAvailable st mallory = true /\
  IsEmailAvailable st bob = true.
Proof.
  intros st.
  destruct (Authenticate_identifier_clash (fun _ _ => true) st mallory bob
              (str "bob@example.org") (str "h2"))
    as (H1 & H2 & H3);
    try reflexivity.
  - right. right. now left.
  - right. now left.
  - discriminate.
  - split; [exact H1|]. split.
    + apply H2; [|discriminate].
      intros row [<-|[<-|[<-|[]]]]; cbn; intros E; try discriminate.
      reflexivity.
    + apply H3; [|discriminate].
      intros row [<-|[<-|[<-|[]]]]; cbn; intros E; try discriminate.
      reflexivity.
Defined.

(** ** Inserting and uploading a photo *)

Lemma find_app_last {A : Type} (P : A -> bool) (l : list A) (x : A) :
  (forall row, In row l -> P row = false) -> P x = true ->
  find P (l ++ [x]) = Some x.
Proof.
  intros Hl Hx. induction l as [|a l IH]; cbn [app find].
  - now rewrite Hx.
  - rewrite (Hl a) by now left. apply IH. intros row Hr. apply Hl. now right.
Qed.

Lemma find_app_miss {A : Type} (P : A -> bool) (l : list A) (x : A) :
  P x = false -> find P (l ++ [x]) = find P l.
Proof.
  intros Hx. induction l as [|a l IH]; cbn [app find].
  - now rewrite Hx.
  - destruct (P a); [reflexivity|exact IH].
Qed.

Lemma Get_inserted (st : Store) (row : Photo) :
  Photo_ID row <> 0 ->
  (forall other, In other (photos st) -> Photo_ID other <> Photo_ID row) ->
  PhotoManager_Get (setPhotos st (photos st ++ [row])) (Photo_ID row)
  = Some (photoRow row).
Proof.
  intros Hid Hfresh. unfold PhotoManager_Get. cbn [photos setPhotos].
  apply Z.eqb_neq in Hid. rewrite Hid.
  rewrite find_app_last; [reflexivity| |apply Z.eqb_refl].
  intros other Hother. apply Z.eqb_neq. now apply Hfresh.
Qed.

(** X20 ([Insert], [PreInsert], [UpdateTags]): [Insert] stores the row of
    the photo, created at the time of the call and under the key the store
    assigns, before it updates the tags, and not inside the transaction it
    opens.  With a new key that is not 0: the photo is then read back by
    its key and every other photo as before; a photo without a usable tag
    is inserted without a call of [add_tags] and without an error; and when
    the tag statement fails, [Insert] returns the error while the row of
    the photo stays in the store. *)
Theorem Insert_keeps_the_row_when_tags_fail
  (add_tags : Store -> list Z -> Z -> list gostring -> Result Store)
  (st st' : Store) (photo photo' : Photo) (now newID : Z) (failed : bool) :
  newID <> 0 ->
  (forall row, In row (photos st) -> Photo_ID row <> newID) ->
  PhotoManager_Insert add_tags st photo now newID = (st', photo', failed) ->
  let inserted := setID (setCreatedAt photo now) newID in
  let st1 := setPhotos st (photos st ++ [photoRow inserted]) in
  photo' = inserted /\
  PhotoManager_Get st1 newID = Some (photoRow inserted) /\
  (forall id, id <> newID ->
     PhotoManager_Get st1 id = PhotoManager_Get st id) /\
  (normalizeTags (Photo_Tags photo) = [] ->
   failed = false /\
   st' = setPhotoTags st1
           (filter (fun pt => negb (fst pt =? newID)) (photo_tags st))) /\
  (failed = true ->
   st' = st1 /\ PhotoManager_Get st' newID = Some (photoRow inserted)) /\
  (failed = false -> UpdateTags add_tags st1 inserted = Ok st').
Proof.
  intros Hid Hfresh H. cbv zeta.
  set (inserted := setID (setCreatedAt photo now) newID).
  set (st1 := setPhotos st (photos st ++ [photoRow inserted])).
  assert (Hget : PhotoManager_Get st1 newID = Some (photoRow inserted)).
  { apply (Get_inserted st (photoRow inserted)); assumption. }
  unfold PhotoManager_Insert, Photo_PreInsert in H.
  fold inserted in H. fold st1 in H.
  split; [|split; [exact Hget|split; [|split; [|split]]]].
  - destruct (UpdateTags add_tags st1 inserted); now injection H.
  - intros id Hne. unfold PhotoManager_Get, st1. cbn [photos setPhotos].
    destruct (id =? 0); [reflexivity|].
    rewrite find_app_miss; [reflexivity|].
    cbn. apply Z.eqb_neq. congruence.
  - intros Hnone. apply isEmpty_normalizeTags in Hnone.
    unfold UpdateTags in H.
    change (Photo_Tags inserted) with (Photo_Tags photo) in H.
    change (Photo_ID inserted) with newID in H.
    rewrite Hnone in H. apply Z.eqb_neq in Hid. rewrite Hid in H.
    cbn [andb negb] in H. injection H as <- _ <-. split; reflexivity.
  - intros ->. destruct (UpdateTags add_tags st1 inserted);
      [discriminate|].
    injection H as <- _. split; [reflexivity|exact Hget].
  - intros ->. destruct (UpdateTags add_tags st1 inserted) as [st2|];
      [|discriminate].
    injection H as <- _. reflexivity.
Qed.

Lemma Insert_keeps_the_row_when_tags_fail_witness :
  let photo := mkPhoto 0 5 0 (str "Pier") (str "p.jpg") [str "sea"] 0 0 in
  let inserted := mkPhoto 12 5 1700000000 (str "Pier") (str "p.jpg")
                    [str "sea"] 0 0 in
  let st1 := setPhotos sampleStore
               (photos sampleStore ++ [photoRow inserted]) in
  PhotoManager_Insert (fun _ _ _ _ => Failed) sampleStore photo 1700000000 12
  = (st1, inserted, true) /\
  PhotoManager_Get st1 12 = Some (photoRow inserted).
Proof.
  intros photo inserted st1.
  split; [reflexivity|].
  destruct (Insert_keeps_the_row_when_tags_fail (fun _ _ _ _ => Failed)
              sampleStore st1 photo inserted 1700000000 12 true)
    as (_ & _ & _ & _ & H & _).
  - discriminate.
  - intros row [<-|[<-|[<-|[]]]]; discriminate.
  - reflexivity.
  - now apply H.
Defined.

Lemma isAllowedContentType_iff (contentType : gostring) :
  isAllowedContentType contentType = true <->
  contentType = str "image/png" \/ contentType = str "image/jpeg".
Proof.
  unfold isAllowedContentType, allowedContentTypes. cbn [existsb].
  rewrite !orb_true_iff, !gostring_eqb_eq. intuition discriminate.
Qed.

(** X21 ([upload], [isAllowedContentType], [Insert]): an upload is refused
    with 401 when the user of the session is not authenticated, then with
    400 when no file was posted and with the server error when the file
    cannot be read; the handler panics on a file part without a content
    type; a content type other than "image/png" and "image/jpeg" is
    refused with 400.  Up to there nothing is handed to the image
    processor; after that the image has been processed whatever the answer,
    also when the validator rejects the photo (400) or the insertion fails
    (the server error).  The store changes only through [Insert], after
    the validator accepted the photo.  On 200 the body is the photo with
    the key and the time of the insertion, the user of the session as
    owner, the title of the form, the file name of the image processor,
    the pieces of the tag list between single spaces as tags and both
    counters at 0, and one message "photo_uploaded" names the user and the
    photo; every other answer has no body and sends no message. *)
Theorem upload_checks
  (add_tags : Store -> list Z -> Z -> list gostring -> Result Store)
  (validate : Store -> Photo -> option bool)
  (process : gostring -> gostring -> Result gostring)
  (st : Store) (r : UploadRequest) (now newID : Z) :
  let out := upload add_tags validate process st r now newID in
  let user := getCurrentUser st (mkRequest (up_session r) []) in
  let tags := Strings.Split (up_taglist r) " "%char in
  let refusal status := mkUploaded st status None [] [] in
  (User_IsAuthenticated user = false ->
   out = refusal (Written (Status StatusUnauthorized))) /\
  (User_IsAuthenticated user = true ->
   match up_photo r with
   | NoFile => out = refusal (Written StatusBadRequest)
   | FileError => out = refusal (Written StatusInternalServerError)
   | Posted [] _ => out = refusal Panicked
   | Posted (contentType :: _) content =>
       (contentType <> str "image/png" ->
        contentType <> str "image/jpeg" ->
        out = refusal (Written StatusBadRequest)) /\
       (contentType = str "image/png" \/ contentType = str "image/jpeg" ->
        upd_processed out = [(content, contentType)] /\
        match process content contentType with
        | Failed =>
            upd_status out = Written StatusInternalServerError /\
            upd_store out = st
        | Ok filename =>
            let photo := mkPhoto 0 (User_ID user) 0 (up_title r) filename
                           tags 0 0 in
            match validate st photo with
            | None =>
                upd_status out = Written StatusInternalServerError /\
                upd_store out = st
            | Some false =>
                upd_status out = Written StatusBadRequest /\
                upd_store out = st
            | Some true =>
                let result :=
                  PhotoManager_Insert add_tags st photo now newID in
                upd_store out = fst (fst result) /\
                (snd result = true ->
                 upd_status out = Written StatusInternalServerError) /\
                (snd result = false ->
                 upd_status out = Written (Status StatusOK) /\
                 upd_body out
                 = Some (mkPhoto newID (User_ID user) now (up_title r)
                           filename tags 0 0) /\
                 upd_messages out
                 = [(User_Name user, [], newID, str "photo_uploaded")])
            end
        end)
   end) /\
  (upd_processed out = [] -> upd_store out = st) /\
  (upd_status out <> Written (Status StatusOK) ->
   upd_body out = None /\ upd_messages out = []).
Proof.
  cbv zeta. unfold upload.
  destruct (User_IsAuthenticated
              (getCurrentUser st (mkRequest (up_session r) []))) eqn:Hauth;
    cbn [negb].
  2:{ split; [reflexivity|]. split; [discriminate|]. now split. }
  split; [discriminate|].
  destruct (up_photo r) as [| |[|contentType types] content].
  1-3: (split; [reflexivity|]; split; [reflexivity|]; cbn; split;
        [reflexivity|]; now split).
  destruct (isAllowedContentType contentType) eqn:Hallowed; cbn [negb].
  2:{ split; [|split; [reflexivity|now split]].
      intros _. split; [reflexivity|]. intros H.
      apply isAllowedContentType_iff in H. congruence. }
  assert (Hct := Hallowed). apply isAllowedContentType_iff in Hct.
  destruct (process content contentType) as [filename|].
  2:{ split; [|split; [discriminate|now split]].
      intros _. split; [intros F1 F2; destruct Hct; contradiction|].
      intros _. now split. }
  destruct (validate st _) as [[|]|].
  2,3: (split; [|split; [discriminate|now split]];
        intros _; split; [intros F1 F2; destruct Hct; contradiction|];
        intros _; now split).
  unfold PhotoManager_Insert, Photo_PreInsert.
  destruct (UpdateTags add_tags _ _) as [st2|]; cbn [fst snd].
  - split; [|split; [discriminate|]].
    + intros _. split; [intros F1 F2; destruct Hct; contradiction|].
      intros _. split; [reflexivity|]. split; [reflexivity|].
      split; [discriminate|]. intros _. now split.
    + intros F. now elim F.
  - split; [|split; [discriminate|now split]].
    intros _. split; [intros F1 F2; destruct Hct; contradiction|].
    intros _. split; [reflexivity|]. split; [reflexivity|].
    split; [reflexivity|]. discriminate.
Qed.

(** X22 ([upload], [Insert], [UpdateTags]): for an authenticated user who
    posts an image of an allowed type that the image processor stores and
    the validator accepts, with a new key that is not 0: when the tag list
    has no usable tag (it is empty, or only spaces) the upload is answered
    200 without a call of [add_tags], and the photo is read back by its
    key with the user as owner, both counters at 0 and the users and tags
    tables untouched; and whenever the upload is answered with the server
    error, the photo is in the store all the same and is read back by its
    key, while no message was sent. *)
Theorem upload_stores_the_photo
  (add_tags : Store -> list Z -> Z -> list gostring -> Result Store)
  (validate : Store -> Photo -> option bool)
  (process : gostring -> gostring -> Result gostring)
  (st : Store) (r : UploadRequest) (now newID : Z)
  (contentType : gostring) (types : list gostring)
  (content filename : gostring) :
  let user := getCurrentUser st (mkRequest (up_session r) []) in
  let names := Strings.Split (up_taglist r) " "%char in
  newID <> 0 ->
  (forall row, In row (photos st) -> Photo_ID row <> newID) ->
  User_IsAuthenticated user = true ->
  up_photo r = Posted (contentType :: types) content ->
  isAllowedContentType contentType = true ->
  process content contentType = Ok filename ->
  validate st (mkPhoto 0 (User_ID user) 0 (up_title r) filename names 0 0)
  = Some true ->
  let out := upload add_tags validate process st r now newID in
  let row := mkPhoto newID (User_ID user) now (up_title r) filename [] 0 0 in
  (normalizeTags names = [] ->
   upd_status out = Written (Status StatusOK) /\
   PhotoManager_Get (upd_store out) newID = Some row /\
   users (upd_store out) = users st /\
   tags (upd_store out) = tags st) /\
  (upd_status out = Written StatusInternalServerError ->
   PhotoManager_Get (upd_store out) newID = Some row /\
   upd_messages out = []) /\
  (up_taglist r = [] -> normalizeTags names = []).
Proof.
  cbv zeta. intros Hid Hfresh Hauth Hfile Hallowed Hproc Hvalid.
  unfold upload. rewrite Hauth, Hfile, Hallowed, Hproc, Hvalid. cbn [negb].
  unfold PhotoManager_Insert, Photo_PreInsert.
  set (user := getCurrentUser st (mkRequest (up_session r) [])).
  set (names := Strings.Split (up_taglist r) " "%char).
  set (inserted := setID (setCreatedAt _ now) newID).
  set (st1 := setPhotos st (photos st ++ [photoRow inserted])).
  assert (Hget : PhotoManager_Get st1 newID
                 = Some (mkPhoto newID (User_ID user) now (up_title r)
                           filename [] 0 0)).
  { apply (Get_inserted st (photoRow inserted)); assumption. }
  split; [|split].
  - intros Hnone. apply isEmpty_normalizeTags in Hnone.
    unfold UpdateTags.
    change (Photo_Tags inserted) with names.
    change (Photo_ID inserted) with newID.
    rewrite Hnone. apply Z.eqb_neq in Hid. rewrite Hid. cbn [andb negb].
    cbn [upd_status upd_store]. split; [reflexivity|].
    split; [exact Hget|]. split; reflexivity.
  - destruct (UpdateTags add_tags st1 inserted) as [st2|];
      cbn [upd_status upd_store upd_messages]; [discriminate|].
    intros _. split; [exact Hget|reflexivity].
  - intros E. unfold names. rewrite E. reflexivity.
Qed.

Lemma upload_stores_the_photo_witness :
  let r := mkUploadRequest (Some 5) (str "Pier") (str "sea  gulls")
             (Posted [str "image/png"] (str "PNG...")) in
  let out := upload (fun _ _ _ _ => Failed) (fun _ _ => Some true)
               (fun _ _ => Ok (str "p.jpg")) sampleStore r 1700000000 12 in
  upd_status out = Written StatusInternalServerError /\
  PhotoManager_Get (upd_store out) 12
  = Some (mkPhoto 12 5 1700000000 (str "Pier") (str "p.jpg") [] 0 0) /\
  upd_messages out = [].
Proof.
  intros r out. split; [reflexivity|].
  destruct (upload_stores_the_photo (fun _ _ _ _ => Failed)
              (fun _ _ => Some true) (fun _ _ => Ok (str "p.jpg"))
              sampleStore r 1700000000 12 (str "image/png") []
              (str "PNG...") (str "p.jpg"))
    as (_ & H & _); try reflexivity.
  - discriminate.
  - intros row [<-|[<-|[<-|[]]]]; discriminate.
  - now apply H.
Defined.
